(** * Sudoku by exact cover: a shallow embedding of [sudoku.py]

    The program builds two dictionaries, [X] (constraint -> set of
    candidates) and [Y] (candidate -> list of its four constraints), seeds
    the clues of the board with [select], and enumerates the completions with
    the recursive generator [attempt], which covers with [select] and
    uncovers with [deselect].

    Modelling choices.
    - A Python [dict] is an association list in insertion order: the loop
      [for a in X] walks it front to back, [X[k] = v] on a new key appends,
      on an existing key replaces in place, and [X.pop(k)] removes the entry.
    - A Python [set] is a duplicate-free list.  CPython iterates a set in
      hash order; the model iterates in insertion order.  Statements about
      the contents of [X] are therefore made up to the members of each set.
    - The objects the core holds references to ([X], [Y], the partial
      solution, the board) live in one [store].  An operation is a function
      from a store to a store and a [result]; the store it returns on
      [Raise] is the store at the point of the exception, as in Python,
      where mutations made before an exception stay.
    - A generator is run to exhaustion (or to its first exception); it
      returns the snapshots of the store taken at each [yield], in order.
    - Board indices and values are natural numbers: they come from [range]
      or are checked by [check_board] to lie in [0..N].
    - [int(N ** 0.5)] is [Nat.sqrt N]; [N ** 0.5 % 1 != 0] is the test that
      [N] is not a perfect square.
    - [attempt] recurses on a fuel argument; [solve] gives it more fuel than
      [X] has keys, and [FuelExhausted] is shown never to be reached from a
      well-formed state. *)

From Stdlib Require Import ZArith Ascii String DecimalString.
From Stdlib Require Import List Arith PeanoNat Bool Lia Permutation FinFun.
Import ListNotations.

(** ** Candidates, constraints, grids *)

(** The first component of a constraint tuple: ['rowcol'], ['rownum'],
    ['colnum'], ['blcnum']. *)
Inductive kind : Type := rowcol | rownum | colnum | blcnum.

(** [('rownum', i, n)] and the like. *)
Definition constraint : Type := (kind * nat * nat)%type.

(** [(row, col, num)]. *)
Definition candidate : Type := (nat * nat * nat)%type.

Definition grid : Type := list (list nat).

Definition kind_eqb (a b : kind) : bool :=
  match a, b with
  | rowcol, rowcol | rownum, rownum | colnum, colnum | blcnum, blcnum => true
  | _, _ => false
  end.

Definition constraint_eqb (a b : constraint) : bool :=
  let '(ka, ia, ja) := a in
  let '(kb, ib, jb) := b in
  kind_eqb ka kb && (ia =? ib) && (ja =? jb).

Definition candidate_eqb (a b : candidate) : bool :=
  let '(ra, ca, na) := a in
  let '(rb, cb, nb) := b in
  (ra =? rb) && (ca =? cb) && (na =? nb).

(** ** Dictionaries in insertion order *)

Section Dict.
Variables K V : Type.
Variable eqb : K -> K -> bool.

Definition dict : Type := list (K * V).

(** [d[k]], [None] standing for [KeyError]. *)
Fixpoint dict_get (d : dict) (k : K) : option V :=
  match d with
  | [] => None
  | (k', v) :: d' => if eqb k' k then Some v else dict_get d' k
  end.

(** [d[k] = v]. *)
Fixpoint dict_set (d : dict) (k : K) (v : V) : dict :=
  match d with
  | [] => [(k, v)]
  | (k', v') :: d' =>
      if eqb k' k then (k', v) :: d' else (k', v') :: dict_set d' k v
  end.

(** The dictionary left by [d.pop(k)]. *)
Definition dict_del (d : dict) (k : K) : dict :=
  filter (fun e => negb (eqb (fst e) k)) d.

Definition dict_keys (d : dict) : list K := map fst d.
End Dict.

Arguments dict_get {K V} eqb d k.
Arguments dict_set {K V} eqb d k v.
Arguments dict_del {K V} eqb d k.
Arguments dict_keys {K V} d.

(** ** Sets of candidates *)

Definition cset : Type := list candidate.

Definition set_mem (j : candidate) (s : cset) : bool :=
  existsb (candidate_eqb j) s.

(** [s.add(j)]. *)
Definition set_add (s : cset) (j : candidate) : cset :=
  if set_mem j s then s else s ++ [j].

(** [s.remove(j)], [None] standing for [KeyError]. *)
Definition set_remove (s : cset) (j : candidate) : option cset :=
  if set_mem j s
  then Some (filter (fun x => negb (candidate_eqb x j)) s)
  else None.

Definition cmem (c : constraint) (l : list constraint) : bool :=
  existsb (constraint_eqb c) l.

(** ** The store and the monad of operations *)

Definition dictX : Type := dict constraint cset.
Definition dictY : Type := dict candidate (list constraint).

Record store : Type := mkStore {
  sX : dictX;
  sY : dictY;
  sSolution : list candidate;
  sBoard : grid
}.

Definition setX (X : dictX) (st : store) : store :=
  mkStore X (sY st) (sSolution st) (sBoard st).

Definition setY (Y : dictY) (st : store) : store :=
  mkStore (sX st) Y (sSolution st) (sBoard st).

Definition setSolution (l : list candidate) (st : store) : store :=
  mkStore (sX st) (sY st) l (sBoard st).

(** [InvalidBoard] is [Exception('Invalid board.')]; [FuelExhausted] is not
    a Python exception but the model running out of fuel. *)
Inductive exn : Type :=
  KeyError | IndexError | UnboundLocalError | InvalidBoard | FuelExhausted.

Inductive result (A : Type) : Type :=
| Ok (a : A)
| Raise (e : exn).

Arguments Ok {A} a.
Arguments Raise {A} e.

Definition M (A : Type) : Type := store -> store * result A.

Definition ret {A} (a : A) : M A := fun st => (st, Ok a).

Definition raise {A} (e : exn) : M A := fun st => (st, Raise e).

Definition bind {A B} (m : M A) (f : A -> M B) : M B :=
  fun st =>
    match m st with
    | (st', Ok a) => f a st'
    | (st', Raise e) => (st', Raise e)
    end.

Declare Scope op_scope.
Delimit Scope op_scope with op.
Notation "x <- m ;; k" := (bind m (fun x => k))
  (at level 61, m at next level, right associativity) : op_scope.
Notation "m ;; k" := (bind m (fun _ => k))
  (at level 61, right associativity) : op_scope.
Open Scope op_scope.

(** [for a in l: f a]. *)
Fixpoint forM_ {A} (l : list A) (f : A -> M unit) : M unit :=
  match l with
  | [] => ret tt
  | a :: l' => f a ;; forM_ l' f
  end.

(** A loop that carries a local value from one iteration to the next. *)
Fixpoint foldM {A B} (f : B -> A -> M B) (l : list A) (b : B) : M B :=
  match l with
  | [] => ret b
  | a :: l' => b' <- f b a ;; foldM f l' b'
  end.

(** [try: m except KeyError: raise e']. *)
Definition except_KeyError {A} (m : M A) (e' : exn) : M A :=
  fun st =>
    match m st with
    | (st', Raise KeyError) => (st', Raise e')
    | r => r
    end.

(** *** Primitive statements *)

(** [X[k]] *)
Definition X_get (k : constraint) : M cset :=
  fun st =>
    match dict_get constraint_eqb (sX st) k with
    | Some s => (st, Ok s)
    | None => (st, Raise KeyError)
    end.

(** [X[k] = s] *)
Definition X_put (k : constraint) (s : cset) : M unit :=
  fun st => (setX (dict_set constraint_eqb (sX st) k s) st, Ok tt).

(** [X.pop(k)] *)
Definition X_pop (k : constraint) : M cset :=
  fun st =>
    match dict_get constraint_eqb (sX st) k with
    | Some s => (setX (dict_del constraint_eqb (sX st) k) st, Ok s)
    | None => (st, Raise KeyError)
    end.

(** [X[k].remove(j)]: the set object held under [k] is changed in place. *)
Definition X_remove (k : constraint) (j : candidate) : M unit :=
  s <- X_get k ;;
  match set_remove s j with
  | Some s' => X_put k s'
  | None => raise KeyError
  end.

(** [X[k].add(j)] *)
Definition X_add (k : constraint) (j : candidate) : M unit :=
  s <- X_get k ;;
  X_put k (set_add s j).

(** [Y[j]] *)
Definition Y_get (j : candidate) : M (list constraint) :=
  fun st =>
    match dict_get candidate_eqb (sY st) j with
    | Some l => (st, Ok l)
    | None => (st, Raise KeyError)
    end.

(** [Y[j] = l] *)
Definition Y_put (j : candidate) (l : list constraint) : M unit :=
  fun st => (setY (dict_set candidate_eqb (sY st) j l) st, Ok tt).

(** [solution.append(row)] *)
Definition solution_append (row : candidate) : M unit :=
  fun st => (setSolution (sSolution st ++ [row]) st, Ok tt).

(** [l.pop()]: the last element and the list without it. *)
Definition list_pop {A} (l : list A) : option (A * list A) :=
  match rev l with
  | [] => None
  | a :: r => Some (a, rev r)
  end.

(** [solution.pop()] *)
Definition solution_pop : M unit :=
  fun st =>
    match list_pop (sSolution st) with
    | Some (_, l) => (setSolution l st, Ok tt)
    | None => (st, Raise IndexError)
    end.

(** [board[row][col]] *)
Definition board_get (row col : nat) : M nat :=
  fun st =>
    match nth_error (sBoard st) row with
    | Some r =>
        match nth_error r col with
        | Some v => (st, Ok v)
        | None => (st, Raise IndexError)
        end
    | None => (st, Raise IndexError)
    end.

(** ** [select] and [deselect] *)

(** The body of the loop [for i in Y[row]] of [select]: every candidate of
    constraint [i] leaves the sets of its other constraints, then [i] is
    popped. *)
Definition cover (i : constraint) : M cset :=
  xi <- X_get i ;;
  forM_ xi (fun j =>
    yj <- Y_get j ;;
    forM_ yj (fun k =>
      if constraint_eqb k i then ret tt else X_remove k j)) ;;
  X_pop i.

Definition select (row : candidate) : M (list cset) :=
  yrow <- Y_get row ;;
  foldM (fun cols i => s <- cover i ;; ret (cols ++ [s])) yrow [].

(** The body of the loop [for i in Y[row][::-1]] of [deselect], given the
    set [s] that [cols.pop()] returned. *)
Definition uncover (i : constraint) (s : cset) : M unit :=
  X_put i s ;;
  xi <- X_get i ;;
  forM_ xi (fun j =>
    yj <- Y_get j ;;
    forM_ yj (fun k =>
      if constraint_eqb k i then ret tt else X_add k j)).

Definition deselect (row : candidate) (cols : list cset) : M unit :=
  yrow <- Y_get row ;;
  foldM (fun cols i =>
           match list_pop cols with
           | Some (s, cols') => uncover i s ;; ret cols'
           | None => raise IndexError
           end)
        (rev yrow) cols ;;
  ret tt.

(** ** [attempt] *)

(** The scan [for a in X: ...] of [attempt] over the remaining entries, with
    the current values of the locals [i] ([None] while unbound) and [L].
    The test [L == 1] follows the update in every iteration. *)
Fixpoint scan (entries : dictX) (i : option constraint) (L : nat)
  : option constraint :=
  match entries with
  | [] => i
  | (a, s) :: rest =>
      let i' := if length s <? L then Some a else i in
      let L' := if length s <? L then length s else L in
      if L' =? 1 then i' else scan rest i' L'
  end.

Definition choose (X : dictX) : option constraint := scan X None 10.

(** Generators: the snapshots of the store at the [yield]s, then the final
    store and result. *)
Definition G (A : Type) : Type := store -> list store * (store * result A).

Definition liftG {A} (m : M A) : G A := fun st => ([], m st).

Definition yield : G unit := fun st => ([st], (st, Ok tt)).

Definition bindG {A B} (m : G A) (f : A -> G B) : G B :=
  fun st =>
    match m st with
    | (ys, (st', Ok a)) =>
        let '(ys', r) := f a st' in (ys ++ ys', r)
    | (ys, (st', Raise e)) => (ys, (st', Raise e))
    end.

Declare Scope gen_scope.
Delimit Scope gen_scope with gen.
Notation "x <- m ;; k" := (bindG m (fun x => k))
  (at level 61, m at next level, right associativity) : gen_scope.
Notation "m ;; k" := (bindG m (fun _ => k))
  (at level 61, right associativity) : gen_scope.

Fixpoint forG {A} (l : list A) (f : A -> G unit) : G unit :=
  match l with
  | [] => liftG (ret tt)
  | a :: l' => (f a ;; forG l' f)%gen
  end.

(** [yield solution] hands out the list object itself; the snapshot records
    what it holds at that moment. *)
Fixpoint attempt (fuel : nat) : G unit :=
  match fuel with
  | 0 => liftG (raise FuelExhausted)
  | S fuel' => fun st =>
      match sX st with
      | [] => yield st
      | _ :: _ =>
          match choose (sX st) with
          | None => liftG (raise UnboundLocalError) st
          | Some i =>
              (rows <- liftG (X_get i) ;;
               forG rows (fun row =>
                 liftG (solution_append row) ;;
                 cols <- liftG (select row) ;;
                 attempt fuel' ;;
                 liftG (deselect row cols) ;;
                 liftG solution_pop))%gen st
          end
      end
  end.

(** ** [solve] and [check_board] *)

(** Lines 116-122. *)
Definition init_X (N : nat) : M unit :=
  forM_ (seq 0 N) (fun i =>
    forM_ (seq 0 N) (fun j =>
      X_put (rowcol, i, j) [] ;;
      X_put (rownum, i, j + 1) [] ;;
      X_put (colnum, i, j + 1) [] ;;
      X_put (blcnum, i, j + 1) [])).

Definition blc (B row col : nat) : nat := B * (row / B) + col / B.

Definition constraints_of (B : nat) (j : candidate) : list constraint :=
  let '(row, col, num) := j in
  [(rowcol, row, col); (rownum, row, num); (colnum, col, num);
   (blcnum, blc B row col, num)].

(** Lines 124-133.  [row // B] is only evaluated when [N > 0], where
    [B > 0]. *)
Definition init_Y (N B : nat) : M unit :=
  forM_ (seq 0 N) (fun row =>
    forM_ (seq 0 N) (fun col =>
      forM_ (seq 1 N) (fun num =>
        Y_put (row, col, num) (constraints_of B (row, col, num))))).

(** Lines 135-137. *)
Definition populate_X : M unit :=
  fun st =>
    forM_ (sY st) (fun e =>
      forM_ (snd e) (fun i => X_add i (fst e))) st.

(** Lines 140-144. *)
Definition seed (N : nat) : M unit :=
  forM_ (seq 0 N) (fun row =>
    forM_ (seq 0 N) (fun col =>
      num <- board_get row col ;;
      if num =? 0 then ret tt else (_ <- select (row, col, num) ;; ret tt))).

(** Lines 113-146: the indices are built and the clues seeded. *)
Definition prepare (N : nat) : M unit :=
  init_X N ;;
  init_Y N (Nat.sqrt N) ;;
  populate_X ;;
  except_KeyError (seed N) InvalidBoard.

(** [b[r][c] = n], [None] standing for [IndexError]. *)
Fixpoint list_set {A} (l : list A) (i : nat) (a : A) : option (list A) :=
  match l, i with
  | [], _ => None
  | _ :: l', 0 => Some (a :: l')
  | x :: l', S i' =>
      match list_set l' i' a with
      | Some r => Some (x :: r)
      | None => None
      end
  end.

Definition grid_set (b : grid) (r c n : nat) : option grid :=
  match nth_error b r with
  | Some rw =>
      match list_set rw c n with
      | Some rw' => list_set b r rw'
      | None => None
      end
  | None => None
  end.

(** Lines 149-151: [b = deepcopy(board)] and the writes of the solution. *)
Fixpoint fill (b : grid) (solution : list candidate) : option grid :=
  match solution with
  | [] => Some b
  | (r, c, n) :: rest =>
      match grid_set b r c n with
      | Some b' => fill b' rest
      | None => None
      end
  end.

(** The loop [for solution in attempt(X, Y, [])] over the snapshots [ys] of
    the generator, ended by [fin] when the generator ends. *)
Fixpoint consume (ys : list store) (fin : store * result unit)
  : list grid * (store * result unit) :=
  match ys with
  | [] => ([], fin)
  | y :: ys' =>
      match fill (sBoard y) (sSolution y) with
      | Some b => let '(gs, r) := consume ys' fin in (b :: gs, r)
      | None => ([], (y, Raise IndexError))
      end
  end.

Definition initial_store (board : grid) : store := mkStore [] [] [] board.

Definition solve (board : grid) : list grid * (store * result unit) :=
  let N := length board in
  match prepare N (initial_store board) with
  | (st, Raise e) => ([], (st, Raise e))
  | (st, Ok _) =>
      let '(ys, fin) := attempt (S (length (sX st))) (setSolution [] st) in
      consume ys fin
  end.

(** [check_board]: [true] when no exception is raised. *)
Definition check_board (board : grid) : bool :=
  let N := length board in
  (Nat.sqrt N * Nat.sqrt N =? N) &&
  forallb (fun row => (length row =? N) && forallb (fun x => x <=? N) row) board.

(** ** Specification vocabulary *)

(** [Y[x]] as a total function: the empty list where [x] is no key. *)
Definition Yf (Y : dictY) (x : candidate) : list constraint :=
  match dict_get candidate_eqb Y x with
  | Some l => l
  | None => []
  end.

(** The invariant of the two indices: keys and sets hold no duplicates, and
    a candidate found in the set of one constraint is a key of [Y], lists
    that constraint, and is found in the sets of all its constraints. *)
Definition index_wf (X : dictX) (Y : dictY) : Prop :=
  NoDup (dict_keys X) /\
  forall c s, dict_get constraint_eqb X c = Some s ->
    NoDup s /\
    forall j, In j s ->
      exists yj, dict_get candidate_eqb Y j = Some yj /\ NoDup yj /\
                 In c yj /\
                 forall k, In k yj ->
                   exists s', dict_get constraint_eqb X k = Some s' /\ In j s'.

(** Equality by content: the same keys, each mapped to a set with the same
    members. *)
Definition content_eq (X X' : dictX) : Prop :=
  forall k,
    match dict_get constraint_eqb X k, dict_get constraint_eqb X' k with
    | Some t, Some t' => forall y, In y t <-> In y t'
    | None, None => True
    | _, _ => False
    end.

(** [row] is live: it is a key of [Y] and a member of the set of each of
    its constraints. *)
Definition live (X : dictX) (Y : dictY) (row : candidate) : Prop :=
  exists yrow, dict_get candidate_eqb Y row = Some yrow /\ yrow <> [] /\
    forall c, In c yrow ->
      exists s, dict_get constraint_eqb X c = Some s /\ In row s.

(** The candidates of [s] that list constraint [k], in the order of [s]. *)
Definition touching (Y : dictY) (k : constraint) (s : cset) : cset :=
  filter (fun x => cmem k (Yf Y x)) s.

(** A set operation applied for each candidate of a list in turn. *)
Fixpoint fold_opt (f : cset -> candidate -> option cset) (l : cset) (t : cset)
  : option cset :=
  match l with
  | [] => Some t
  | x :: l' =>
      match f t x with
      | Some t' => fold_opt f l' t'
      | None => None
      end
  end.

(** The shape shared by [X[k].remove(j)] and [X[k].add(j)]. *)
Definition X_upd (f : cset -> candidate -> option cset)
    (k : constraint) (j : candidate) : M unit :=
  s <- X_get k ;;
  match f s j with
  | Some s' => X_put k s'
  | None => raise KeyError
  end.

(** The double loop shared by [select] and [deselect]. *)
Definition sweep (op : constraint -> candidate -> M unit)
    (i : constraint) (xi : cset) : M unit :=
  forM_ xi (fun j =>
    yj <- Y_get j ;;
    forM_ yj (fun k => if constraint_eqb k i then ret tt else op k j)).

(** Keys and sets hold no duplicates. *)
Definition nodups (X : dictX) : Prop :=
  NoDup (dict_keys X) /\
  forall c s, dict_get constraint_eqb X c = Some s -> NoDup s.

(** [X'] is [X] after constraint [i], whose set was [s], has been covered:
    [i] is gone and every other set has lost the members of [s]. *)
Definition covered (X : dictX) (i : constraint) (s : cset) (X' : dictX) : Prop :=
  dict_get constraint_eqb X' i = None /\
  forall k, k <> i ->
    match dict_get constraint_eqb X k, dict_get constraint_eqb X' k with
    | Some t, Some t' => forall y, In y t' <-> In y t /\ ~ In y s
    | None, None => True
    | _, _ => False
    end.

(** The bodies of the loops of [select] and [deselect] over [cols]. *)
Definition select_step (cols : list cset) (i : constraint) : M (list cset) :=
  s <- cover i ;; ret (cols ++ [s]).

Definition deselect_step (cols : list cset) (i : constraint) : M (list cset) :=
  match list_pop cols with
  | Some (s, cols') => uncover i s ;; ret cols'
  | None => raise IndexError
  end.

(** [X'] is [X] after the constraints [yr] have been covered: they are gone,
    the other keys stay, and each remaining set keeps exactly its members
    that list none of [yr]. *)
Definition selected (X : dictX) (Y : dictY) (yr : list constraint)
    (X' : dictX) : Prop :=
  (forall k, In k yr -> dict_get constraint_eqb X' k = None) /\
  forall k, ~ In k yr ->
    match dict_get constraint_eqb X k, dict_get constraint_eqb X' k with
    | Some t, Some t' =>
        forall y, In y t' <-> In y t /\ forall c, In c yr -> ~ In c (Yf Y y)
    | None, None => True
    | _, _ => False
    end.

(** The body of the loop [for row in list(X[i])] of [attempt], with the
    recursive call as a parameter. *)
Definition attempt_body (rec : G unit) (row : candidate) : G unit :=
  (liftG (solution_append row) ;;
   cols <- liftG (select row) ;;
   rec ;;
   liftG (deselect row cols) ;;
   liftG solution_pop)%gen.

(** What a generator leaves alone: [Y] and the board, at every [yield] and
    at the end; and the partial solution once it has run to exhaustion. *)
Definition gen_frame (g : G unit) : Prop :=
  forall st ys st' r, g st = (ys, (st', r)) ->
    sY st' = sY st /\ sBoard st' = sBoard st /\
    (forall y, In y ys -> sY y = sY st /\ sBoard y = sBoard st) /\
    (r = Ok tt -> sSolution st' = sSolution st).

(** Two candidates share no constraint. *)
Definition disjoint_rows (Y : dictY) (t t' : candidate) : Prop :=
  forall c, In c (Yf Y t) -> ~ In c (Yf Y t').

(** [T] is an exact cover of what is left in [X]: every remaining
    constraint is listed by a member of [T], the members are live and
    pairwise share no constraint. *)
Definition solution_of (X : dictX) (Y : dictY) (T : list candidate) : Prop :=
  (forall k, dict_get constraint_eqb X k <> None ->
     exists t, In t T /\ In k (Yf Y t)) /\
  (forall t, In t T -> live X Y t) /\
  ForallOrdPairs (disjoint_rows Y) T.

(** What [attempt] guarantees from a well-formed state: each snapshot holds
    the entry solution extended by an exact cover of the entry [X]; the run
    either ends normally with [X] restored by content, or stops at the
    unbound local of the scan, met in some well-formed state. *)
Definition attempt_post (st : store) (ys : list store) (st' : store)
    (r : result unit) : Prop :=
  (forall y, In y ys ->
     exists T, sSolution y = sSolution st ++ T /\
               solution_of (sX st) (sY st) T) /\
  ((r = Ok tt /\ content_eq (sX st) (sX st') /\ nodups (sX st')) \/
   (r = Raise UnboundLocalError /\
    exists X', index_wf X' (sY st) /\ X' <> [] /\ choose X' = None)).

Definition gen_sound (n : nat) (g : G unit) : Prop :=
  forall st ys st' r,
    index_wf (sX st) (sY st) -> length (sX st) < n ->
    g st = (ys, (st', r)) -> attempt_post st ys st' r.

(** The double loop with the test [k != i] as a parameter: [populate_X]
    runs it with no key left out. *)
Definition sweep_g (g : constraint -> bool)
    (op : constraint -> candidate -> M unit) (xi : cset) : M unit :=
  forM_ xi (fun j =>
    yj <- Y_get j ;;
    forM_ yj (fun k => if g k then ret tt else op k j)).

(** The keys [init_X] inserts for one pair [(i, j)], and all of them in
    insertion order. *)
Definition keys_at (i j : nat) : list constraint :=
  [(rowcol, i, j); (rownum, i, j + 1); (colnum, i, j + 1); (blcnum, i, j + 1)].

Definition all_keys (N : nat) : list constraint :=
  flat_map (fun i => flat_map (fun j => keys_at i j) (seq 0 N)) (seq 0 N).

(** The keys [init_Y] inserts, in insertion order. *)
Definition all_cands (N : nat) : list candidate :=
  flat_map (fun row =>
    flat_map (fun col => map (fun num => (row, col, num)) (seq 1 N)) (seq 0 N))
    (seq 0 N).

Definition built_Y (N B : nat) : dictY :=
  map (fun j => (j, constraints_of B j)) (all_cands N).

(** The candidates that list constraint [k]. *)
Definition members (N B : nat) (k : constraint) : cset :=
  filter (fun j => cmem k (constraints_of B j)) (all_cands N).

(** The three construction loops of [solve]. *)
Definition build (N B : nat) : M unit :=
  init_X N ;; init_Y N B ;; populate_X.

(** [board[r][c]] on a board of the right shape. *)
Definition cell (g : grid) (r c : nat) : nat := nth c (nth r g []) 0.

(** The clues in the order in which the loops of lines 140-144 meet them. *)
Definition clues (board : grid) (N : nat) : list candidate :=
  flat_map (fun row =>
    flat_map (fun col =>
      if cell board row col =? 0 then [] else [(row, col, cell board row col)])
      (seq 0 N))
    (seq 0 N).

(** The loop body of the seeding on one clue. *)
Definition seed_one (j : candidate) : M unit := _ <- select j ;; ret tt.

(** Two candidates list a common constraint. *)
Definition conflictb (B : nat) (a b : candidate) : bool :=
  existsb (fun k => cmem k (constraints_of B b)) (constraints_of B a).

(** No clue of [cl] conflicts with an earlier one or with one of [done]. *)
Fixpoint seedable (B : nat) (done cl : list candidate) : bool :=
  match cl with
  | [] => true
  | j :: cl' =>
      forallb (fun d => negb (conflictb B j d)) done && seedable B (j :: done) cl'
  end.

(** Two clues hold the same value in one row, one column or one block. *)
Definition clash (B : nat) (a b : candidate) : Prop :=
  let '(r1, c1, v1) := a in
  let '(r2, c2, v2) := b in
  v1 = v2 /\ (r1 = r2 \/ c1 = c2 \/ blc B r1 c1 = blc B r2 c2).

(** The state of [X] after the candidates [done] have been selected from the
    full index: it is well formed, it holds exactly the constraints that
    none of them lists, and each set holds exactly the members of its
    constraint that conflict with none of them. *)
Definition seed_inv (B : nat) (X : dictX) (done : list candidate) : Prop :=
  index_wf X (built_Y (B * B) B) /\
  (forall k, dict_get constraint_eqb X k <> None <->
             (In k (all_keys (B * B)) /\
              forall d, In d done -> ~ In k (constraints_of B d))) /\
  forall k s, dict_get constraint_eqb X k = Some s ->
    forall j, In j s <->
      In j (members (B * B) B k) /\
      forall d, In d done -> conflictb B j d = false.

(** *** Solved grids *)

(** How often [v] occurs in [l]. *)
Definition count (v : nat) (l : list nat) : nat := length (filter (Nat.eqb v) l).

(** Each value [1..N] occurs exactly once in [l]. *)
Definition each_once (N : nat) (l : list nat) : bool :=
  forallb (fun v => count v l =? 1) (seq 1 N).

Definition row_cells (N r : nat) : list (nat * nat) :=
  map (fun c => (r, c)) (seq 0 N).

Definition col_cells (N c : nat) : list (nat * nat) :=
  map (fun r => (r, c)) (seq 0 N).

Definition all_cells (N : nat) : list (nat * nat) :=
  flat_map (fun r => row_cells N r) (seq 0 N).

(** The cells whose block number, as [solve] computes it, is [b]. *)
Definition block_cells (N B b : nat) : list (nat * nat) :=
  filter (fun p => blc B (fst p) (snd p) =? b) (all_cells N).

Definition values (g : grid) (ps : list (nat * nat)) : list nat :=
  map (fun p => cell g (fst p) (snd p)) ps.

Definition shaped (N : nat) (g : grid) : bool :=
  (length g =? N) && forallb (fun row => length row =? N) g.

(** [g] is an [N] x [N] grid of values [1..N] in which every row, column
    and block holds each value exactly once. *)
Definition solved (N B : nat) (g : grid) : bool :=
  shaped N g &&
  forallb (fun row => forallb (fun x => (1 <=? x) && (x <=? N)) row) g &&
  forallb (fun i =>
             each_once N (values g (row_cells N i)) &&
             each_once N (values g (col_cells N i)) &&
             each_once N (values g (block_cells N B i)))
          (seq 0 N).

(** Every clue of [board] is found unchanged in [g]. *)
Definition keeps_clues (N : nat) (board g : grid) : bool :=
  forallb (fun r =>
    forallb (fun c => (cell board r c =? 0) || (cell g r c =? cell board r c))
            (seq 0 N))
    (seq 0 N).

(** The candidates [sel] cover every constraint of the board exactly once. *)
Definition exact_cover (B : nat) (sel : list candidate) : Prop :=
  (forall k, In k (all_keys (B * B)) ->
     exists s, In s sel /\ In k (constraints_of B s)) /\
  (forall s s' k, In s sel -> In s' sel ->
     In k (constraints_of B s) -> In k (constraints_of B s') -> s = s') /\
  (forall s, In s sel -> In s (all_cands (B * B))).

(** *** Executable checks *)

Fixpoint nodupb {A} (eqb : A -> A -> bool) (l : list A) : bool :=
  match l with
  | [] => true
  | a :: l' => negb (existsb (eqb a) l') && nodupb eqb l'
  end.

(** [index_wf], decided entry by entry. *)
Definition index_wfb (X : dictX) (Y : dictY) : bool :=
  nodupb constraint_eqb (dict_keys X) &&
  forallb (fun e =>
    nodupb candidate_eqb (snd e) &&
    forallb (fun j =>
      match dict_get candidate_eqb Y j with
      | Some yj =>
          nodupb constraint_eqb yj && cmem (fst e) yj &&
          forallb (fun k =>
            match dict_get constraint_eqb X k with
            | Some s' => set_mem j s'
            | None => false
            end) yj
      | None => false
      end) (snd e)) X.

(** [live], decided. *)
Definition liveb (X : dictX) (Y : dictY) (row : candidate) : bool :=
  match dict_get candidate_eqb Y row with
  | Some yrow =>
      negb (match yrow with [] => true | _ :: _ => false end) &&
      forallb (fun c =>
        match dict_get constraint_eqb X c with
        | Some s => set_mem row s
        | None => false
        end) yrow
  | None => false
  end.

(** The scan of [attempt] binds a constraint of minimum cardinality. *)
Definition picks_minimum (X : dictX) : Prop :=
  exists i s,
    choose X = Some i /\ dict_get constraint_eqb X i = Some s /\
    forall k t, dict_get constraint_eqb X k = Some t -> length s <= length t.

(** The operation [m] leaves the component [proj] of the store as it was. *)
Definition keeps {A T} (proj : store -> T) (m : M A) : Prop :=
  forall st, proj (fst (m st)) = proj st.

(** The board of side [N] without clues, and a solved grid of side
    [B * B]. *)
Definition empty_board (N : nat) : grid := repeat (repeat 0 N) N.

Definition shifted_grid (B : nat) : grid :=
  map (fun r =>
         map (fun c => (B * (r mod B) + r / B + c) mod (B * B) + 1) (seq 0 (B * B)))
      (seq 0 (B * B)).

(** The operation [m] changes no component of the store but [X]. *)
Definition X_only {A} (m : M A) : Prop :=
  forall st, exists X', fst (m st) = setX X' st.

(** The members of each constraint listed without repetition. *)
Definition members_list (N B : nat) (k : constraint) : cset :=
  match k with
  | (rowcol, a, b) => map (fun num => (a, b, num)) (seq 1 N)
  | (rownum, a, v) => map (fun col => (a, col, v)) (seq 0 N)
  | (colnum, c, v) => map (fun row => (row, c, v)) (seq 0 N)
  | (blcnum, b, v) =>
      map (fun t => (B * (b / B) + t / B, B * (b mod B) + t mod B, v)) (seq 0 N)
  end.

(** *** Completeness of the search *)

(** Two lists hold the same members. *)
Definition same_set (T T' : list candidate) : Prop :=
  forall x, In x T <-> In x T'.

(** What the snapshot [y] holds beyond the solution of the store [st]. *)
Definition added (st y : store) : list candidate :=
  skipn (length (sSolution st)) (sSolution y).

(** No two snapshots add the same set of candidates. *)
Definition distinct_yields (st : store) (ys : list store) : Prop :=
  ForallOrdPairs (fun y y' => ~ same_set (added st y) (added st y')) ys.

(** Every exact cover of the entry [X] is what some snapshot adds, and no
    two snapshots add the same one. *)
Definition attempt_finds (st : store) (ys : list store) : Prop :=
  (forall T', solution_of (sX st) (sY st) T' ->
     exists y, In y ys /\ same_set (added st y) T') /\
  distinct_yields st ys.

Definition gen_complete (n : nat) (g : G unit) : Prop :=
  forall st ys st',
    index_wf (sX st) (sY st) -> length (sX st) < n ->
    g st = (ys, (st', Ok tt)) -> attempt_finds st ys.

(** The candidates that a grid [g] puts into the cells that [board] leaves
    empty. *)
Definition free_cands (board g : grid) (N : nat) : list candidate :=
  flat_map (fun r =>
    flat_map (fun c =>
      if cell board r c =? 0 then [(r, c, cell g r c)] else [])
      (seq 0 N))
    (seq 0 N).

(** *** The order of the keys, and the cells of a solution *)

(** An operation that, when it ends normally, leaves the keys of [X] and
    their order as they were. *)
Definition keys_kept {A} (m : M A) : Prop :=
  forall st st' a, m st = (st', Ok a) -> dict_keys (sX st') = dict_keys (sX st).

(** The cell that the write [b[r][c] = n] of a candidate goes to. *)
Definition cell_of (j : candidate) : nat * nat := (fst (fst j), snd (fst j)).

(** ** Reading, checking and writing boards

    [make_board] reads the lines of the input file, [check_board] raises
    on a board of the wrong shape, [write_solutions] writes the board and
    the solutions that [solve] yields.  The board that [make_board] returns
    holds Python integers of any sign, so here it is a list of lists of
    [Z]; once [check_board] has accepted it the entries lie in [0..N] and
    the board is the [grid] that [solve] takes.

    - A Python [str] is a [string]; the input is taken to be ASCII.
    - [f.readlines()] is a parameter of the model: [make_board] takes the
      list of lines, each with its final newline where the file has one.
    - [int(x)] is a parameter, [py_int], which is [None] where [int] raises
      [ValueError].
    - An output file is the list of the strings passed to [f.write], in
      order, and whether [f.close()] has been called; [print] adds to a
      list of lines.  [os.path.realpath(f.name)] is a parameter. *)

(** The exceptions that [make_board] and [check_board] raise, with the
    arguments of their [format] calls; [LineIndexError] is the [IndexError]
    of [row[0]] on an empty string. *)
Inductive input_error : Type :=
| LineIndexError
| NonInteger (x : string)
| BoardSizeError
| RowSizeError (i len N : nat)
| ElementError (N : nat) (v : Z) (i j : nat).

Definition boardZ : Type := list (list Z).

(** The newline and the double quote. *)
Definition nl : string := String "010"%char EmptyString.

Definition dquote : string := String "034"%char EmptyString.

(** [str(x)] for an integer [x]. *)
Definition str (x : Z) : string := NilZero.string_of_int (Z.to_int x).

(** *** [make_board] *)

(** ['  ' in row] *)
Fixpoint has_double_space (s : string) : bool :=
  match s with
  | EmptyString => false
  | String c t =>
      match t with
      | EmptyString => false
      | String c' _ =>
          if Ascii.eqb c " "%char && Ascii.eqb c' " "%char then true
          else has_double_space t
      end
  end.

(** [row.replace('  ', ' ')]: the occurrences are taken from the left and
    do not overlap. *)
Fixpoint replace_double (s : string) : string :=
  match s with
  | EmptyString => EmptyString
  | String c t =>
      match t with
      | EmptyString => String c EmptyString
      | String c' t' =>
          if Ascii.eqb c " "%char && Ascii.eqb c' " "%char
          then String " "%char (replace_double t')
          else String c (replace_double t)
      end
  end.

(** [while '  ' in row: row = row.replace('  ', ' ')], with the number of
    iterations bounded by [fuel]. *)
Fixpoint collapse_loop (fuel : nat) (row : string) : string :=
  match fuel with
  | 0 => row
  | S fuel' =>
      if has_double_space row then collapse_loop fuel' (replace_double row)
      else row
  end.

Definition collapse (row : string) : string :=
  collapse_loop (String.length row) row.

(** [re.split(', |,| ', row)]: at a comma the first alternative takes a
    following space with it. *)
Fixpoint re_split (s : string) : list string :=
  match s with
  | EmptyString => [EmptyString]
  | String c t =>
      if Ascii.eqb c ","%char then
        match t with
        | String c' t' =>
            if Ascii.eqb c' " "%char then EmptyString :: re_split t'
            else EmptyString :: re_split t
        | EmptyString => EmptyString :: re_split t
        end
      else if Ascii.eqb c " "%char then EmptyString :: re_split t
      else
        match re_split t with
        | x :: xs => String c x :: xs
        | [] => [String c EmptyString]
        end
  end.

Section MakeBoard.
Variable py_int : string -> option Z.

(** The loop [for x in row] of lines 55-59; [acc] is [board[-1]]. *)
Fixpoint parse_tokens (xs : list string) (acc : list Z)
  : list Z + input_error :=
  match xs with
  | [] => inl acc
  | x :: xs' =>
      match py_int x with
      | Some n => parse_tokens xs' (acc ++ [n])
      | None => inr (NonInteger x)
      end
  end.

(** The loop [for row in s] of lines 50-59. *)
Fixpoint make_board_loop (rows : list string) (board : boardZ)
  : boardZ + input_error :=
  match rows with
  | [] => inl board
  | row :: rest =>
      match row with
      | EmptyString => inr LineIndexError
      | String c _ =>
          if Ascii.eqb c "#"%char then make_board_loop rest board
          else
            match parse_tokens (re_split (collapse row)) [] with
            | inl r => make_board_loop rest (board ++ [r])
            | inr e => inr e
            end
      end
  end.

Definition make_board (lines : list string) : boardZ + input_error :=
  make_board_loop lines [].
End MakeBoard.

(** *** [check_board], with its exceptions *)

(** The loop [for j in range(len(board[i]))] over what is left of the row,
    [j] being the index reached; [None] when nothing is raised. *)
Fixpoint check_elements (N i : nat) (row : list Z) (j : nat)
  : option input_error :=
  match row with
  | [] => None
  | v :: rest =>
      if ((0 <=? v) && (v <=? Z.of_nat N))%Z
      then check_elements N i rest (S j)
      else Some (ElementError N v (i + 1) (j + 1))
  end.

(** The loop [for i in range(N)] over what is left of the board. *)
Fixpoint check_rows (N : nat) (rows : boardZ) (i : nat) : option input_error :=
  match rows with
  | [] => None
  | row :: rest =>
      if negb (length row =? N) then Some (RowSizeError (i + 1) (length row) N)
      else
        match check_elements N i row 0 with
        | Some e => Some e
        | None => check_rows N rest (S i)
        end
  end.

(** [check_board(board)] on what [make_board] returns: the exception
    raised, [None] when it returns. *)
Definition check_boardZ (board : boardZ) : option input_error :=
  let N := length board in
  if negb (Nat.sqrt N * Nat.sqrt N =? N) then Some BoardSizeError
  else check_rows N board 0.

Definition grid_of (board : boardZ) : grid := map (map Z.to_nat) board.

Definition boardZ_of (g : grid) : boardZ := map (map Z.of_nat) g.

(** *** [write_solutions] *)

Record output : Type := mkOutput {
  written : list string;
  closed : bool;
  printed : list string
}.

(** [','.join(str(x) for x in row)] *)
Definition row_text (row : list nat) : string :=
  String.concat ","%string (map (fun x => str (Z.of_nat x)) row).

(** ['\n' + ','.join(str(x) for x in row)] *)
Definition row_line (row : list nat) : string := (nl ++ row_text row)%string.

(** ['-' * n] *)
Fixpoint hyphens (n : nat) : string :=
  match n with
  | 0 => EmptyString
  | S n' => String "-"%char (hyphens n')
  end.

(** Line 83. *)
Definition dashes (board : grid) : string :=
  (nl ++ hyphens (String.length (row_text (seq 1 (length board)))))%string.

(** ['s' if i > 1 else ''] *)
Definition plural (i : Z) : string :=
  if (1 <? i)%Z then "s"%string else EmptyString.

(** The loop of lines 86-94 over the grids that the generator still
    yields: [n] is the count of [enumerate] and [i] the local [i].  It
    returns the strings written, the last value of [i], and whether the
    loop was left by [break]. *)
Fixpoint write_loop (dsh : string) (display : Z) (gs : list grid) (n : Z)
    (i : option Z) : list string * (option Z * bool) :=
  match gs with
  | [] => ([], (i, false))
  | b :: gs' =>
      if (n =? display + 1)%Z then ([], (Some (n - 1)%Z, true))
      else
        let '(w, fin) := write_loop dsh display gs' (n + 1)%Z (Some n) in
        (dsh :: (nl ++ "Solution " ++ str n ++ ":")%string
             :: map row_line b ++ w, fin)
  end.

(** [not i] *)
Definition falsy (i : option Z) : bool :=
  match i with
  | None => true
  | Some z => (z =? 0)%Z
  end.

(** The line printed by line 102. *)
Definition more_hint : string :=
  ("To see more solutions, use " ++ dquote ++ "-n [int]" ++ dquote
   ++ " argument (0 for all solutions).")%string.

(** [write_solutions(filename, board, display)].  The generator is run no
    further than the loop asks: after a [break] the way it would have
    ended is not looked at. *)
Definition write_solutions (realpath : string) (board : grid) (display : Z)
  : output * result unit :=
  let pr0 := ("Printing solutions to file: " ++ realpath)%string in
  let w0 := "Initial board:"%string :: map row_line board in
  let dsh := dashes board in
  let display1 := if (display =? 0)%Z then (-1)%Z else display in
  let '(gs, (_, r)) := solve board in
  let '(w1, (i, broke)) := write_loop dsh display1 gs 1%Z None in
  let display2 := if broke then (-2)%Z else display1 in
  match broke, r with
  | false, Raise e => (mkOutput (w0 ++ w1) false [pr0], Raise e)
  | _, _ =>
      if falsy i then
        (mkOutput (w0 ++ w1 ++ [(dsh ++ nl ++ "No solutions found.")%string])
                  true [pr0],
         Raise InvalidBoard)
      else
        let z := match i with Some z => z | None => 0%Z end in
        let pr :=
          if (display2 =? -2)%Z then
            [if (1 <? z)%Z
             then ("Done! Printed first " ++ str z ++ " solutions.")%string
             else "Done! Printed first solution."%string;
             more_hint]
          else
            [("Done! " ++ str z ++ " solution" ++ plural z ++ " found.")%string]
        in
        (mkOutput
           (w0 ++ w1
            ++ [(nl ++ nl ++ str z ++ " solution" ++ plural z ++ " found.")%string])
           true (pr0 :: pr),
         Ok tt)
  end.

(** *** Vocabulary for the statements below *)

(** Every run of spaces cut down to one space. *)
Fixpoint squeeze (s : string) : string :=
  match s with
  | EmptyString => EmptyString
  | String c t =>
      match t with
      | EmptyString => String c EmptyString
      | String c' _ =>
          if Ascii.eqb c " "%char && Ascii.eqb c' " "%char then squeeze t
          else String c (squeeze t)
      end
  end.

(** Every character of [s] passes the test [p]. *)
Fixpoint all_chars (p : ascii -> bool) (s : string) : bool :=
  match s with
  | EmptyString => true
  | String c t => p c && all_chars p t
  end.

(** A character that [re.split] does not cut at. *)
Definition word_char (c : ascii) : bool :=
  negb (Ascii.eqb c ","%char) && negb (Ascii.eqb c " "%char).

(** A character of [str(x)]. *)
Definition numeric (c : ascii) : bool :=
  existsb (Ascii.eqb c)
    ["0"; "1"; "2"; "3"; "4"; "5"; "6"; "7"; "8"; "9"; "-"]%char.

(** The tokens [ts] with [e] appended to the last one. *)
Fixpoint with_suffix (ts : list string) (e : string) : list string :=
  match ts with
  | [] => []
  | t :: ts' =>
      match ts' with
      | [] => [(t ++ e)%string]
      | _ :: _ => t :: with_suffix ts' e
      end
  end.

(** A line of an input file: the entries of [row] joined by [sep], with a
    final newline when [eol] is set. *)
Definition input_line (sep : string) (row : list Z) (eol : bool) : string :=
  (String.concat sep (map str row) ++ if eol then nl else EmptyString)%string.

(** The line is a comment: [row[0] == '#']. *)
Definition is_comment (row : string) : bool :=
  match row with
  | String c _ => Ascii.eqb c "#"%char
  | EmptyString => false
  end.

(** An instance of [int] for the examples below: decimal numerals with an
    optional sign, a final newline allowed.  Python's [int] agrees with it
    on these strings and accepts others. *)
Definition chomp (s : string) : string :=
  match rev (list_ascii_of_string s) with
  | c :: r => if Ascii.eqb c "010"%char then string_of_list_ascii (rev r) else s
  | [] => s
  end.

Definition decimal_int (s : string) : option Z :=
  option_map Z.of_int (NilZero.int_of_string (chomp s)).

(** The entry [v] lies in [0..N], and the row has [N] entries that do. *)
Definition in_range (N : nat) (v : Z) : Prop := (0 <= v <= Z.of_nat N)%Z.

Definition row_ok (N : nat) (row : list Z) : Prop :=
  length row = N /\ forall v, In v row -> in_range N v.

(** What the loop of [write_solutions] writes for the grids [gs], counted
    from [n]. *)
Fixpoint solution_blocks (dsh : string) (n : Z) (gs : list grid) : list string :=
  match gs with
  | [] => []
  | b :: gs' =>
      dsh :: (nl ++ "Solution " ++ str n ++ ":")%string
          :: map row_line b ++ solution_blocks dsh (n + 1)%Z gs'
  end.

(** How many of [k] grids the loop writes when it counts them from [n], and
    whether it is left by [break]. *)
Definition loop_count (display n : Z) (k : nat) : nat :=
  if (n <=? display + 1)%Z then Nat.min (Z.to_nat (display + 1 - n)) k else k.

Definition loop_breaks (display n : Z) (k : nat) : bool :=
  (n <=? display + 1)%Z && (Z.to_nat (display + 1 - n) <? k).

(** How many solutions [write_solutions] writes when [k] are yielded. *)
Definition shown (display : Z) (k : nat) : nat :=
  if (1 <=? display)%Z then Nat.min (Z.to_nat display) k else k.

(** * Lemmas *)

(** ** Equality tests *)

Lemma kind_eqb_eq (a b : kind) : kind_eqb a b = true <-> a = b.
Proof. destruct a, b; simpl; split; intro H; try reflexivity; discriminate. Qed.

Lemma constraint_eqb_eq (a b : constraint) :
  constraint_eqb a b = true <-> a = b.
Proof.
  destruct a as [[ka ia] ja], b as [[kb ib] jb]. unfold constraint_eqb.
  rewrite !andb_true_iff, kind_eqb_eq, !Nat.eqb_eq.
  split; [intros [[-> ->] ->]; reflexivity | intros H; inversion H; auto].
Qed.

Lemma candidate_eqb_eq (a b : candidate) :
  candidate_eqb a b = true <-> a = b.
Proof.
  destruct a as [[ra ca] na], b as [[rb cb] nb]. unfold candidate_eqb.
  rewrite !andb_true_iff, !Nat.eqb_eq.
  split; [intros [[-> ->] ->]; reflexivity | intros H; inversion H; auto].
Qed.

Lemma constraint_eqb_refl (a : constraint) : constraint_eqb a a = true.
Proof. apply constraint_eqb_eq; reflexivity. Qed.

Lemma candidate_eqb_refl (a : candidate) : candidate_eqb a a = true.
Proof. apply candidate_eqb_eq; reflexivity. Qed.

Lemma constraint_eqb_neq (a b : constraint) :
  constraint_eqb a b = false <-> a <> b.
Proof.
  rewrite <- constraint_eqb_eq. destruct (constraint_eqb a b); split; congruence.
Qed.

Lemma candidate_eqb_neq (a b : candidate) :
  candidate_eqb a b = false <-> a <> b.
Proof.
  rewrite <- candidate_eqb_eq. destruct (candidate_eqb a b); split; congruence.
Qed.

Lemma constraint_eq_dec (a b : constraint) : {a = b} + {a <> b}.
Proof.
  destruct (constraint_eqb a b) eqn:E;
    [left; apply constraint_eqb_eq | right; apply constraint_eqb_neq]; exact E.
Qed.

Lemma candidate_eq_dec (a b : candidate) : {a = b} + {a <> b}.
Proof.
  destruct (candidate_eqb a b) eqn:E;
    [left; apply candidate_eqb_eq | right; apply candidate_eqb_neq]; exact E.
Qed.

Lemma cmem_In (c : constraint) (l : list constraint) :
  cmem c l = true <-> In c l.
Proof.
  unfold cmem. rewrite existsb_exists. split.
  - intros [x [Hx E]]. apply constraint_eqb_eq in E. subst. exact Hx.
  - intros H. exists c. split; [exact H | apply constraint_eqb_refl].
Qed.

Lemma set_mem_In (j : candidate) (s : cset) : set_mem j s = true <-> In j s.
Proof.
  unfold set_mem. rewrite existsb_exists. split.
  - intros [x [Hx E]]. apply candidate_eqb_eq in E. subst. exact Hx.
  - intros H. exists j. split; [exact H | apply candidate_eqb_refl].
Qed.

Lemma set_mem_false (j : candidate) (s : cset) :
  set_mem j s = false <-> ~ In j s.
Proof.
  rewrite <- set_mem_In. destruct (set_mem j s); split; congruence.
Qed.

(** ** Dictionaries *)

Section DictFacts.
Variables K V : Type.
Variable eqb : K -> K -> bool.
Hypothesis eqb_eq : forall a b, eqb a b = true <-> a = b.

Lemma eqb_same (a : K) : eqb a a = true.
Proof. apply eqb_eq; reflexivity. Qed.

Lemma eqb_diff (a b : K) : a <> b -> eqb a b = false.
Proof.
  intro H. destruct (eqb a b) eqn:E; [apply eqb_eq in E; contradiction | reflexivity].
Qed.

Lemma dict_get_set_eq (d : dict K V) k v : dict_get eqb (dict_set eqb d k v) k = Some v.
Proof.
  induction d as [|[k' v'] d IH]; simpl.
  - rewrite eqb_same; reflexivity.
  - destruct (eqb k' k) eqn:E; simpl; rewrite E; [reflexivity | exact IH].
Qed.

Lemma dict_get_set_ne (d : dict K V) k k' v :
  k <> k' -> dict_get eqb (dict_set eqb d k v) k' = dict_get eqb d k'.
Proof.
  intro Hne. induction d as [|[k0 v0] d IH]; simpl.
  - rewrite (eqb_diff _ _ Hne); reflexivity.
  - destruct (eqb k0 k) eqn:E; simpl.
    + apply eqb_eq in E. subst k0. rewrite (eqb_diff _ _ Hne). reflexivity.
    + destruct (eqb k0 k'); [reflexivity | exact IH].
Qed.

Lemma dict_get_del_eq (d : dict K V) k : dict_get eqb (dict_del eqb d k) k = None.
Proof.
  induction d as [|[k0 v0] d IH]; simpl; [reflexivity|].
  destruct (eqb k0 k) eqn:E; simpl; [exact IH | rewrite E; exact IH].
Qed.

Lemma dict_get_del_ne (d : dict K V) k k' :
  k <> k' -> dict_get eqb (dict_del eqb d k) k' = dict_get eqb d k'.
Proof.
  intro Hne. induction d as [|[k0 v0] d IH]; simpl; [reflexivity|].
  destruct (eqb k0 k) eqn:E; simpl.
  - apply eqb_eq in E. subst k0. rewrite (eqb_diff _ _ Hne). exact IH.
  - destruct (eqb k0 k'); [reflexivity | exact IH].
Qed.

Lemma dict_get_keys (d : dict K V) k :
  In k (dict_keys d) <-> dict_get eqb d k <> None.
Proof.
  induction d as [|[k0 v0] d IH]; simpl.
  - split; [intros [] | intro H; apply H; reflexivity].
  - destruct (eqb k0 k) eqn:E.
    + apply eqb_eq in E. split; [intros _; discriminate | intros _; left; exact E].
    + rewrite <- IH. split; [intros [H|H]; [|exact H] | intro H; right; exact H].
      subst k0. rewrite eqb_same in E. discriminate.
Qed.

Lemma dict_get_In (d : dict K V) k v : dict_get eqb d k = Some v -> In (k, v) d.
Proof.
  induction d as [|[k0 v0] d IH]; simpl; [discriminate|].
  destruct (eqb k0 k) eqn:E.
  - apply eqb_eq in E. intros [= ->]. left. subst. reflexivity.
  - intro H. right. exact (IH H).
Qed.

Lemma In_dict_get (d : dict K V) k v :
  NoDup (dict_keys d) -> In (k, v) d -> dict_get eqb d k = Some v.
Proof.
  induction d as [|[k0 v0] d IH]; simpl; [intros _ []|].
  intros Hnd [H|H].
  - inversion H; subst. rewrite eqb_same. reflexivity.
  - inversion Hnd as [|? ? Hn Hnd']; subst.
    destruct (eqb k0 k) eqn:E.
    + apply eqb_eq in E. subst k0. exfalso. apply Hn.
      apply in_map_iff. exists (k, v). split; [reflexivity | exact H].
    + exact (IH Hnd' H).
Qed.

Lemma dict_keys_set_old (d : dict K V) k v :
  dict_get eqb d k <> None -> dict_keys (dict_set eqb d k v) = dict_keys d.
Proof.
  induction d as [|[k0 v0] d IH]; simpl; [intro H; exfalso; apply H; reflexivity|].
  destruct (eqb k0 k) eqn:E; simpl; [reflexivity|].
  intro H. rewrite (IH H). reflexivity.
Qed.

Lemma dict_set_new (d : dict K V) k v :
  dict_get eqb d k = None -> dict_set eqb d k v = d ++ [(k, v)].
Proof.
  induction d as [|[k0 v0] d IH]; simpl; [reflexivity|].
  destruct (eqb k0 k) eqn:E; [discriminate|].
  intro H. rewrite (IH H). reflexivity.
Qed.

Lemma dict_keys_del (d : dict K V) k :
  dict_keys (dict_del eqb d k) = filter (fun x => negb (eqb x k)) (dict_keys d).
Proof.
  induction d as [|[k0 v0] d IH]; simpl; [reflexivity|].
  destruct (eqb k0 k); simpl; rewrite IH; reflexivity.
Qed.

Lemma dict_del_length (d : dict K V) k :
  dict_get eqb d k <> None -> length (dict_del eqb d k) < length d.
Proof.
  induction d as [|[k0 v0] d IH]; simpl; [intro H; exfalso; apply H; reflexivity|].
  destruct (eqb k0 k) eqn:E; simpl.
  - intros _. unfold dict_del. pose proof (filter_length_le (fun e => negb (eqb (fst e) k)) d). lia.
  - intro H. specialize (IH H). lia.
Qed.

Lemma dict_keys_NoDup_set (d : dict K V) k v :
  NoDup (dict_keys d) -> NoDup (dict_keys (dict_set eqb d k v)).
Proof.
  intro Hnd. destruct (dict_get eqb d k) eqn:E.
  - rewrite dict_keys_set_old; [exact Hnd | congruence].
  - rewrite (dict_set_new _ _ _ E). unfold dict_keys. rewrite map_app. simpl.
    apply NoDup_app; [exact Hnd | constructor; [intros [] | constructor] |].
    intros x Hx [Hk|[]]. subst x. apply dict_get_keys in Hx. congruence.
Qed.

Lemma dict_keys_NoDup_del (d : dict K V) k :
  NoDup (dict_keys d) -> NoDup (dict_keys (dict_del eqb d k)).
Proof. intro H. rewrite dict_keys_del. apply NoDup_filter. exact H. Qed.
End DictFacts.

Arguments dict_get_set_eq {K V eqb} eqb_eq d k v.
Arguments dict_get_set_ne {K V eqb} eqb_eq d k k' v _.
Arguments dict_get_del_eq {K V eqb} d k.
Arguments dict_get_del_ne {K V eqb} eqb_eq d k k' _.
Arguments dict_get_keys {K V eqb} eqb_eq d k.
Arguments dict_get_In {K V eqb} eqb_eq d k v _.
Arguments In_dict_get {K V eqb} eqb_eq d k v _ _.
Arguments dict_keys_set_old {K V eqb} d k v _.
Arguments dict_set_new {K V eqb} d k v _.
Arguments dict_keys_del {K V eqb} d k.
Arguments dict_del_length {K V eqb} d k _.
Arguments dict_keys_NoDup_set {K V eqb} eqb_eq d k v _.
Arguments dict_keys_NoDup_del {K V eqb} d k _.

(** ** Sets *)

Lemma In_set_add (s : cset) (j x : candidate) :
  In x (set_add s j) <-> In x s \/ x = j.
Proof.
  unfold set_add. destruct (set_mem j s) eqn:E.
  - apply set_mem_In in E. split; [auto | intros [H | ->]; assumption].
  - rewrite in_app_iff. simpl. split; intros [H | H]; auto.
    + destruct H as [H | []]; auto.
Qed.

Lemma NoDup_set_add (s : cset) (j : candidate) :
  NoDup s -> NoDup (set_add s j).
Proof.
  intro H. unfold set_add. destruct (set_mem j s) eqn:E; [exact H|].
  apply set_mem_false in E.
  apply NoDup_app; [exact H | constructor; [intros [] | constructor] |].
  intros x Hx [Hj | []]. subst. contradiction.
Qed.

Lemma In_drop (s : cset) (j x : candidate) :
  In x (filter (fun y => negb (candidate_eqb y j)) s) <-> In x s /\ x <> j.
Proof.
  rewrite filter_In, negb_true_iff, candidate_eqb_neq. reflexivity.
Qed.

Lemma fold_opt_remove (l : cset) :
  forall t, NoDup l -> incl l t ->
    exists t', fold_opt set_remove l t = Some t' /\
               (forall y, In y t' <-> In y t /\ ~ In y l) /\
               (NoDup t -> NoDup t').
Proof.
  induction l as [|x l IH]; intros t Hnd Hin; simpl.
  - exists t. split; [reflexivity|]. split; [|auto]. intro y; tauto.
  - inversion Hnd as [|? ? Hx Hl]; subst.
    unfold set_remove. assert (Hxt : In x t) by (apply Hin; left; reflexivity).
    rewrite (proj2 (set_mem_In x t) Hxt).
    destruct (IH (filter (fun y => negb (candidate_eqb y x)) t) Hl) as [t' [E [Hm Hn]]].
    + intros y Hy. apply In_drop. split; [apply Hin; right; exact Hy|].
      intros ->. contradiction.
    + exists t'. split; [exact E|]. split.
      * intro y. rewrite Hm, In_drop. split.
        -- intros [[H1 H2] H3]. split; [exact H1|]. intros [H|H]; [subst; auto | auto].
        -- intros [H1 H2]. split; [split; [exact H1|] |]; intro H; apply H2; [left; auto | right; exact H].
      * intro Ht. apply Hn. apply NoDup_filter. exact Ht.
Qed.

Lemma fold_opt_add (l : cset) :
  forall t,
    exists t', fold_opt (fun s j => Some (set_add s j)) l t = Some t' /\
               (forall y, In y t' <-> In y t \/ In y l) /\
               (NoDup t -> NoDup t').
Proof.
  induction l as [|x l IH]; intros t; simpl.
  - exists t. split; [reflexivity|]. split; [|auto]. intro y; tauto.
  - destruct (IH (set_add t x)) as [t' [E [Hm Hn]]].
    exists t'. split; [exact E|]. split.
    + intro y. rewrite Hm, In_set_add. split; intros H; intuition (subst; auto).
    + intro Ht. apply Hn, NoDup_set_add, Ht.
Qed.

Lemma touching_cons (Y : dictY) (k : constraint) (x : candidate) (s : cset) :
  touching Y k (x :: s) =
  if cmem k (Yf Y x) then x :: touching Y k s else touching Y k s.
Proof. reflexivity. Qed.

Lemma In_touching (Y : dictY) (k : constraint) (s : cset) (x : candidate) :
  In x (touching Y k s) <-> In x s /\ In k (Yf Y x).
Proof. unfold touching. rewrite filter_In, cmem_In. reflexivity. Qed.

(** ** Operations that change nothing but [X] *)

Lemma setX_same (st : store) : setX (sX st) st = st.
Proof. destruct st; reflexivity. Qed.

Lemma setX_setX (X X' : dictX) (st : store) : setX X (setX X' st) = setX X st.
Proof. reflexivity. Qed.

Lemma X_only_ret {A} (a : A) : X_only (ret a).
Proof. intro st. exists (sX st). symmetry. apply setX_same. Qed.

Lemma X_only_raise {A} (e : exn) : X_only (@raise A e).
Proof. intro st. exists (sX st). symmetry. apply setX_same. Qed.

Lemma X_only_bind {A B} (m : M A) (f : A -> M B) :
  X_only m -> (forall a, X_only (f a)) -> X_only (bind m f).
Proof.
  intros Hm Hf st. unfold bind. destruct (Hm st) as [X1 H1].
  destruct (m st) as [st1 [a|e]]; simpl in H1; subst st1.
  - destruct (Hf a (setX X1 st)) as [X2 H2]. exists X2. exact H2.
  - exists X1. reflexivity.
Qed.

Lemma X_only_forM_ {A} (l : list A) (f : A -> M unit) :
  (forall a, X_only (f a)) -> X_only (forM_ l f).
Proof.
  intro Hf. induction l as [|a l IH]; simpl.
  - apply X_only_ret.
  - apply X_only_bind; [apply Hf | intros _; exact IH].
Qed.

Lemma X_only_foldM {A B} (f : B -> A -> M B) (l : list A) :
  (forall b a, X_only (f b a)) -> forall b, X_only (foldM f l b).
Proof.
  intro Hf. induction l as [|a l IH]; intro b; simpl.
  - apply X_only_ret.
  - apply X_only_bind; [apply Hf | intros b'; apply IH].
Qed.

Lemma X_only_X_get (k : constraint) : X_only (X_get k).
Proof.
  intro st. unfold X_get. exists (sX st).
  destruct (dict_get constraint_eqb (sX st) k); simpl; symmetry; apply setX_same.
Qed.

Lemma X_only_X_put (k : constraint) (s : cset) : X_only (X_put k s).
Proof. intro st. eexists. reflexivity. Qed.

Lemma X_only_X_pop (k : constraint) : X_only (X_pop k).
Proof.
  intro st. unfold X_pop.
  destruct (dict_get constraint_eqb (sX st) k); simpl.
  - eexists. reflexivity.
  - exists (sX st). symmetry; apply setX_same.
Qed.

Lemma X_only_Y_get (j : candidate) : X_only (Y_get j).
Proof.
  intro st. unfold Y_get. exists (sX st).
  destruct (dict_get candidate_eqb (sY st) j); simpl; symmetry; apply setX_same.
Qed.

Lemma X_only_X_upd f k j : X_only (X_upd f k j).
Proof.
  unfold X_upd. apply X_only_bind; [apply X_only_X_get|].
  intro s. destruct (f s j); [apply X_only_X_put | apply X_only_raise].
Qed.

Lemma X_only_sweep op i xi :
  (forall k j, X_only (op k j)) -> X_only (sweep op i xi).
Proof.
  intro Hop. unfold sweep. apply X_only_forM_. intro j.
  apply X_only_bind; [apply X_only_Y_get|]. intro yj.
  apply X_only_forM_. intro k.
  destruct (constraint_eqb k i); [apply X_only_ret | apply Hop].
Qed.

Lemma X_only_cover (i : constraint) : X_only (cover i).
Proof.
  unfold cover. apply X_only_bind; [apply X_only_X_get|]. intro xi.
  apply X_only_bind; [|intros _; apply X_only_X_pop].
  apply (X_only_sweep X_remove i xi). intros k j. apply (X_only_X_upd set_remove).
Qed.

Lemma X_only_uncover (i : constraint) (s : cset) : X_only (uncover i s).
Proof.
  unfold uncover. apply X_only_bind; [apply X_only_X_put|]. intros _.
  apply X_only_bind; [apply X_only_X_get|]. intro xi.
  apply (X_only_sweep X_add i xi). intros k j.
  apply (X_only_X_upd (fun s j => Some (set_add s j))).
Qed.

Lemma X_only_select (row : candidate) : X_only (select row).
Proof.
  unfold select. apply X_only_bind; [apply X_only_Y_get|]. intro yrow.
  apply X_only_foldM. intros cols i.
  apply X_only_bind; [apply X_only_cover | intro s; apply X_only_ret].
Qed.

Lemma X_only_deselect (row : candidate) (cols : list cset) :
  X_only (deselect row cols).
Proof.
  unfold deselect. apply X_only_bind; [apply X_only_Y_get|]. intro yrow.
  apply X_only_bind; [|intros _; apply X_only_ret].
  apply X_only_foldM. intros c i.
  destruct (list_pop c) as [[s c']|]; [|apply X_only_raise].
  apply X_only_bind; [apply X_only_uncover | intros _; apply X_only_ret].
Qed.

(** ** The double loop of [select] and [deselect] *)

Lemma X_upd_run f k j st t t' :
  dict_get constraint_eqb (sX st) k = Some t -> f t j = Some t' ->
  X_upd f k j st = (setX (dict_set constraint_eqb (sX st) k t') st, Ok tt).
Proof.
  intros Hg Hf. unfold X_upd, bind, X_get. rewrite Hg, Hf. reflexivity.
Qed.

Lemma inner_run f (g : constraint -> bool) j :
  forall ks st,
    NoDup ks ->
    (forall k, In k ks -> g k = false ->
       exists t t', dict_get constraint_eqb (sX st) k = Some t /\ f t j = Some t') ->
    exists X',
      forM_ ks (fun k => if g k then ret tt else X_upd f k j) st
        = (setX X' st, Ok tt) /\
      dict_keys X' = dict_keys (sX st) /\
      forall k, dict_get constraint_eqb X' k =
        if cmem k ks && negb (g k)
        then match dict_get constraint_eqb (sX st) k with
             | Some t => f t j
             | None => None
             end
        else dict_get constraint_eqb (sX st) k.
Proof.
  induction ks as [|a ks IH]; intros st Hnd Hpre.
  - exists (sX st). simpl. unfold ret. rewrite setX_same. auto.
  - inversion Hnd as [|? ? Ha Hks]; subst. simpl forM_. unfold bind at 1.
    destruct (g a) eqn:Ega.
    + unfold ret at 1.
      destruct (IH st Hks) as [X' [Hrun [Hkeys Hget]]].
      { intros k Hk. apply Hpre. right; exact Hk. }
      exists X'. split; [exact Hrun|]. split; [exact Hkeys|].
      intro k. rewrite Hget. simpl.
      destruct (constraint_eqb k a) eqn:Eka; simpl; [|reflexivity].
      apply constraint_eqb_eq in Eka. subst k. rewrite Ega. simpl.
      rewrite andb_false_r. reflexivity.
    + destruct (Hpre a (or_introl eq_refl) Ega) as [t [t' [Hg Hf]]].
      rewrite (X_upd_run f a j st _ _ Hg Hf).
      destruct (IH (setX (dict_set constraint_eqb (sX st) a t') st) Hks)
        as [X' [Hrun [Hkeys Hget]]].
      { intros k Hk Hki. simpl. rewrite (dict_get_set_ne constraint_eqb_eq).
        - apply Hpre; [right; exact Hk | exact Hki].
        - intros ->. contradiction. }
      exists X'. split; [exact Hrun|]. simpl in Hkeys, Hget. split.
      * rewrite Hkeys. apply dict_keys_set_old. congruence.
      * intro k. rewrite Hget. simpl.
        destruct (constraint_eqb k a) eqn:Eka.
        -- apply constraint_eqb_eq in Eka. subst k.
           assert (Hc : cmem a ks = false).
           { destruct (cmem a ks) eqn:E; [apply cmem_In in E; contradiction | reflexivity]. }
           rewrite Hc, Ega. simpl.
           rewrite (dict_get_set_eq constraint_eqb_eq), Hg, Hf. reflexivity.
        -- apply constraint_eqb_neq in Eka. simpl.
           rewrite (dict_get_set_ne constraint_eqb_eq) by congruence. reflexivity.
Qed.

Lemma sweep_g_run f (g : constraint -> bool) :
  forall s st,
    (forall x, In x s ->
       exists yx, dict_get candidate_eqb (sY st) x = Some yx /\ NoDup yx) ->
    (forall k, g k = false ->
       match dict_get constraint_eqb (sX st) k with
       | Some t => fold_opt f (touching (sY st) k s) t <> None
       | None => touching (sY st) k s = []
       end) ->
    exists X',
      sweep_g g (X_upd f) s st = (setX X' st, Ok tt) /\
      dict_keys X' = dict_keys (sX st) /\
      (forall k, g k = true ->
         dict_get constraint_eqb X' k = dict_get constraint_eqb (sX st) k) /\
      forall k, g k = false ->
        dict_get constraint_eqb X' k =
        match dict_get constraint_eqb (sX st) k with
        | Some t => fold_opt f (touching (sY st) k s) t
        | None => None
        end.
Proof.
  induction s as [|x s IH]; intros st HY Hpre.
  - exists (sX st). unfold sweep_g. simpl. unfold ret. rewrite setX_same.
    repeat split; auto. intros k _.
    destruct (dict_get constraint_eqb (sX st) k); reflexivity.
  - destruct (HY x (or_introl eq_refl)) as [yx [Hyx Hnd]].
    assert (HYf : Yf (sY st) x = yx) by (unfold Yf; rewrite Hyx; reflexivity).
    unfold sweep_g. simpl forM_. unfold bind at 1. unfold bind at 1.
    unfold Y_get at 1. rewrite Hyx.
    destruct (inner_run f g x yx st Hnd) as [X1 [Hrun1 [Hkeys1 Hget1]]].
    { intros k Hk Hki. specialize (Hpre k Hki). rewrite touching_cons, HYf in Hpre.
      rewrite (proj2 (cmem_In k yx) Hk) in Hpre.
      destruct (dict_get constraint_eqb (sX st) k) as [t|]; [|discriminate].
      simpl in Hpre. destruct (f t x) as [t'|] eqn:Ef; [|congruence].
      exists t, t'. auto. }
    rewrite Hrun1.
    destruct (IH (setX X1 st)) as [X' [Hrun [Hkeys [Hi Hget]]]].
    { intros y Hy. simpl. apply HY. right; exact Hy. }
    { intros k Hki. simpl. rewrite Hget1.
      rewrite Hki, andb_true_r.
      specialize (Hpre k Hki). rewrite touching_cons, HYf in Hpre.
      destruct (cmem k yx).
      - destruct (dict_get constraint_eqb (sX st) k) as [t|]; [|discriminate].
        simpl in Hpre. destruct (f t x) as [t'|]; [exact Hpre | congruence].
      - exact Hpre. }
    fold (sweep_g g (X_upd f) s). rewrite Hrun. simpl in *.
    exists X'. split; [reflexivity|]. split; [congruence|]. split.
    + intros k Hk. rewrite (Hi k Hk), Hget1, Hk, andb_false_r. reflexivity.
    + intros k Hki. rewrite (Hget k Hki), Hget1.
      rewrite Hki, andb_true_r.
      try rewrite touching_cons. rewrite HYf.
      destruct (cmem k yx); [|reflexivity].
      destruct (dict_get constraint_eqb (sX st) k) as [t|]; [|reflexivity].
      simpl. destruct (f t x); reflexivity.
Qed.

Lemma sweep_run f i :
  forall s st,
    (forall x, In x s ->
       exists yx, dict_get candidate_eqb (sY st) x = Some yx /\ NoDup yx) ->
    (forall k, k <> i ->
       match dict_get constraint_eqb (sX st) k with
       | Some t => fold_opt f (touching (sY st) k s) t <> None
       | None => touching (sY st) k s = []
       end) ->
    exists X',
      sweep (X_upd f) i s st = (setX X' st, Ok tt) /\
      dict_keys X' = dict_keys (sX st) /\
      dict_get constraint_eqb X' i = dict_get constraint_eqb (sX st) i /\
      forall k, k <> i ->
        dict_get constraint_eqb X' k =
        match dict_get constraint_eqb (sX st) k with
        | Some t => fold_opt f (touching (sY st) k s) t
        | None => None
        end.
Proof.
  intros s st HY Hpre.
  destruct (sweep_g_run f (fun k => constraint_eqb k i) s st HY)
    as [X' [Hrun [Hkeys [Hsame Hget]]]].
  { intros k Hk. apply Hpre. apply constraint_eqb_neq. exact Hk. }
  exists X'. split; [exact Hrun|]. split; [exact Hkeys|]. split.
  - apply Hsame. apply constraint_eqb_refl.
  - intros k Hk. apply Hget. apply constraint_eqb_neq. exact Hk.
Qed.

(** ** Covering and uncovering one constraint *)

Lemma content_eq_refl (X : dictX) : content_eq X X.
Proof.
  intro k. destruct (dict_get constraint_eqb X k); [intro y; tauto | exact I].
Qed.

Lemma content_eq_sym {X X' : dictX} : content_eq X X' -> content_eq X' X.
Proof.
  intros H k. specialize (H k).
  destruct (dict_get constraint_eqb X k), (dict_get constraint_eqb X' k);
    try exact H. intro y. symmetry. apply H.
Qed.

Lemma content_eq_trans {X1 X2 X3 : dictX} :
  content_eq X1 X2 -> content_eq X2 X3 -> content_eq X1 X3.
Proof.
  intros H12 H23 k. specialize (H12 k). specialize (H23 k).
  destruct (dict_get constraint_eqb X1 k), (dict_get constraint_eqb X2 k),
    (dict_get constraint_eqb X3 k); try tauto.
  intro y. rewrite H12. apply H23.
Qed.

Lemma index_wf_nodups {X : dictX} {Y : dictY} : index_wf X Y -> nodups X.
Proof.
  intros [Hk Hs]. split; [exact Hk|]. intros c s H. exact (proj1 (Hs c s H)).
Qed.

Lemma index_wf_content {X X' : dictX} {Y : dictY} :
  index_wf X Y -> content_eq X X' -> nodups X' -> index_wf X' Y.
Proof.
  intros [_ Hwf] Hc [Hk Hs]. split; [exact Hk|].
  intros c s' Hg. split; [exact (Hs c s' Hg)|].
  intros j Hj. pose proof (Hc c) as Hcc. rewrite Hg in Hcc.
  destruct (dict_get constraint_eqb X c) as [s|] eqn:Ec; [|contradiction].
  destruct (Hwf c s Ec) as [_ Hmem].
  destruct (Hmem j (proj2 (Hcc j) Hj)) as [yj [HY [Hnd [Hin Hall]]]].
  exists yj. repeat split; try assumption.
  intros k Hkin. destruct (Hall k Hkin) as [sk [Hgk Hjk]].
  pose proof (Hc k) as Hck. rewrite Hgk in Hck.
  destruct (dict_get constraint_eqb X' k) as [sk'|]; [|contradiction].
  exists sk'. split; [reflexivity | apply Hck; exact Hjk].
Qed.

Lemma covered_content {X X1 X1' : dictX} {i s} :
  covered X i s X1 -> content_eq X1 X1' -> covered X i s X1'.
Proof.
  intros [Hi Hk] Hc. split.
  - pose proof (Hc i) as H. rewrite Hi in H.
    destruct (dict_get constraint_eqb X1' i); [contradiction | reflexivity].
  - intros k Hki. specialize (Hk k Hki). specialize (Hc k).
    destruct (dict_get constraint_eqb X k), (dict_get constraint_eqb X1 k),
      (dict_get constraint_eqb X1' k); try tauto.
    intro y. rewrite <- Hk. symmetry. apply Hc.
Qed.

Lemma covered_wf {X X' : dictX} {Y : dictY} {i s} :
  index_wf X Y -> dict_get constraint_eqb X i = Some s ->
  covered X i s X' -> nodups X' -> index_wf X' Y.
Proof.
  intros [_ Hwf] Hi [Hci Hck] [Hk Hs]. split; [exact Hk|].
  intros c t' Hg. split; [exact (Hs c t' Hg)|].
  assert (Hc : c <> i) by (intros ->; congruence).
  intros y Hy. pose proof (Hck c Hc) as Hcc. rewrite Hg in Hcc.
  destruct (dict_get constraint_eqb X c) as [t|] eqn:Ec; [|contradiction].
  apply Hcc in Hy. destruct Hy as [Hyt Hys].
  destruct (Hwf c t Ec) as [_ Hmem].
  destruct (Hmem y Hyt) as [yj [HY [Hnd [Hin Hall]]]].
  exists yj. repeat split; try assumption.
  intros k Hkin. destruct (Hall k Hkin) as [sk [Hgk Hjk]].
  assert (Hki : k <> i) by (intros ->; rewrite Hi in Hgk; injection Hgk as <-; contradiction).
  pose proof (Hck k Hki) as Hkk. rewrite Hgk in Hkk.
  destruct (dict_get constraint_eqb X' k) as [sk'|]; [|contradiction].
  exists sk'. split; [reflexivity | apply Hkk; split; assumption].
Qed.

Lemma wf_touching {X : dictX} {Y : dictY} {i s k x} :
  index_wf X Y -> dict_get constraint_eqb X i = Some s ->
  In x (touching Y k s) ->
  exists t, dict_get constraint_eqb X k = Some t /\ In x t.
Proof.
  intros [_ Hwf] Hi Hx. apply In_touching in Hx. destruct Hx as [Hxs Hk].
  destruct (Hwf i s Hi) as [_ Hmem].
  destruct (Hmem x Hxs) as [yj [HY [_ [_ Hall]]]].
  unfold Yf in Hk. rewrite HY in Hk. exact (Hall k Hk).
Qed.

Lemma wf_member_lists {X : dictX} {Y : dictY} {k t y} :
  index_wf X Y -> dict_get constraint_eqb X k = Some t -> In y t ->
  In k (Yf Y y).
Proof.
  intros [_ Hwf] Hk Hy. destruct (Hwf k t Hk) as [_ Hmem].
  destruct (Hmem y Hy) as [yj [HY [_ [Hin _]]]].
  unfold Yf. rewrite HY. exact Hin.
Qed.

Lemma wf_closure {X : dictX} {Y : dictY} {k t c s y} :
  index_wf X Y -> dict_get constraint_eqb X k = Some t -> In y t ->
  In c (Yf Y y) -> dict_get constraint_eqb X c = Some s -> In y s.
Proof.
  intros [_ Hwf] Hk Hy Hc Hs. destruct (Hwf k t Hk) as [_ Hmem].
  destruct (Hmem y Hy) as [yj [HY [_ [_ Hall]]]].
  unfold Yf in Hc. rewrite HY in Hc.
  destruct (Hall c Hc) as [s' [Hs' Hin]]. congruence.
Qed.

Lemma wf_Y_get {X : dictX} {Y : dictY} {i s} :
  index_wf X Y -> dict_get constraint_eqb X i = Some s ->
  forall x, In x s ->
    exists yx, dict_get candidate_eqb Y x = Some yx /\ NoDup yx.
Proof.
  intros [_ Hwf] Hi x Hx. destruct (Hwf i s Hi) as [_ Hmem].
  destruct (Hmem x Hx) as [yj [HY [Hnd _]]]. exists yj. auto.
Qed.

Lemma empty_by_members {A} (l : list A) : (forall x, ~ In x l) -> l = [].
Proof.
  destruct l as [|a l]; [reflexivity|]. intro H. exfalso. apply (H a). left; reflexivity.
Qed.

Lemma cover_run i st {s} :
  index_wf (sX st) (sY st) ->
  dict_get constraint_eqb (sX st) i = Some s ->
  exists X',
    cover i st = (setX X' st, Ok s) /\
    covered (sX st) i s X' /\
    nodups X' /\
    dict_keys X' = filter (fun x => negb (constraint_eqb x i)) (dict_keys (sX st)).
Proof.
  intros Hwf Hi. pose proof (index_wf_nodups Hwf) as [HndK HndS].
  unfold cover. unfold bind at 1. unfold X_get at 1. rewrite Hi.
  change (forM_ s _) with (sweep (X_upd set_remove) i s).
  assert (Hfold : forall k t, dict_get constraint_eqb (sX st) k = Some t ->
            exists t', fold_opt set_remove (touching (sY st) k s) t = Some t' /\
              (forall y, In y t' <-> In y t /\ ~ In y s) /\ NoDup t').
  { intros k t Hk.
    destruct (fold_opt_remove (touching (sY st) k s) t) as [t' [E [Hm Hn]]].
    - apply NoDup_filter. exact (HndS i s Hi).
    - intros x Hx. destruct (wf_touching Hwf Hi Hx) as [t0 [H0 Hx0]]. congruence.
    - exists t'. split; [exact E|]. split; [|exact (Hn (HndS k t Hk))].
      intro y. rewrite Hm, In_touching. split.
      + intros [Ht Hn']. split; [exact Ht|]. intro Hs. apply Hn'.
        split; [exact Hs | exact (wf_member_lists Hwf Hk Ht)].
      + intros [Ht Hs]. split; [exact Ht | tauto]. }
  destruct (sweep_run set_remove i s st) as [X1 [Hrun [Hkeys [Hgi Hget]]]].
  { exact (wf_Y_get Hwf Hi). }
  { intros k _. destruct (dict_get constraint_eqb (sX st) k) as [t|] eqn:Ek.
    - destruct (Hfold k t Ek) as [t' [E _]]. congruence.
    - apply empty_by_members. intros x Hx.
      destruct (wf_touching Hwf Hi Hx) as [t0 [H0 _]]. congruence. }
  unfold bind. rewrite Hrun. unfold X_pop. simpl. rewrite Hgi, Hi.
  exists (dict_del constraint_eqb X1 i). split; [reflexivity|]. split; [|split].
  - split; [apply dict_get_del_eq|]. intros k Hki.
    rewrite (dict_get_del_ne constraint_eqb_eq) by congruence.
    rewrite (Hget k Hki).
    destruct (dict_get constraint_eqb (sX st) k) as [t|] eqn:Ek; [|exact I].
    destruct (Hfold k t Ek) as [t' [E [Hm _]]]. rewrite E. exact Hm.
  - split.
    + apply dict_keys_NoDup_del. rewrite Hkeys. exact HndK.
    + intros c t' Hc.
      destruct (constraint_eq_dec i c) as [->|Hne];
        [rewrite dict_get_del_eq in Hc; discriminate|].
      rewrite (dict_get_del_ne constraint_eqb_eq) in Hc by exact Hne.
      rewrite (Hget c) in Hc by congruence.
      destruct (dict_get constraint_eqb (sX st) c) as [t|] eqn:Ek; [|discriminate].
      destruct (Hfold c t Ek) as [t0 [E [_ Hn]]]. congruence.
  - rewrite dict_keys_del, Hkeys. reflexivity.
Qed.

Lemma uncover_run i s st {X} :
  index_wf X (sY st) ->
  dict_get constraint_eqb X i = Some s ->
  covered X i s (sX st) -> nodups (sX st) ->
  exists X',
    uncover i s st = (setX X' st, Ok tt) /\ content_eq X X' /\ nodups X'.
Proof.
  intros Hwf Hi [Hci Hck] [HndK HndS].
  pose proof (index_wf_nodups Hwf) as [_ HndSX].
  unfold uncover. unfold bind at 1. unfold X_put at 1.
  unfold bind at 1. unfold X_get at 1. simpl sX.
  rewrite (dict_get_set_eq constraint_eqb_eq).
  change (forM_ s _) with (sweep (X_upd (fun s j => Some (set_add s j))) i s).
  set (Xb := dict_set constraint_eqb (sX st) i s).
  destruct (sweep_run (fun s j => Some (set_add s j)) i s (setX Xb st))
    as [X' [Hrun [Hkeys [Hgi Hget]]]].
  { simpl. exact (wf_Y_get Hwf Hi). }
  { intros k Hki. simpl. unfold Xb.
    rewrite (dict_get_set_ne constraint_eqb_eq) by congruence.
    destruct (dict_get constraint_eqb (sX st) k) as [t|] eqn:Ek.
    - destruct (fold_opt_add (touching (sY st) k s) t) as [t' [E _]]. congruence.
    - apply empty_by_members. intros x Hx.
      destruct (wf_touching Hwf Hi Hx) as [t0 [H0 _]].
      specialize (Hck k Hki). rewrite H0, Ek in Hck. exact Hck. }
  rewrite Hrun. simpl in *. exists X'. split; [reflexivity|]. split.
  - intro k. destruct (constraint_eq_dec k i) as [->|Hki].
    + rewrite Hi, Hgi. unfold Xb. rewrite (dict_get_set_eq constraint_eqb_eq).
      intro y; tauto.
    + rewrite (Hget k Hki). unfold Xb.
      rewrite (dict_get_set_ne constraint_eqb_eq) by congruence.
      specialize (Hck k Hki).
      destruct (dict_get constraint_eqb X k) as [t|] eqn:Ek,
               (dict_get constraint_eqb (sX st) k) as [t1|] eqn:Ek1; try tauto.
      destruct (fold_opt_add (touching (sY st) k s) t1) as [t' [E [Hm _]]].
      rewrite E. intro y. rewrite Hm, Hck, In_touching. split.
      * intro Hy. destruct (in_dec candidate_eq_dec y s) as [Hs|Hs].
        -- right. split; [exact Hs | exact (wf_member_lists Hwf Ek Hy)].
        -- left. split; assumption.
      * intros [[Hy _]|[Hs Hk]]; [exact Hy|].
        assert (Hx : In y (touching (sY st) k s)) by (apply In_touching; split; assumption).
        destruct (wf_touching Hwf Hi Hx) as [t0 [H0 Hy0]]. congruence.
  - split.
    + rewrite Hkeys. unfold Xb. apply (dict_keys_NoDup_set constraint_eqb_eq). exact HndK.
    + intros c t' Hc. destruct (constraint_eq_dec c i) as [->|Hne].
      * rewrite Hgi in Hc. unfold Xb in Hc.
        rewrite (dict_get_set_eq constraint_eqb_eq) in Hc.
        injection Hc as <-. exact (HndSX i s Hi).
      * rewrite (Hget c Hne) in Hc. unfold Xb in Hc.
        rewrite (dict_get_set_ne constraint_eqb_eq) in Hc by congruence.
        destruct (dict_get constraint_eqb (sX st) c) as [t1|] eqn:Ek1; [|discriminate].
        destruct (fold_opt_add (touching (sY st) c s) t1) as [t0 [E [_ Hn]]].
        rewrite E in Hc. injection Hc as <-. exact (Hn (HndS c t1 Ek1)).
Qed.

(** ** [select], and [deselect] after it *)

Lemma list_pop_app {A} (l : list A) (a : A) : list_pop (l ++ [a]) = Some (a, l).
Proof.
  unfold list_pop. rewrite rev_app_distr. simpl. rewrite rev_involutive. reflexivity.
Qed.

Lemma foldM_app {A B} (f : B -> A -> M B) (l1 l2 : list A) :
  forall b st,
    foldM f (l1 ++ l2) b st = bind (foldM f l1 b) (fun b' => foldM f l2 b') st.
Proof.
  induction l1 as [|a l1 IH]; intros b st; simpl.
  - reflexivity.
  - unfold bind. destruct (f b a st) as [st1 [b1|e]]; [|reflexivity].
    rewrite IH. unfold bind. reflexivity.
Qed.

Lemma filter_length_lt {A} (p : A -> bool) (l : list A) (a : A) :
  In a l -> p a = false -> length (filter p l) < length l.
Proof.
  induction l as [|x l IH]; simpl; [intros []|].
  intros [-> | H] Hp.
  - rewrite Hp. pose proof (filter_length_le p l). lia.
  - specialize (IH H Hp). destruct (p x); simpl; lia.
Qed.

Lemma dict_length_keys {K V} (d : dict K V) : length (dict_keys d) = length d.
Proof. unfold dict_keys. apply length_map. Qed.

Lemma select_loop_run :
  forall yr st cols0,
    index_wf (sX st) (sY st) -> NoDup yr ->
    (forall c, In c yr -> dict_get constraint_eqb (sX st) c <> None) ->
    exists X1 cols,
      foldM select_step yr cols0 st = (setX X1 st, Ok (cols0 ++ cols)) /\
      index_wf X1 (sY st) /\
      selected (sX st) (sY st) yr X1 /\
      length X1 <= length (sX st) /\
      (yr <> [] -> length X1 < length (sX st)) /\
      forall st1 cols0',
        sY st1 = sY st -> content_eq X1 (sX st1) -> nodups (sX st1) ->
        exists X2,
          foldM deselect_step (rev yr) (cols0' ++ cols) st1
            = (setX X2 st1, Ok cols0') /\
          content_eq (sX st) X2 /\ nodups X2.
Proof.
  induction yr as [|c yr IH]; intros st cols0 Hwf Hnd Hpres.
  - exists (sX st), []. simpl. unfold ret. rewrite setX_same, app_nil_r.
    split; [reflexivity|]. split; [exact Hwf|]. split; [|split; [lia|split; [congruence|]]].
    + split; [intros k []|]. intros k _.
      destruct (dict_get constraint_eqb (sX st) k); [|exact I].
      intro y. split; [intro H; split; [exact H | intros c0 []] | tauto].
    + intros st1 cols0' _ Hc Hn. exists (sX st1).
      rewrite setX_same, app_nil_r. auto.
  - inversion Hnd as [|? ? Hc Hyr]; subst.
    destruct (dict_get constraint_eqb (sX st) c) as [s|] eqn:Ec;
      [|exfalso; apply (Hpres c); [left; reflexivity | exact Ec]].
    destruct (cover_run c st Hwf Ec) as [Xc [Hrun [Hcov [Hndc Hkeys]]]].
    pose proof (covered_wf Hwf Ec Hcov Hndc) as Hwfc.
    destruct (IH (setX Xc st) (cols0 ++ [s])) as [X1 [cols [Hrun1 [Hwf1 [Hsel [Hle [_ Hback]]]]]]];
      [exact Hwfc | exact Hyr | |].
    { intros c' Hc'. simpl. destruct Hcov as [_ Hk].
      assert (Hne : c' <> c) by (intros ->; contradiction).
      specialize (Hk c' Hne). pose proof (Hpres c' (or_intror Hc')) as Hp.
      destruct (dict_get constraint_eqb (sX st) c'); [|congruence].
      destruct (dict_get constraint_eqb Xc c'); [discriminate | contradiction]. }
    simpl in Hrun1, Hwf1, Hsel, Hle, Hback.
    assert (Hlen : length Xc < length (sX st)).
    { rewrite <- !dict_length_keys, Hkeys.
      apply filter_length_lt with (a := c).
      - apply (dict_get_keys constraint_eqb_eq). congruence.
      - rewrite constraint_eqb_refl. reflexivity. }
    exists X1, (s :: cols). split; [|split; [exact Hwf1|split; [|split; [lia|split; [intros _; lia|]]]]].
    + simpl foldM. unfold bind at 1. unfold select_step at 1. unfold bind at 1.
      rewrite Hrun. unfold ret at 1. rewrite Hrun1.
      rewrite <- app_assoc. reflexivity.
    + destruct Hcov as [Hci Hck]. destruct Hsel as [Hs1 Hs2]. split.
      * intros k [<-|Hk]; [|exact (Hs1 k Hk)].
        specialize (Hs2 c Hc). rewrite Hci in Hs2.
        destruct (dict_get constraint_eqb X1 c); [contradiction | reflexivity].
      * intros k Hk.
        assert (Hkc : k <> c) by (intros ->; apply Hk; left; reflexivity).
        assert (Hky : ~ In k yr) by (intro; apply Hk; right; assumption).
        specialize (Hck k Hkc). specialize (Hs2 k Hky).
        destruct (dict_get constraint_eqb (sX st) k) as [t|] eqn:Ek,
                 (dict_get constraint_eqb Xc k),
                 (dict_get constraint_eqb X1 k); try tauto.
        intro y. rewrite Hs2, Hck. split.
        -- intros [[Ht Hns] Hrest]. split; [exact Ht|].
           intros c' [<-|Hc'] Hin; [|exact (Hrest c' Hc' Hin)].
           apply Hns. exact (wf_closure Hwf Ek Ht Hin Ec).
        -- intros [Ht Hall]. split; [split; [exact Ht|] |].
           ++ intro Hs. apply (Hall c (or_introl eq_refl)).
              exact (wf_member_lists Hwf Ec Hs).
           ++ intros c' Hc'. apply Hall. right; exact Hc'.
    + intros st1 cols0' HY Hc1 Hn1.
      destruct (Hback st1 (cols0' ++ [s]) HY Hc1 Hn1) as [X2' [Hrun2 [Hc2 Hn2]]].
      simpl rev. rewrite foldM_app. unfold bind at 1.
      replace (cols0' ++ s :: cols) with ((cols0' ++ [s]) ++ cols)
        by (rewrite <- app_assoc; reflexivity).
      rewrite Hrun2.
      destruct (uncover_run c s (setX X2' st1) (X := sX st)) as [X2 [Hrun3 [Hc3 Hn3]]].
      * simpl. rewrite HY. exact Hwf.
      * exact Ec.
      * simpl. exact (covered_content Hcov Hc2).
      * exact Hn2.
      * exists X2. simpl foldM. unfold bind at 1. unfold deselect_step at 1.
        rewrite list_pop_app. unfold bind at 1. rewrite Hrun3.
        unfold ret. simpl. auto.
Qed.

Lemma select_run row st {yr} :
  index_wf (sX st) (sY st) ->
  dict_get candidate_eqb (sY st) row = Some yr -> NoDup yr ->
  (forall c, In c yr -> dict_get constraint_eqb (sX st) c <> None) ->
  exists X1 cols,
    select row st = (setX X1 st, Ok cols) /\
    index_wf X1 (sY st) /\
    selected (sX st) (sY st) yr X1 /\
    length X1 <= length (sX st) /\
    (yr <> [] -> length X1 < length (sX st)) /\
    forall st1,
      sY st1 = sY st -> content_eq X1 (sX st1) -> nodups (sX st1) ->
      exists X2,
        deselect row cols st1 = (setX X2 st1, Ok tt) /\
        content_eq (sX st) X2 /\ nodups X2.
Proof.
  intros Hwf HY Hnd Hpres.
  destruct (select_loop_run yr st [] Hwf Hnd Hpres)
    as [X1 [cols [Hrun [Hwf1 [Hsel [Hle [Hlt Hback]]]]]]].
  exists X1, cols. split; [|repeat (split; [assumption|])].
  - unfold select, bind, Y_get. rewrite HY. exact Hrun.
  - intros st1 HY1 Hc Hn.
    destruct (Hback st1 [] HY1 Hc Hn) as [X2 [Hrun2 [Hc2 Hn2]]].
    exists X2. split; [|auto].
    unfold deselect. unfold bind at 1. unfold Y_get. rewrite HY1, HY.
    unfold bind.
    change (foldM _ (rev yr) cols st1) with (foldM deselect_step (rev yr) ([] ++ cols) st1).
    rewrite Hrun2. reflexivity.
Qed.

(** ** What [attempt] leaves alone *)

Lemma X_only_run {A} {m : M A} {st st' : store} {r : result A} :
  X_only m -> m st = (st', r) -> exists X', st' = setX X' st.
Proof. intros H E. destruct (H st) as [X' HX]. rewrite E in HX. exists X'. exact HX. Qed.

Lemma attempt_body_frame {rec : G unit} (row : candidate) :
  gen_frame rec -> gen_frame (attempt_body rec row).
Proof.
  intros Hrec st ys st' r. unfold attempt_body, bindG, liftG, solution_append.
  set (st1 := setSolution (sSolution st ++ [row]) st).
  destruct (select row st1) as [st2 [cols|e]] eqn:Esel;
    destruct (X_only_run (X_only_select row) Esel) as [X2 ->].
  2:{ intros [= <- <- <-]. simpl. repeat split; intros; try tauto; discriminate. }
  destruct (rec (setX X2 st1)) as [ys1 [st3 [[]|e]]] eqn:Erec;
    destruct (Hrec _ _ _ _ Erec) as [HY3 [HB3 [Hys3 HS3]]]; simpl in HY3, HB3, Hys3, HS3.
  2:{ intros [= <- <- <-]. simpl. rewrite ?app_nil_r.
      repeat split; intros; try assumption; try discriminate;
        match goal with H : In _ _ |- _ => apply Hys3 in H; destruct H; assumption end. }
  specialize (HS3 eq_refl).
  destruct (deselect row cols st3) as [st4 [[]|e]] eqn:Edes;
    destruct (X_only_run (X_only_deselect row cols) Edes) as [X4 ->].
  2:{ intros [= <- <- <-]. simpl. rewrite ?app_nil_r.
      repeat split; intros; try assumption; try discriminate;
        match goal with H : In _ _ |- _ => apply Hys3 in H; destruct H; assumption end. }
  unfold solution_pop. simpl sSolution. rewrite HS3.
  rewrite list_pop_app.
  intros [= <- <- <-]. simpl. rewrite ?app_nil_r.
  repeat split; intros; try assumption; try reflexivity;
    match goal with H : In _ _ |- _ => apply Hys3 in H; destruct H; assumption end.
Qed.

Lemma forG_frame {A} (f : A -> G unit) (l : list A) :
  (forall a, gen_frame (f a)) -> gen_frame (forG l f).
Proof.
  intro Hf. induction l as [|a l IH]; intros st ys st' r; simpl.
  - unfold liftG, ret. intros [= <- <- <-]. simpl. tauto.
  - unfold bindG.
    destruct (f a st) as [ys1 [st1 [[]|e]]] eqn:Ea;
      destruct (Hf a _ _ _ _ Ea) as [HY1 [HB1 [Hys1 HS1]]].
    + destruct (forG l f st1) as [ys2 [st2 r2]] eqn:El.
      destruct (IH _ _ _ _ El) as [HY2 [HB2 [Hys2 HS2]]].
      intros [= <- <- <-]. specialize (HS1 eq_refl).
      repeat split; try congruence.
      * apply in_app_or in H. destruct H as [H|H];
          [apply Hys1 in H | apply Hys2 in H]; destruct H; congruence.
      * apply in_app_or in H. destruct H as [H|H];
          [apply Hys1 in H | apply Hys2 in H]; destruct H; congruence.
      * intro Hr. rewrite (HS2 Hr). exact HS1.
    + intros [= <- <- <-].
      repeat split; intros; try assumption; try discriminate;
        match goal with H : In _ _ |- _ => apply Hys1 in H; destruct H; assumption end.
Qed.

Lemma attempt_frame (fuel : nat) : gen_frame (attempt fuel).
Proof.
  induction fuel as [|fuel IH]; intros st ys st' r; simpl.
  - unfold liftG, raise. intros [= <- <- <-]. simpl.
    repeat split; intros; try tauto; discriminate.
  - destruct (sX st) as [|e0 X0] eqn:EX.
    + unfold yield. intros [= <- <- <-]. simpl.
      repeat split; intros; try tauto;
        match goal with H : _ \/ False |- _ => destruct H as [<-|[]]; reflexivity end.
    + destruct (choose (e0 :: X0)) as [i|].
      2:{ unfold liftG, raise. intros [= <- <- <-]. simpl.
          repeat split; intros; try tauto; discriminate. }
      unfold bindG at 1. unfold liftG at 1. unfold X_get.
      destruct (dict_get constraint_eqb (sX st) i) as [rows|].
      2:{ intros [= <- <- <-]. simpl. repeat split; intros; try tauto; discriminate. }
      change (forG rows _) with (forG rows (attempt_body (attempt fuel))).
      destruct (forG rows (attempt_body (attempt fuel)) st) as [ys1 [st1 r1]] eqn:El.
      intros [= <- <- <-]. simpl.
      exact (forG_frame _ rows (fun row => attempt_body_frame row IH) _ _ _ _ El).
Qed.

(** ** Soundness of [attempt] *)

Lemma scan_in (entries : dictX) :
  forall i0 L i, scan entries i0 L = Some i ->
    i0 = Some i \/ In i (dict_keys entries).
Proof.
  induction entries as [|[a s] rest IH]; intros i0 L i; simpl.
  - auto.
  - destruct (length s <? L).
    + destruct (length s =? 1).
      * intros [= <-]. right; left; reflexivity.
      * intro H. apply IH in H. destruct H as [[= <-]|H]; auto.
    + destruct (L =? 1).
      * auto.
      * intro H. apply IH in H. destruct H; auto.
Qed.

Lemma choose_in (X : dictX) (i : constraint) :
  choose X = Some i -> In i (dict_keys X).
Proof.
  intro H. apply scan_in in H. destruct H as [H|H]; [discriminate | exact H].
Qed.

Lemma content_eq_keys {X X' : dictX} {k : constraint} :
  content_eq X X' -> In k (dict_keys X) -> In k (dict_keys X').
Proof.
  intros Hc Hk. apply (dict_get_keys constraint_eqb_eq) in Hk.
  apply (dict_get_keys constraint_eqb_eq). specialize (Hc k).
  destruct (dict_get constraint_eqb X k); [|congruence].
  destruct (dict_get constraint_eqb X' k); [discriminate | contradiction].
Qed.

Lemma content_eq_length {X X' : dictX} :
  nodups X -> nodups X' -> content_eq X X' -> length X = length X'.
Proof.
  intros [Hn _] [Hn' _] Hc. rewrite <- !dict_length_keys.
  apply Permutation_length. apply NoDup_Permutation; try assumption.
  intro k. split; apply content_eq_keys; [exact Hc | apply content_eq_sym; exact Hc].
Qed.

Lemma live_content {X X' : dictX} {Y : dictY} {t : candidate} :
  content_eq X X' -> live X Y t -> live X' Y t.
Proof.
  intros Hc [yr [HY [Hne Hall]]]. exists yr. repeat split; try assumption.
  intros c Hcin. destruct (Hall c Hcin) as [s [Hs Ht]].
  specialize (Hc c). rewrite Hs in Hc.
  destruct (dict_get constraint_eqb X' c) as [s'|]; [|contradiction].
  exists s'. split; [reflexivity | apply Hc; exact Ht].
Qed.

Lemma solution_of_content {X X' : dictX} {Y : dictY} {T : list candidate} :
  content_eq X X' -> solution_of X Y T -> solution_of X' Y T.
Proof.
  intros Hc [Ha [Hb Hd]]. split; [|split; [|exact Hd]].
  - intros k Hk. apply Ha. apply (dict_get_keys constraint_eqb_eq).
    apply (content_eq_keys (content_eq_sym Hc)).
    apply (dict_get_keys constraint_eqb_eq). exact Hk.
  - intros t Ht. exact (live_content Hc (Hb t Ht)).
Qed.

Lemma solution_of_cons {X X1 : dictX} {Y : dictY} {row yr T} :
  live X Y row -> dict_get candidate_eqb Y row = Some yr ->
  selected X Y yr X1 -> solution_of X1 Y T -> solution_of X Y (row :: T).
Proof.
  intros Hlive HY [Hs1 Hs2] [Ha [Hb Hd]].
  assert (HYf : Yf Y row = yr) by (unfold Yf; rewrite HY; reflexivity).
  split; [|split].
  - intros k Hk. destruct (in_dec constraint_eq_dec k yr) as [Hin|Hnin].
    + exists row. split; [left; reflexivity | rewrite HYf; exact Hin].
    + specialize (Hs2 k Hnin).
      destruct (dict_get constraint_eqb X k); [|congruence].
      destruct (dict_get constraint_eqb X1 k) eqn:E1; [|contradiction].
      destruct (Ha k) as [t [Ht Hkt]]; [congruence|].
      exists t. split; [right; exact Ht | exact Hkt].
  - intros t [<-|Ht]; [exact Hlive|].
    destruct (Hb t Ht) as [yt [HYt [Hne Hall]]].
    exists yt. repeat split; try assumption.
    intros c Hc. destruct (Hall c Hc) as [s1 [Hg1 Hin1]].
    assert (Hnin : ~ In c yr) by (intro H; rewrite (Hs1 c H) in Hg1; discriminate).
    specialize (Hs2 c Hnin). rewrite Hg1 in Hs2.
    destruct (dict_get constraint_eqb X c) as [s|]; [|contradiction].
    exists s. split; [reflexivity | apply Hs2; exact Hin1].
  - constructor; [|exact Hd].
    apply Forall_forall. intros t Ht c Hc Hct. rewrite HYf in Hc.
    destruct (Hb t Ht) as [yt [HYt [_ Hall]]].
    unfold Yf in Hct. rewrite HYt in Hct.
    destruct (Hall c Hct) as [s1 [Hg1 _]]. rewrite (Hs1 c Hc) in Hg1. discriminate.
Qed.

Lemma wf_live {X : dictX} {Y : dictY} {i s row} :
  index_wf X Y -> dict_get constraint_eqb X i = Some s -> In row s ->
  exists yr, dict_get candidate_eqb Y row = Some yr /\ NoDup yr /\ live X Y row.
Proof.
  intros [_ Hwf] Hi Hrow. destruct (Hwf i s Hi) as [_ Hmem].
  destruct (Hmem row Hrow) as [yr [HY [Hnd [Hin Hall]]]].
  exists yr. split; [exact HY|]. split; [exact Hnd|].
  exists yr. split; [exact HY|]. split; [|exact Hall].
  intros ->. destruct Hin.
Qed.

Lemma attempt_body_sound {rec : G unit} {n : nat} (row : candidate) :
  gen_frame rec -> gen_sound n rec ->
  forall st ys st' r,
    index_wf (sX st) (sY st) -> length (sX st) <= n ->
    (exists i s, dict_get constraint_eqb (sX st) i = Some s /\ In row s) ->
    attempt_body rec row st = (ys, (st', r)) ->
    attempt_post st ys st' r.
Proof.
  intros Hfr Hrec st ys st' r Hwf Hlen [i [s [Hi Hrow]]].
  destruct (wf_live Hwf Hi Hrow) as [yr [HY [Hnd Hlive]]].
  unfold attempt_body, bindG, liftG, solution_append.
  set (st1 := setSolution (sSolution st ++ [row]) st).
  destruct (select_run row st1 (yr := yr)) as [X1 [cols [Esel [Hwf1 [Hsel [_ [Hlt Hback]]]]]]];
    [exact Hwf | exact HY | exact Hnd | |].
  { intros c Hc. destruct Hlive as [yr' [HY' [_ Hall]]].
    assert (yr' = yr) by congruence. subst yr'.
    destruct (Hall c Hc) as [s' [Hs' _]]. simpl. congruence. }
  assert (Hne : yr <> []).
  { destruct Hlive as [yr' [HY' [Hne' _]]]. congruence. }
  specialize (Hlt Hne). simpl in Hwf1, Hsel, Hlt, Hback.
  rewrite Esel.
  destruct (rec (setX X1 st1)) as [ys1 [st3 r1]] eqn:Erec.
  destruct (Hfr _ _ _ _ Erec) as [HY3 [_ [_ HS3]]]. simpl in HY3, HS3.
  assert (Hpost : attempt_post (setX X1 st1) ys1 st3 r1).
  { apply Hrec; [exact Hwf1 | simpl; lia | exact Erec]. }
  destruct Hpost as [Hys Hr]. simpl in Hys, Hr.
  assert (Hys' : forall y, In y ys1 ->
            exists T, sSolution y = sSolution st ++ T /\ solution_of (sX st) (sY st) T).
  { intros y Hy. destruct (Hys y Hy) as [T1 [HT1 Hsol]].
    exists (row :: T1). split.
    - rewrite HT1, <- app_assoc. reflexivity.
    - exact (solution_of_cons Hlive HY Hsel Hsol). }
  destruct Hr as [[-> [Hc3 Hn3]] | [-> Hun]].
  2:{ intros [= <- <- <-]. simpl. split; [exact Hys' | right; auto]. }
  specialize (HS3 eq_refl).
  destruct (Hback st3 HY3 Hc3 Hn3) as [X2 [Edes [Hc2 Hn2]]].
  rewrite Edes. unfold solution_pop. simpl sSolution. rewrite HS3, list_pop_app.
  intros [= <- <- <-]. simpl. rewrite ?app_nil_r.
  split; [exact Hys' | left; auto].
Qed.

Lemma forG_sound {rec : G unit} {n : nat} :
  gen_frame rec -> gen_sound n rec ->
  forall rows st ys st' r,
    index_wf (sX st) (sY st) -> length (sX st) <= n ->
    (forall row, In row rows ->
       exists i s, dict_get constraint_eqb (sX st) i = Some s /\ In row s) ->
    forG rows (attempt_body rec) st = (ys, (st', r)) ->
    attempt_post st ys st' r.
Proof.
  intros Hfr Hrec. induction rows as [|row rows IH];
    intros st ys st' r Hwf Hlen Hrows; simpl.
  - unfold liftG, ret. intros [= <- <- <-]. split; [intros y []|].
    left. split; [reflexivity|]. split; [apply content_eq_refl | exact (index_wf_nodups Hwf)].
  - unfold bindG.
    destruct (attempt_body rec row st) as [ys1 [st1 r1]] eqn:E1.
    pose proof (attempt_body_frame row Hfr _ _ _ _ E1) as [HY1 [_ [_ HS1]]].
    pose proof (attempt_body_sound row Hfr Hrec _ _ _ _ Hwf Hlen (Hrows row (or_introl eq_refl)) E1)
      as [Hys1 Hr1].
    destruct Hr1 as [[-> [Hc1 Hn1]] | [-> Hun]].
    2:{ intros [= <- <- <-]. split; [exact Hys1 | right; auto]. }
    specialize (HS1 eq_refl).
    destruct (forG rows (attempt_body rec) st1) as [ys2 [st2 r2]] eqn:E2.
    assert (Hwf1 : index_wf (sX st1) (sY st1)).
    { rewrite HY1. exact (index_wf_content Hwf Hc1 Hn1). }
    assert (Hpost2 : attempt_post st1 ys2 st2 r2).
    { apply (IH _ _ _ _ Hwf1); [| | exact E2].
      - rewrite <- (content_eq_length (index_wf_nodups Hwf) Hn1 Hc1). exact Hlen.
      - intros row' Hrow'. destruct (Hrows row' (or_intror Hrow')) as [i [s [Hi Hin]]].
        pose proof (Hc1 i) as Hci. rewrite Hi in Hci.
        destruct (dict_get constraint_eqb (sX st1) i) as [s1|] eqn:Ei1; [|contradiction].
        exists i, s1. split; [exact Ei1 | apply Hci; exact Hin]. }
    destruct Hpost2 as [Hys2 Hr2].
    + intros [= <- <- <-]. split.
      * intros y Hy. apply in_app_or in Hy. destruct Hy as [Hy|Hy]; [exact (Hys1 y Hy)|].
        destruct (Hys2 y Hy) as [T [HT Hsol]]. exists T.
        rewrite HT, HS1, HY1 in *. split; [reflexivity|].
        exact (solution_of_content (content_eq_sym Hc1) Hsol).
      * destruct Hr2 as [[-> [Hc2 Hn2]] | [-> Hun]];
          [left | right; rewrite <- HY1; auto].
        split; [reflexivity|]. split; [exact (content_eq_trans Hc1 Hc2) | exact Hn2].
Qed.

Lemma attempt_sound (fuel : nat) : gen_sound fuel (attempt fuel).
Proof.
  induction fuel as [|fuel IH]; intros st ys st' r Hwf Hlen; [lia|]. simpl.
  destruct (sX st) as [|e0 X0] eqn:EX.
  - unfold yield. intros [= <- <- <-]. split.
    + intros y [<-|[]]. exists []. rewrite app_nil_r. split; [reflexivity|].
      rewrite EX. split; [|split].
      * intros k Hk. exfalso. apply Hk. reflexivity.
      * intros t [].
      * constructor.
    + left. split; [reflexivity|]. split; [apply content_eq_refl|].
      rewrite EX. split; [constructor | intros c s; discriminate].
  - rewrite <- EX in *. destruct (choose (sX st)) as [i|] eqn:Ech.
    2:{ unfold liftG, raise. intros [= <- <- <-]. split; [intros y []|].
        right. split; [reflexivity|]. exists (sX st).
        split; [exact Hwf|]. split; [rewrite EX; discriminate | exact Ech]. }
    apply choose_in in Ech. apply (dict_get_keys constraint_eqb_eq) in Ech.
    unfold bindG at 1. unfold liftG at 1. unfold X_get.
    destruct (dict_get constraint_eqb (sX st) i) as [rows|] eqn:Ei; [|congruence].
    change (forG rows _) with (forG rows (attempt_body (attempt fuel))).
    destruct (forG rows (attempt_body (attempt fuel)) st) as [ys1 [st1 r1]] eqn:El.
    intros [= <- <- <-]. simpl.
    apply (forG_sound (attempt_frame fuel) IH rows _ _ _ _ Hwf); [lia | | exact El].
    intros row Hrow. exists i, rows. auto.
Qed.

(** ** Loops over lists *)

Lemma forM_app {A} (f : A -> M unit) (l1 l2 : list A) (st : store) :
  forM_ (l1 ++ l2) f st = (forM_ l1 f ;; forM_ l2 f) st.
Proof.
  revert st. induction l1 as [|a l1 IH]; intro st; simpl.
  - reflexivity.
  - unfold bind. destruct (f a st) as [st1 [[]|e]]; [|reflexivity].
    rewrite IH. reflexivity.
Qed.

Lemma forM_ext {A} (f g : A -> M unit) (l : list A) :
  (forall a st, f a st = g a st) -> forall st, forM_ l f st = forM_ l g st.
Proof.
  intro H. induction l as [|a l IH]; intro st; simpl; [reflexivity|].
  unfold bind. rewrite H. destruct (g a st) as [st1 [[]|e]]; [apply IH | reflexivity].
Qed.

Lemma forM_flat_map {A B} (h : A -> list B) (f : B -> M unit) (l : list A) :
  forall st, forM_ (flat_map h l) f st = forM_ l (fun a => forM_ (h a) f) st.
Proof.
  induction l as [|a l IH]; intro st; simpl; [reflexivity|].
  rewrite forM_app. unfold bind.
  destruct (forM_ (h a) f st) as [st1 [[]|e]]; [apply IH | reflexivity].
Qed.

Lemma forM_map {A B} (h : A -> B) (f : B -> M unit) (l : list A) :
  forall st, forM_ (map h l) f st = forM_ l (fun a => f (h a)) st.
Proof.
  induction l as [|a l IH]; intro st; simpl; [reflexivity|].
  unfold bind. destruct (f (h a) st) as [st1 [[]|e]]; [apply IH | reflexivity].
Qed.

Lemma forM_ext_inv (I : store -> Prop) {A} (f g : A -> M unit) (l : list A) :
  (forall X st, I st -> I (setX X st)) ->
  (forall a, X_only (g a)) ->
  (forall a st, In a l -> I st -> f a st = g a st) ->
  forall st, I st -> forM_ l f st = forM_ l g st.
Proof.
  intros HI Hg. induction l as [|a l IH]; intros H st Hst; simpl; [reflexivity|].
  unfold bind. rewrite (H a st (or_introl eq_refl) Hst).
  destruct (g a st) as [st1 [[]|e]] eqn:E; [|reflexivity].
  destruct (X_only_run (Hg a) E) as [X' ->]. apply IH; [|apply HI; exact Hst].
  intros a' st' Ha'. apply H. right; exact Ha'.
Qed.

Lemma forM_ext_Y (Y : dictY) {A} (f g : A -> M unit) (l : list A) :
  (forall a, X_only (g a)) ->
  (forall a st, In a l -> sY st = Y -> f a st = g a st) ->
  forall st, sY st = Y -> forM_ l f st = forM_ l g st.
Proof.
  intros Hg H. apply (forM_ext_inv (fun st => sY st = Y)); auto.
Qed.

Lemma NoDup_flat_map {A B} (h : A -> list B) (l : list A) :
  NoDup l -> (forall a, In a l -> NoDup (h a)) ->
  (forall a a' b, In a l -> In a' l -> In b (h a) -> In b (h a') -> a = a') ->
  NoDup (flat_map h l).
Proof.
  induction l as [|a l IH]; intros Hnd Hh Hdis; simpl; [constructor|].
  inversion Hnd as [|? ? Ha Hl]; subst.
  apply NoDup_app.
  - apply Hh. left; reflexivity.
  - apply IH; [exact Hl | intros; apply Hh; right; assumption |].
    intros a1 a2 b H1 H2. apply Hdis; right; assumption.
  - intros b Hb Hb'. apply in_flat_map in Hb'. destruct Hb' as [a' [Ha' Hba']].
    assert (a = a') by (apply (Hdis a a' b); auto; [left; reflexivity | right; exact Ha']).
    subst a'. contradiction.
Qed.

Lemma length_flat_map_const {A B} (h : A -> list B) (l : list A) (m : nat) :
  (forall a, In a l -> length (h a) = m) ->
  length (flat_map h l) = length l * m.
Proof.
  induction l as [|a l IH]; intro H; simpl; [reflexivity|].
  rewrite length_app, H, IH; [reflexivity | | left; reflexivity].
  intros; apply H; right; assumption.
Qed.

(** ** Dictionaries filled with fresh keys *)

Section DictFill.
Variables K V : Type.
Variable eqb : K -> K -> bool.
Hypothesis eqb_eq : forall a b, eqb a b = true <-> a = b.
Variable v : K -> V.

Lemma dict_get_app_fresh (d d' : dict K V) (k : K) :
  dict_get eqb d k = None -> dict_get eqb (d ++ d') k = dict_get eqb d' k.
Proof.
  induction d as [|[k0 v0] d IH]; simpl; [reflexivity|].
  destruct (eqb k0 k); [discriminate | exact IH].
Qed.

Lemma dict_get_tabulate (ks : list K) (k : K) :
  dict_get eqb (map (fun k => (k, v k)) ks) k =
  if existsb (eqb k) ks then Some (v k) else None.
Proof.
  induction ks as [|a ks IH]; simpl; [reflexivity|].
  destruct (eqb a k) eqn:E.
  - apply eqb_eq in E. subst a. rewrite (proj2 (eqb_eq k k) eq_refl). reflexivity.
  - rewrite IH. destruct (eqb k a) eqn:E'; [|reflexivity].
    apply eqb_eq in E'. subst a. rewrite (proj2 (eqb_eq k k) eq_refl) in E. discriminate.
Qed.

Lemma fold_set_fresh (ks : list K) :
  forall d, NoDup ks -> (forall k, In k ks -> dict_get eqb d k = None) ->
    fold_left (fun d k => dict_set eqb d k (v k)) ks d
    = d ++ map (fun k => (k, v k)) ks.
Proof.
  induction ks as [|a ks IH]; intros d Hnd Hfresh; simpl.
  - rewrite app_nil_r. reflexivity.
  - inversion Hnd as [|? ? Ha Hks]; subst.
    rewrite (dict_set_new d a (v a)) by (apply Hfresh; left; reflexivity).
    rewrite IH; [rewrite <- app_assoc; reflexivity | exact Hks |].
    intros k Hk. rewrite dict_get_app_fresh by (apply Hfresh; right; exact Hk).
    simpl. destruct (eqb a k) eqn:E; [|reflexivity].
    apply eqb_eq in E. subst a. contradiction.
Qed.
End DictFill.

Arguments dict_get_app_fresh {K V eqb} d d' k _.
Arguments dict_get_tabulate {K V eqb} eqb_eq v ks k.
Arguments fold_set_fresh {K V eqb} eqb_eq v ks d _ _.

Lemma forM_X_put (v : constraint -> cset) (ks : list constraint) :
  forall st,
    forM_ ks (fun k => X_put k (v k)) st
    = (setX (fold_left (fun d k => dict_set constraint_eqb d k (v k)) ks (sX st)) st,
       Ok tt).
Proof.
  induction ks as [|a ks IH]; intro st; simpl.
  - unfold ret. rewrite setX_same. reflexivity.
  - unfold bind, X_put at 1. rewrite IH. reflexivity.
Qed.

Lemma forM_Y_put (v : candidate -> list constraint) (js : list candidate) :
  forall st,
    forM_ js (fun j => Y_put j (v j)) st
    = (setY (fold_left (fun d j => dict_set candidate_eqb d j (v j)) js (sY st)) st,
       Ok tt).
Proof.
  induction js as [|a js IH]; intro st; simpl.
  - unfold ret. destruct st; reflexivity.
  - unfold bind, Y_put at 1. rewrite IH. reflexivity.
Qed.

(** ** The keys of the two indices *)

Lemma In_all_cands (N : nat) (row col num : nat) :
  In (row, col, num) (all_cands N) <-> row < N /\ col < N /\ 1 <= num <= N.
Proof.
  unfold all_cands. rewrite in_flat_map. split.
  - intros [r [Hr H]]. apply in_flat_map in H. destruct H as [c [Hc H]].
    apply in_map_iff in H. destruct H as [n [E Hn]]. inversion E; subst.
    apply in_seq in Hr, Hc, Hn. lia.
  - intros [Hr [Hc Hn]]. exists row. split; [apply in_seq; lia|].
    apply in_flat_map. exists col. split; [apply in_seq; lia|].
    apply in_map_iff. exists num. split; [reflexivity | apply in_seq; lia].
Qed.

Lemma In_all_keys (N : nat) (kd : kind) (a b : nat) :
  In (kd, a, b) (all_keys N) <->
  a < N /\ match kd with rowcol => b < N | _ => 1 <= b <= N end.
Proof.
  unfold all_keys. rewrite in_flat_map. split.
  - intros [i [Hi H]]. apply in_flat_map in H. destruct H as [j [Hj H]].
    apply in_seq in Hi, Hj. simpl in H.
    destruct H as [E|[E|[E|[E|[]]]]]; inversion E; subst; lia.
  - intros [Ha Hb]. exists a. split; [apply in_seq; lia|].
    apply in_flat_map. destruct kd.
    + exists b. split; [apply in_seq; lia | simpl; auto].
    + exists (b - 1). split; [apply in_seq; lia|].
      simpl. replace (b - 1 + 1) with b by lia. auto.
    + exists (b - 1). split; [apply in_seq; lia|].
      simpl. replace (b - 1 + 1) with b by lia. auto.
    + exists (b - 1). split; [apply in_seq; lia|].
      simpl. replace (b - 1 + 1) with b by lia. auto 6.
Qed.

Lemma NoDup_keys_at (i j : nat) : NoDup (keys_at i j).
Proof.
  unfold keys_at. repeat constructor; simpl; intuition discriminate.
Qed.

Lemma NoDup_all_keys (N : nat) : NoDup (all_keys N).
Proof.
  unfold all_keys. apply NoDup_flat_map; [apply seq_NoDup | |].
  - intros i _. apply NoDup_flat_map; [apply seq_NoDup | intros; apply NoDup_keys_at |].
    intros j j' b _ _ H H'. simpl in H, H'.
    destruct H as [E|[E|[E|[E|[]]]]]; subst b;
      destruct H' as [E|[E|[E|[E|[]]]]]; inversion E; lia.
  - intros i i' b _ _ H H'.
    apply in_flat_map in H, H'. destruct H as [j [_ H]], H' as [j' [_ H']].
    simpl in H, H'.
    destruct H as [E|[E|[E|[E|[]]]]]; subst b;
      destruct H' as [E|[E|[E|[E|[]]]]]; inversion E; lia.
Qed.

Lemma NoDup_all_cands (N : nat) : NoDup (all_cands N).
Proof.
  unfold all_cands. apply NoDup_flat_map; [apply seq_NoDup | |].
  - intros row _. apply NoDup_flat_map; [apply seq_NoDup | |].
    + intros col _. apply Injective_map_NoDup; [|apply seq_NoDup].
      intros n n' E. inversion E. reflexivity.
    + intros c c' b _ _ H H'. apply in_map_iff in H, H'.
      destruct H as [n [E _]], H' as [n' [E' _]]. subst b. inversion E'. reflexivity.
  - intros r r' b _ _ H H'. apply in_flat_map in H, H'.
    destruct H as [c [_ H]], H' as [c' [_ H']]. apply in_map_iff in H, H'.
    destruct H as [n [E _]], H' as [n' [E' _]]. subst b. inversion E'. reflexivity.
Qed.

Lemma length_all_keys (N : nat) : length (all_keys N) = 4 * (N * N).
Proof.
  unfold all_keys.
  rewrite (length_flat_map_const _ _ (N * 4)).
  - rewrite length_seq. lia.
  - intros i _. rewrite (length_flat_map_const _ _ 4).
    + rewrite length_seq. reflexivity.
    + intros; reflexivity.
Qed.

Lemma length_all_cands (N : nat) : length (all_cands N) = N * N * N.
Proof.
  unfold all_cands.
  rewrite (length_flat_map_const _ _ (N * N)).
  - rewrite length_seq. lia.
  - intros r _. rewrite (length_flat_map_const _ _ N).
    + rewrite length_seq. reflexivity.
    + intros. rewrite length_map, length_seq. reflexivity.
Qed.

Lemma blc_lt (B row col : nat) :
  row < B * B -> col < B * B -> blc B row col < B * B.
Proof.
  intros Hr Hc. unfold blc.
  assert (HB : B <> 0) by (intros ->; simpl in Hr; lia).
  assert (H1 : row / B < B) by (apply Nat.Div0.div_lt_upper_bound; lia).
  assert (H2 : col / B < B) by (apply Nat.Div0.div_lt_upper_bound; lia).
  nia.
Qed.

Lemma NoDup_constraints_of (B : nat) (j : candidate) : NoDup (constraints_of B j).
Proof.
  destruct j as [[row col] num]. unfold constraints_of.
  repeat constructor; simpl; intuition discriminate.
Qed.

Lemma constraints_in_keys (B : nat) (j : candidate) (k : constraint) :
  In j (all_cands (B * B)) -> In k (constraints_of B j) -> In k (all_keys (B * B)).
Proof.
  destruct j as [[row col] num]. intros Hj Hk.
  apply In_all_cands in Hj. destruct Hj as [Hr [Hc Hn]].
  simpl in Hk. destruct Hk as [<-|[<-|[<-|[<-|[]]]]]; apply In_all_keys; try lia.
  split; [apply blc_lt; assumption | lia].
Qed.

Lemma existsb_constraint_eqb (k : constraint) (l : list constraint) :
  existsb (constraint_eqb k) l = cmem k l.
Proof. reflexivity. Qed.

Lemma dict_get_built_Y (N B : nat) (j : candidate) :
  dict_get candidate_eqb (built_Y N B) j =
  if set_mem j (all_cands N) then Some (constraints_of B j) else None.
Proof. unfold built_Y. apply (dict_get_tabulate candidate_eqb_eq). Qed.

Lemma Yf_built_Y (N B : nat) (j : candidate) :
  In j (all_cands N) -> Yf (built_Y N B) j = constraints_of B j.
Proof.
  intro H. unfold Yf. rewrite dict_get_built_Y.
  rewrite (proj2 (set_mem_In j _) H). reflexivity.
Qed.

(** ** The construction loops *)

Lemma init_X_run (N : nat) (st : store) :
  sX st = [] ->
  init_X N st = (setX (map (fun k => (k, [])) (all_keys N)) st, Ok tt).
Proof.
  intro HX. unfold init_X.
  rewrite (forM_ext _ (fun i => forM_ (flat_map (fun j => keys_at i j) (seq 0 N))
                                 (fun k => X_put k []))).
  - rewrite <- (forM_flat_map (fun i => flat_map (fun j => keys_at i j) (seq 0 N))
                 (fun k => X_put k [])).
    fold (all_keys N). rewrite (forM_X_put (fun _ : constraint => ([] : cset))).
    rewrite (fold_set_fresh constraint_eqb_eq (fun _ : constraint => ([] : cset))).
    + rewrite HX. reflexivity.
    + apply NoDup_all_keys.
    + intros k _. rewrite HX. reflexivity.
  - intros i st'. rewrite forM_flat_map. apply forM_ext.
    intros j st''. reflexivity.
Qed.

Lemma init_Y_run (N B : nat) (st : store) :
  sY st = [] ->
  init_Y N B st = (setY (built_Y N B) st, Ok tt).
Proof.
  intro HY. unfold init_Y.
  rewrite (forM_ext _ (fun row =>
     forM_ (flat_map (fun col => map (fun num => (row, col, num)) (seq 1 N)) (seq 0 N))
           (fun j => Y_put j (constraints_of B j)))).
  - rewrite <- (forM_flat_map
       (fun row => flat_map (fun col => map (fun num => (row, col, num)) (seq 1 N)) (seq 0 N))
       (fun j => Y_put j (constraints_of B j))).
    fold (all_cands N). rewrite (forM_Y_put (constraints_of B)).
    rewrite (fold_set_fresh candidate_eqb_eq (constraints_of B)).
    + rewrite HY. reflexivity.
    + apply NoDup_all_cands.
    + intros k _. rewrite HY. reflexivity.
  - intros row st'. rewrite forM_flat_map. apply forM_ext.
    intros col st''. rewrite forM_map. reflexivity.
Qed.

Lemma fold_opt_add_fresh (l : cset) :
  forall t, NoDup (t ++ l) ->
    fold_opt (fun s j => Some (set_add s j)) l t = Some (t ++ l).
Proof.
  induction l as [|x l IH]; intros t Hnd; simpl.
  - rewrite app_nil_r. reflexivity.
  - assert (Hx : set_mem x t = false).
    { apply set_mem_false. intro Hx. apply NoDup_remove_2 in Hnd.
      apply Hnd. apply in_or_app. left; exact Hx. }
    unfold set_add. rewrite Hx.
    rewrite IH; rewrite <- app_assoc; [reflexivity | exact Hnd].
Qed.

Lemma members_touching (N B : nat) (k : constraint) :
  touching (built_Y N B) k (all_cands N) = members N B k.
Proof.
  unfold touching, members. apply filter_ext_in.
  intros j Hj. rewrite (Yf_built_Y N B j Hj). reflexivity.
Qed.

Lemma populate_run (B : nat) (st : store) :
  sX st = map (fun k => (k, [])) (all_keys (B * B)) ->
  sY st = built_Y (B * B) B ->
  exists X',
    populate_X st = (setX X' st, Ok tt) /\
    dict_keys X' = all_keys (B * B) /\
    forall k, In k (all_keys (B * B)) ->
      dict_get constraint_eqb X' k = Some (members (B * B) B k).
Proof.
  intros HX HY.
  assert (Hrun : populate_X st =
            sweep_g (fun _ => false) (X_upd (fun s j => Some (set_add s j)))
                    (all_cands (B * B)) st).
  { unfold populate_X. rewrite HY at 1. unfold built_Y. rewrite forM_map.
    unfold sweep_g. apply (forM_ext_Y (built_Y (B * B) B)); [| |exact HY].
    - intro j. apply X_only_bind; [apply X_only_Y_get|]. intro yj.
      apply X_only_forM_. intro k. apply X_only_X_upd.
    - intros j st' Hj HY'. simpl fst. simpl snd.
      unfold bind at 1. unfold Y_get. rewrite HY', dict_get_built_Y.
      rewrite (proj2 (set_mem_In j _) Hj). reflexivity. }
  assert (HgetX : forall k, dict_get constraint_eqb (sX st) k =
                    if cmem k (all_keys (B * B)) then Some [] else None).
  { intro k. rewrite HX.
    apply (dict_get_tabulate constraint_eqb_eq (fun _ => ([] : cset))). }
  destruct (sweep_g_run (fun s j => Some (set_add s j)) (fun _ => false)
              (all_cands (B * B)) st) as [X' [Hsw [Hkeys [_ Hget]]]].
  { intros x Hx. exists (constraints_of B x). rewrite HY, dict_get_built_Y.
    rewrite (proj2 (set_mem_In x _) Hx). split; [reflexivity | apply NoDup_constraints_of]. }
  { intros k _. rewrite HgetX. destruct (cmem k (all_keys (B * B))) eqn:Ek.
    - destruct (fold_opt_add (touching (sY st) k (all_cands (B * B))) []) as [t' [E _]].
      congruence.
    - apply empty_by_members. intros x Hx. apply In_touching in Hx.
      destruct Hx as [Hx Hk]. rewrite HY, (Yf_built_Y (B * B) B x Hx) in Hk.
      apply (constraints_in_keys B x k Hx) in Hk. apply cmem_In in Hk. congruence. }
  exists X'. split; [rewrite Hrun; exact Hsw|]. split.
  - rewrite Hkeys, HX. unfold dict_keys. rewrite map_map. simpl. apply map_id.
  - intros k Hk. rewrite (Hget k eq_refl), HgetX.
    rewrite (proj2 (cmem_In k _) Hk).
    rewrite fold_opt_add_fresh.
    + simpl. rewrite HY, members_touching. reflexivity.
    + simpl. apply NoDup_filter. apply NoDup_all_cands.
Qed.

(** The indices built for a board of side [B * B]. *)
Lemma build_run (B : nat) (st : store) :
  sX st = [] -> sY st = [] ->
  exists X',
    build (B * B) B st = (setX X' (setY (built_Y (B * B) B) st), Ok tt) /\
    dict_keys X' = all_keys (B * B) /\
    forall k, In k (all_keys (B * B)) ->
      dict_get constraint_eqb X' k = Some (members (B * B) B k).
Proof.
  intros HX HY. unfold build. unfold bind at 1.
  rewrite (init_X_run (B * B) st HX).
  unfold bind at 1. rewrite init_Y_run by exact HY.
  destruct (populate_run B
              (setY (built_Y (B * B) B)
                 (setX (map (fun k => (k, [])) (all_keys (B * B))) st)))
    as [X' [Hrun [Hkeys Hget]]]; [reflexivity | reflexivity |].
  rewrite Hrun. exists X'. split; [reflexivity | auto].
Qed.

Lemma In_members (N B : nat) (k : constraint) (j : candidate) :
  In j (members N B k) <-> In j (all_cands N) /\ In k (constraints_of B j).
Proof. unfold members. rewrite filter_In, cmem_In. reflexivity. Qed.

Lemma built_wf (B : nat) (X : dictX) :
  dict_keys X = all_keys (B * B) ->
  (forall k, In k (all_keys (B * B)) ->
     dict_get constraint_eqb X k = Some (members (B * B) B k)) ->
  index_wf X (built_Y (B * B) B).
Proof.
  intros Hkeys Hget. split; [rewrite Hkeys; apply NoDup_all_keys|].
  intros c s Hc.
  assert (Hin : In c (all_keys (B * B))).
  { rewrite <- Hkeys. apply (dict_get_keys constraint_eqb_eq). congruence. }
  rewrite (Hget c Hin) in Hc. injection Hc as <-.
  split; [apply NoDup_filter, NoDup_all_cands|].
  intros j Hj. apply In_members in Hj. destruct Hj as [Hj Hcj].
  exists (constraints_of B j). rewrite dict_get_built_Y.
  rewrite (proj2 (set_mem_In j _) Hj).
  split; [reflexivity|]. split; [apply NoDup_constraints_of|]. split; [exact Hcj|].
  intros k Hk. exists (members (B * B) B k). split.
  - apply Hget. exact (constraints_in_keys B j k Hj Hk).
  - apply In_members. auto.
Qed.

(** ** Counting the members of a constraint *)

Lemma div_mod_split (B q r : nat) :
  r < B -> (B * q + r) / B = q /\ (B * q + r) mod B = r.
Proof.
  intro H. split; symmetry.
  - apply Nat.div_unique with (r := r); [exact H | reflexivity].
  - apply Nat.mod_unique with (q := q); [exact H | reflexivity].
Qed.

Lemma length_members_list (N B : nat) (k : constraint) :
  length (members_list N B k) = N.
Proof.
  destruct k as [[[] a] b]; simpl; rewrite length_map, length_seq; reflexivity.
Qed.

Lemma NoDup_members_list (B : nat) (k : constraint) :
  NoDup (members_list (B * B) B k).
Proof.
  destruct k as [[[] a] b]; simpl;
    (apply Injective_map_NoDup_in; [|apply seq_NoDup]);
    intros x y Hx Hy E; inversion E; try reflexivity.
  apply in_seq in Hx, Hy.
  assert (HB : B <> 0) by (intros ->; simpl in Hx; lia).
  pose proof (Nat.mod_upper_bound x B HB) as Hxm.
  pose proof (Nat.mod_upper_bound y B HB) as Hym.
  assert (Hq1 : x / B = y / B) by nia.
  assert (Hq2 : x mod B = y mod B) by nia.
  rewrite (Nat.div_mod_eq x B), (Nat.div_mod_eq y B), Hq1, Hq2. reflexivity.
Qed.

Lemma blc_cell (B b row col : nat) :
  b < B * B ->
  (row < B * B /\ col < B * B /\ blc B row col = b) <->
  exists t, t < B * B /\ row = B * (b / B) + t / B /\ col = B * (b mod B) + t mod B.
Proof.
  intro Hb. assert (HB : B <> 0) by (intros ->; simpl in Hb; lia).
  unfold blc. split.
  - intros [Hr [Hc E]].
    assert (H2 : col / B < B) by (apply Nat.Div0.div_lt_upper_bound; lia).
    destruct (div_mod_split B (row / B) (col / B) H2) as [Hq Hm].
    rewrite E in Hq, Hm.
    pose proof (Nat.mod_upper_bound row B HB) as Hrm.
    pose proof (Nat.mod_upper_bound col B HB) as Hcm.
    exists (B * (row mod B) + col mod B).
    destruct (div_mod_split B (row mod B) (col mod B) Hcm) as [Hq' Hm'].
    rewrite Hq', Hm', Hq, Hm. split; [nia|].
    split; [apply Nat.div_mod_eq | apply Nat.div_mod_eq].
  - intros [t [Ht [-> ->]]].
    assert (H1 : t / B < B) by (apply Nat.Div0.div_lt_upper_bound; lia).
    pose proof (Nat.mod_upper_bound t B HB) as H2.
    assert (H3 : b / B < B) by (apply Nat.Div0.div_lt_upper_bound; lia).
    pose proof (Nat.mod_upper_bound b B HB) as H4.
    destruct (div_mod_split B (b / B) (t / B) H1) as [Hq _].
    destruct (div_mod_split B (b mod B) (t mod B) H2) as [Hq' _].
    rewrite Hq, Hq'. split; [nia|]. split; [nia|].
    symmetry. apply Nat.div_mod_eq.
Qed.

Lemma members_list_spec (B : nat) (k : constraint) (j : candidate) :
  In k (all_keys (B * B)) ->
  (In j (members (B * B) B k) <-> In j (members_list (B * B) B k)).
Proof.
  destruct k as [[kd a] b], j as [[row col] num]. intro Hk.
  apply In_all_keys in Hk. destruct Hk as [Ha Hb].
  rewrite In_members, In_all_cands. unfold constraints_of.
  destruct kd; simpl; rewrite in_map_iff.
  - split.
    + intros [[Hr [Hc Hn]] [E|[E|[E|[E|[]]]]]]; inversion E; subst.
      exists num. split; [reflexivity | apply in_seq; lia].
    + intros [n [E Hn]]. inversion E; subst. apply in_seq in Hn.
      split; [lia | left; reflexivity].
  - split.
    + intros [[Hr [Hc Hn]] [E|[E|[E|[E|[]]]]]]; inversion E; subst.
      exists col. split; [reflexivity | apply in_seq; lia].
    + intros [n [E Hn]]. inversion E; subst. apply in_seq in Hn.
      split; [lia | right; left; reflexivity].
  - split.
    + intros [[Hr [Hc Hn]] [E|[E|[E|[E|[]]]]]]; inversion E; subst.
      exists row. split; [reflexivity | apply in_seq; lia].
    + intros [n [E Hn]]. inversion E; subst. apply in_seq in Hn.
      split; [lia | right; right; left; reflexivity].
  - split.
    + intros [[Hr [Hc Hn]] [E|[E|[E|[E|[]]]]]]; inversion E; subst.
      destruct (proj1 (blc_cell B (blc B row col) row col Ha)) as [t [Ht [Er Ec]]];
        [auto|].
      exists t. split; [|apply in_seq; lia].
      rewrite <- Er, <- Ec. reflexivity.
    + intros [t [E Ht]]. inversion E; subst. apply in_seq in Ht.
      destruct (proj2 (blc_cell B a (B * (a / B) + t / B) (B * (a mod B) + t mod B) Ha))
        as [Hr [Hc Hbl]];
        [exists t; split; [lia | split; reflexivity]|].
      split; [lia|]. right; right; right; left. rewrite Hbl. reflexivity.
Qed.

Lemma length_members (B : nat) (k : constraint) :
  In k (all_keys (B * B)) -> length (members (B * B) B k) = B * B.
Proof.
  intro Hk. transitivity (length (members_list (B * B) B k));
    [|apply length_members_list].
  apply Permutation_length. apply NoDup_Permutation.
  - apply NoDup_filter, NoDup_all_cands.
  - apply NoDup_members_list.
  - intro j. apply members_list_spec. exact Hk.
Qed.

(** ** Seeding the clues *)

Lemma select_loop_fails :
  forall yr st cols0,
    index_wf (sX st) (sY st) -> NoDup yr ->
    (exists c, In c yr /\ dict_get constraint_eqb (sX st) c = None) ->
    exists st', foldM select_step yr cols0 st = (st', Raise KeyError).
Proof.
  induction yr as [|c0 yr IH]; intros st cols0 Hwf Hnd [c [Hc Hnone]].
  - destruct Hc.
  - inversion Hnd as [|? ? Hc0 Hyr]; subst. simpl foldM. unfold bind at 1.
    unfold select_step at 1. unfold bind at 1.
    destruct (dict_get constraint_eqb (sX st) c0) as [s|] eqn:E0.
    + destruct (cover_run c0 st Hwf E0) as [Xc [Hrun [Hcov [Hndc _]]]].
      rewrite Hrun. unfold ret at 1.
      apply IH; [exact (covered_wf Hwf E0 Hcov Hndc) | exact Hyr |].
      destruct Hc as [<-|Hc]; [congruence|].
      exists c. split; [exact Hc|]. simpl.
      destruct Hcov as [_ Hk].
      assert (Hne : c <> c0) by (intros ->; contradiction).
      specialize (Hk c Hne). rewrite Hnone in Hk.
      destruct (dict_get constraint_eqb Xc c); [contradiction | reflexivity].
    + exists st. unfold cover, bind, X_get. rewrite E0. reflexivity.
Qed.

Lemma conflictb_spec (B : nat) (a b : candidate) :
  conflictb B a b = true <->
  exists k, In k (constraints_of B a) /\ In k (constraints_of B b).
Proof.
  unfold conflictb. rewrite existsb_exists. split.
  - intros [k [Ha Hb]]. apply cmem_In in Hb. eauto.
  - intros [k [Ha Hb]]. exists k. split; [exact Ha | apply cmem_In; exact Hb].
Qed.

Lemma seed_step (B : nat) (done : list candidate) (j : candidate) (st : store) :
  seed_inv B (sX st) done -> sY st = built_Y (B * B) B ->
  In j (all_cands (B * B)) ->
  if forallb (fun d => negb (conflictb B j d)) done
  then exists X1, seed_one j st = (setX X1 st, Ok tt) /\ seed_inv B X1 (j :: done)
  else exists st', seed_one j st = (st', Raise KeyError).
Proof.
  intros [Hwf [Hdom Hcont]] HY Hj.
  assert (HYj : dict_get candidate_eqb (sY st) j = Some (constraints_of B j)).
  { rewrite HY, dict_get_built_Y, (proj2 (set_mem_In j _) Hj). reflexivity. }
  rewrite <- HY in Hwf.
  destruct (forallb (fun d => negb (conflictb B j d)) done) eqn:Eok.
  - rewrite forallb_forall in Eok.
    destruct (select_run j st Hwf HYj (NoDup_constraints_of B j))
      as [X1 [cols [Hrun [Hwf1 [[Hs1 Hs2] _]]]]].
    { intros c Hc. apply Hdom. split; [exact (constraints_in_keys B j c Hj Hc)|].
      intros d Hd Hcd. specialize (Eok d Hd). apply negb_true_iff in Eok.
      assert (Hcf : conflictb B j d = true) by (apply conflictb_spec; eauto).
      congruence. }
    exists X1. split.
    + unfold seed_one, bind. rewrite Hrun. reflexivity.
    + split; [rewrite <- HY; exact Hwf1|]. split.
      { intro k.
      destruct (in_dec constraint_eq_dec k (constraints_of B j)) as [Hin|Hnin].
      * rewrite (Hs1 k Hin). split; [congruence|].
        intros [_ H]. exfalso. apply (H j); [left; reflexivity | exact Hin].
      * specialize (Hs2 k Hnin). split.
        -- intro H1.
           assert (Hp : dict_get constraint_eqb (sX st) k <> None).
           { destruct (dict_get constraint_eqb (sX st) k); [congruence|].
             destruct (dict_get constraint_eqb X1 k); [contradiction | congruence]. }
           apply Hdom in Hp. destruct Hp as [Hk Hd]. split; [exact Hk|].
           intros d [<-|Hdin]; [exact Hnin | exact (Hd d Hdin)].
        -- intros [Hk Hd].
           assert (Hp : dict_get constraint_eqb (sX st) k <> None).
           { apply Hdom. split; [exact Hk|]. intros d Hdin. apply Hd. right; exact Hdin. }
           destruct (dict_get constraint_eqb (sX st) k); [|congruence].
           destruct (dict_get constraint_eqb X1 k); [congruence | contradiction]. }
      intros k s1 Hk1 y.
      assert (Hnin : ~ In k (constraints_of B j))
        by (intro Hin; rewrite (Hs1 k Hin) in Hk1; discriminate).
      specialize (Hs2 k Hnin). rewrite Hk1 in Hs2.
      destruct (dict_get constraint_eqb (sX st) k) as [t|] eqn:Ek; [|contradiction].
      rewrite Hs2, (Hcont k t Ek y), HY. split.
      * intros [[Hm Hd] Hc]. split; [exact Hm|].
        intros d [<-|Hdin]; [|exact (Hd d Hdin)].
        destruct (conflictb B y j) eqn:Ecf; [|reflexivity]. exfalso.
        apply conflictb_spec in Ecf. destruct Ecf as [c [Hcy Hcj]].
        apply (Hc c Hcj). apply In_members in Hm.
        rewrite (Yf_built_Y (B * B) B y (proj1 Hm)). exact Hcy.
      * intros [Hm Hd]. split; [split; [exact Hm|] |].
        -- intros d Hdin. apply Hd. right; exact Hdin.
        -- intros c Hcj Hcy. apply In_members in Hm.
           rewrite (Yf_built_Y (B * B) B y (proj1 Hm)) in Hcy.
           assert (Ecf : conflictb B y j = true) by (apply conflictb_spec; eauto).
           rewrite (Hd j (or_introl eq_refl)) in Ecf. discriminate.
  - assert (Hex : exists c, In c (constraints_of B j) /\
                    dict_get constraint_eqb (sX st) c = None).
    { destruct (existsb (conflictb B j) done) eqn:Eex.
      - apply existsb_exists in Eex. destruct Eex as [d [Hd Hcf]].
        apply conflictb_spec in Hcf. destruct Hcf as [k [Hkj Hkd]].
        exists k. split; [exact Hkj|].
        destruct (dict_get constraint_eqb (sX st) k) eqn:Ek; [|reflexivity].
        assert (Hp : dict_get constraint_eqb (sX st) k <> None) by congruence.
        apply Hdom in Hp. destruct Hp as [_ Hp]. exfalso. exact (Hp d Hd Hkd).
      - exfalso. assert (Hall : forallb (fun d => negb (conflictb B j d)) done = true).
        { apply forallb_forall. intros d Hd. apply negb_true_iff.
          destruct (conflictb B j d) eqn:E; [|reflexivity].
          assert (existsb (conflictb B j) done = true)
            by (apply existsb_exists; eauto). congruence. }
        congruence. }
    destruct (select_loop_fails (constraints_of B j) st [] Hwf
                (NoDup_constraints_of B j) Hex) as [st' Hrun].
    exists st'. unfold seed_one, bind, select, bind, Y_get. rewrite HYj.
    change (foldM _ (constraints_of B j) [] st)
      with (foldM select_step (constraints_of B j) [] st).
    rewrite Hrun. reflexivity.
Qed.

Lemma X_only_seed_one (j : candidate) : X_only (seed_one j).
Proof.
  unfold seed_one. apply X_only_bind; [apply X_only_select | intros; apply X_only_ret].
Qed.

Lemma seed_list (B : nat) :
  forall cl done st,
    seed_inv B (sX st) done -> sY st = built_Y (B * B) B ->
    (forall j, In j cl -> In j (all_cands (B * B))) ->
    if seedable B done cl
    then exists X', forM_ cl seed_one st = (setX X' st, Ok tt) /\
                    seed_inv B X' (rev cl ++ done)
    else exists st', forM_ cl seed_one st = (st', Raise KeyError).
Proof.
  induction cl as [|j cl IH]; intros done st Hinv HY Hcl; simpl.
  - exists (sX st). unfold ret. rewrite setX_same. auto.
  - pose proof (seed_step B done j st Hinv HY (Hcl j (or_introl eq_refl))) as Hstep.
    destruct (forallb (fun d => negb (conflictb B j d)) done); simpl.
    + destruct Hstep as [X1 [Hrun Hinv1]].
      specialize (IH (j :: done) (setX X1 st) Hinv1 HY
                     (fun j' H => Hcl j' (or_intror H))).
      unfold bind. rewrite Hrun.
      destruct (seedable B (j :: done) cl).
      * destruct IH as [X' [Hrun' Hinv']]. exists X'. split; [exact Hrun'|].
        rewrite <- app_assoc. exact Hinv'.
      * exact IH.
    + destruct Hstep as [st' Hrun]. exists st'. unfold bind. rewrite Hrun. reflexivity.
Qed.

Lemma check_board_shape (board : grid) :
  check_board board = true ->
  Nat.sqrt (length board) * Nat.sqrt (length board) = length board /\
  forall row, In row board ->
    length row = length board /\ forall x, In x row -> x <= length board.
Proof.
  unfold check_board. rewrite andb_true_iff, Nat.eqb_eq, forallb_forall.
  intros [Hsq Hrows]. split; [exact Hsq|]. intros row Hrow.
  specialize (Hrows row Hrow). rewrite andb_true_iff, Nat.eqb_eq, forallb_forall in Hrows.
  destruct Hrows as [Hlen Hx]. split; [exact Hlen|].
  intros x Hin. apply Nat.leb_le. exact (Hx x Hin).
Qed.

Lemma board_get_run (board : grid) (st : store) (r c : nat) :
  check_board board = true -> sBoard st = board ->
  r < length board -> c < length board ->
  board_get r c st = (st, Ok (cell board r c)) /\ cell board r c <= length board.
Proof.
  intros Hchk HB Hr Hc. destruct (check_board_shape board Hchk) as [_ Hrows].
  unfold board_get, cell. rewrite HB.
  destruct (nth_error board r) as [rw|] eqn:Er;
    [|apply nth_error_None in Er; lia].
  pose proof (nth_error_In _ _ Er) as Hin.
  destruct (Hrows rw Hin) as [Hlen Hx].
  rewrite (nth_error_nth _ _ [] Er).
  destruct (nth_error rw c) as [v|] eqn:Ec;
    [|apply nth_error_None in Ec; lia].
  rewrite (nth_error_nth _ _ 0 Ec). split; [reflexivity|].
  apply Hx. exact (nth_error_In _ _ Ec).
Qed.

Lemma bind_ret_tt (m : M unit) (st : store) : (m ;; ret tt) st = m st.
Proof. unfold bind, ret. destruct (m st) as [st' [[]|e]]; reflexivity. Qed.

Lemma seed_as_clues (board : grid) (st : store) :
  check_board board = true -> sBoard st = board ->
  seed (length board) st = forM_ (clues board (length board)) seed_one st.
Proof.
  intros Hchk HB. unfold seed, clues. rewrite forM_flat_map.
  apply (forM_ext_inv (fun st => sBoard st = board)); [auto | | | exact HB].
  - intro row. apply X_only_forM_. intro j. apply X_only_seed_one.
  - intros row st1 Hrow HB1. apply in_seq in Hrow. rewrite forM_flat_map.
    apply (forM_ext_inv (fun st => sBoard st = board)); [auto | | | exact HB1].
    + intro col. apply X_only_forM_. intro j. apply X_only_seed_one.
    + intros col st2 Hcol HB2. apply in_seq in Hcol.
      destruct (board_get_run board st2 row col Hchk HB2) as [Hget _]; [lia | lia |].
      unfold bind at 1. rewrite Hget.
      destruct (cell board row col =? 0); simpl; [reflexivity|].
      rewrite bind_ret_tt. reflexivity.
Qed.

Lemma In_clues (board : grid) (N r c v : nat) :
  In (r, c, v) (clues board N) <->
  r < N /\ c < N /\ v <> 0 /\ cell board r c = v.
Proof.
  unfold clues. rewrite in_flat_map. split.
  - intros [r' [Hr H]]. apply in_flat_map in H. destruct H as [c' [Hc H]].
    apply in_seq in Hr, Hc.
    destruct (cell board r' c' =? 0) eqn:E; [destruct H|].
    destruct H as [H|[]]. inversion H; subst. apply Nat.eqb_neq in E. lia.
  - intros [Hr [Hc [Hv E]]]. exists r. split; [apply in_seq; lia|].
    apply in_flat_map. exists c. split; [apply in_seq; lia|].
    rewrite E. rewrite (proj2 (Nat.eqb_neq v 0) Hv). left; reflexivity.
Qed.

Lemma clues_in_cands (board : grid) (j : candidate) :
  check_board board = true ->
  In j (clues board (length board)) -> In j (all_cands (length board)).
Proof.
  intros Hchk Hj. destruct j as [[r c] v]. apply In_clues in Hj.
  destruct Hj as [Hr [Hc [Hv E]]]. apply In_all_cands.
  destruct (board_get_run board (initial_store board) r c Hchk eq_refl Hr Hc) as [_ Hle].
  lia.
Qed.

Lemma seed_inv_built (B : nat) (X : dictX) :
  dict_keys X = all_keys (B * B) ->
  (forall k, In k (all_keys (B * B)) ->
     dict_get constraint_eqb X k = Some (members (B * B) B k)) ->
  seed_inv B X [].
Proof.
  intros Hkeys Hget. split; [exact (built_wf B X Hkeys Hget)|]. split.
  - intro k. rewrite <- (dict_get_keys constraint_eqb_eq), Hkeys.
    split; [intro H; split; [exact H | intros d []] | tauto].
  - intros k s Hk j.
    assert (Hin : In k (all_keys (B * B))).
    { rewrite <- Hkeys. apply (dict_get_keys constraint_eqb_eq). congruence. }
    rewrite (Hget k Hin) in Hk. injection Hk as <-.
    split; [intro H; split; [exact H | intros d []] | tauto].
Qed.

(** What [prepare] does on a checked board: the indices are built, and the
    clues are seeded unless two of them conflict. *)
Lemma prepare_run (board : grid) :
  check_board board = true ->
  if seedable (Nat.sqrt (length board)) [] (clues board (length board))
  then exists X,
         prepare (length board) (initial_store board)
         = (mkStore X (built_Y (length board) (Nat.sqrt (length board))) [] board,
            Ok tt) /\
         seed_inv (Nat.sqrt (length board)) X (rev (clues board (length board)))
  else exists st',
         prepare (length board) (initial_store board) = (st', Raise InvalidBoard).
Proof.
  intros Hchk. destruct (check_board_shape board Hchk) as [Hsq _].
  remember (Nat.sqrt (length board)) as B eqn:EB.
  destruct (build_run B (initial_store board) eq_refl eq_refl)
    as [X0 [Hbuild [Hkeys Hget]]].
  pose proof (seed_list B (clues board (length board)) []
                (setX X0 (setY (built_Y (B * B) B) (initial_store board)))) as Hseed.
  assert (Hinv0 : seed_inv B X0 []) by (apply seed_inv_built; assumption).
  specialize (Hseed Hinv0 eq_refl).
  rewrite Hsq in Hbuild, Hseed.
  specialize (Hseed (fun j => clues_in_cands board j Hchk)).
  set (stb := setX X0 (setY (built_Y (length board) B) (initial_store board))) in *.
  assert (Hprep : prepare (length board) (initial_store board)
                  = except_KeyError (seed (length board)) InvalidBoard stb).
  { transitivity ((build (length board) B ;;
                   except_KeyError (seed (length board)) InvalidBoard)
                    (initial_store board)).
    - unfold prepare, build, bind. rewrite <- EB.
      destruct (init_X (length board) (initial_store board)) as [s1 [[]|e]];
        [|reflexivity].
      destruct (init_Y (length board) B s1) as [s2 [[]|e]]; [|reflexivity].
      destruct (populate_X s2) as [s3 [[]|e]]; reflexivity.
    - unfold bind. rewrite Hbuild. reflexivity. }
  rewrite Hprep. unfold except_KeyError.
  rewrite (seed_as_clues board stb Hchk eq_refl).
  destruct (seedable B [] (clues board (length board))).
  - destruct Hseed as [X' [Hrun Hinv]]. rewrite Hrun. exists X'.
    rewrite app_nil_r in Hinv. split; [reflexivity | exact Hinv].
  - destruct Hseed as [st' Hrun]. rewrite Hrun. exists st'. reflexivity.
Qed.

(** ** Writing a solution into a grid *)

Lemma list_set_spec {A} (l : list A) (a d : A) :
  forall (l' : list A) (i : nat),
    list_set l i a = Some l' ->
    length l' = length l /\
    forall i', nth i' l' d = if i' =? i then a else nth i' l d.
Proof.
  induction l as [|x l IH]; intros l' i; simpl; [discriminate|].
  destruct i as [|i].
  - intros [= <-]. split; [reflexivity|]. intros [|i']; reflexivity.
  - destruct (list_set l i a) as [r|] eqn:E; [|discriminate].
    intros [= <-]. destruct (IH r i E) as [Hlen Hnth].
    split; [simpl; congruence|]. intros [|i']; [reflexivity | apply Hnth].
Qed.

Lemma grid_set_cell {b b' : grid} {r c n : nat} :
  grid_set b r c n = Some b' ->
  forall r' c', cell b' r' c' =
    if (r' =? r) && (c' =? c) then n else cell b r' c'.
Proof.
  unfold grid_set. destruct (nth_error b r) as [rw|] eqn:Er; [|discriminate].
  destruct (list_set rw c n) as [rw'|] eqn:Ec; [|discriminate].
  intros Hb r' c'. unfold cell.
  destruct (list_set_spec b rw' [] _ _ Hb) as [_ Hrows].
  destruct (list_set_spec rw n 0 _ _ Ec) as [_ Hcols].
  rewrite Hrows. destruct (r' =? r) eqn:E; simpl.
  - apply Nat.eqb_eq in E. subst r'. rewrite Hcols.
    rewrite (nth_error_nth _ _ [] Er). reflexivity.
  - reflexivity.
Qed.

Lemma fill_cell (T : list candidate) :
  forall (b g : grid) (r c : nat),
    fill b T = Some g ->
    (forall v v', In (r, c, v) T -> In (r, c, v') T -> v = v') ->
    (forall v, In (r, c, v) T -> cell g r c = v) /\
    ((forall v, ~ In (r, c, v) T) -> cell g r c = cell b r c).
Proof.
  induction T as [|[[r0 c0] n] T IH]; intros b g r c Hfill Hfun; simpl in Hfill.
  - injection Hfill as <-. split; [intros v [] | reflexivity].
  - destruct (grid_set b r0 c0 n) as [b'|] eqn:Eset; [|discriminate].
    destruct (IH b' g r c Hfill) as [Hin Hout].
    { intros v v' Hv Hv'. apply Hfun; right; assumption. }
    pose proof (grid_set_cell Eset r c) as Hcell.
    split.
    + intros v [E|Hv]; [|exact (Hin v Hv)].
      inversion E; subst.
      destruct (existsb (fun t => (fst (fst t) =? r) && (snd (fst t) =? c)) T) eqn:Eex.
      * apply existsb_exists in Eex. destruct Eex as [[[r1 c1] v1] [Ht Hp]].
        apply andb_true_iff in Hp. simpl in Hp. rewrite !Nat.eqb_eq in Hp.
        destruct Hp; subst.
        rewrite (Hin v1 Ht). symmetry. apply Hfun; [left; reflexivity | right; exact Ht].
      * rewrite Hout.
        -- rewrite Hcell, !Nat.eqb_refl. reflexivity.
        -- intros v' Hv'.
           assert (existsb (fun t => (fst (fst t) =? r) && (snd (fst t) =? c)) T = true).
           { apply existsb_exists. exists (r, c, v'). split; [exact Hv'|].
             simpl. rewrite !Nat.eqb_refl. reflexivity. }
           congruence.
    + intro Hnone. rewrite Hout; [|intros v Hv; apply (Hnone v); right; exact Hv].
      rewrite Hcell.
      destruct ((r =? r0) && (c =? c0)) eqn:E; [|reflexivity].
      apply andb_true_iff in E. rewrite !Nat.eqb_eq in E. destruct E as [E1 E2].
      exfalso. apply (Hnone n). left. rewrite E1, E2. reflexivity.
Qed.

Lemma list_set_length {A} (l l' : list A) (i : nat) (a : A) :
  list_set l i a = Some l' -> length l' = length l.
Proof. intro H. exact (proj1 (list_set_spec l a a l' i H)). Qed.

Lemma grid_set_shape {b b' : grid} {r c n : nat} :
  grid_set b r c n = Some b' ->
  length b' = length b /\
  forall r', length (nth r' b' []) = length (nth r' b []).
Proof.
  unfold grid_set. destruct (nth_error b r) as [rw|] eqn:Er; [|discriminate].
  destruct (list_set rw c n) as [rw'|] eqn:Ec; [|discriminate].
  intros Hb. destruct (list_set_spec b rw' [] _ _ Hb) as [Hlen Hrows].
  split; [exact Hlen|]. intro r'. rewrite Hrows.
  destruct (r' =? r) eqn:E; [|reflexivity].
  apply Nat.eqb_eq in E. subst r'.
  rewrite (nth_error_nth _ _ [] Er). exact (list_set_length _ _ _ _ Ec).
Qed.

Lemma fill_shape (T : list candidate) :
  forall (b g : grid),
    fill b T = Some g ->
    length g = length b /\
    forall r, length (nth r g []) = length (nth r b []).
Proof.
  induction T as [|[[r0 c0] n] T IH]; intros b g Hfill; simpl in Hfill.
  - injection Hfill as <-. auto.
  - destruct (grid_set b r0 c0 n) as [b'|] eqn:Eset; [|discriminate].
    destruct (IH b' g Hfill) as [Hl Hr].
    destruct (grid_set_shape Eset) as [Hl' Hr'].
    split; [congruence|]. intro r. rewrite Hr. apply Hr'.
Qed.

(** ** From an exact cover to a solved grid *)

Lemma seedable_unique (B : nat) :
  forall cl done,
    seedable B done cl = true ->
    (forall s s' k, In s cl -> In s' cl ->
       In k (constraints_of B s) -> In k (constraints_of B s') -> s = s') /\
    (forall s d k, In s cl -> In d done ->
       In k (constraints_of B s) -> ~ In k (constraints_of B d)).
Proof.
  induction cl as [|j cl IH]; intros done H; simpl in H.
  - split; intros; contradiction.
  - apply andb_true_iff in H. destruct H as [Hj Hcl].
    rewrite forallb_forall in Hj.
    destruct (IH (j :: done) Hcl) as [IH1 IH2].
    assert (Hjd : forall d k, In d done ->
              In k (constraints_of B j) -> ~ In k (constraints_of B d)).
    { intros d k Hd Hk Hkd. specialize (Hj d Hd). apply negb_true_iff in Hj.
      assert (conflictb B j d = true) by (apply conflictb_spec; eauto). congruence. }
    split.
    + intros s s' k [<-|Hs] [<-|Hs'] Hk Hk'.
      * reflexivity.
      * exfalso. exact (IH2 s' j k Hs' (or_introl eq_refl) Hk' Hk).
      * exfalso. exact (IH2 s j k Hs (or_introl eq_refl) Hk Hk').
      * exact (IH1 s s' k Hs Hs' Hk Hk').
    + intros s d k [<-|Hs] Hd Hk.
      * exact (Hjd d k Hd Hk).
      * exact (IH2 s d k Hs (or_intror Hd) Hk).
Qed.

Lemma live_built (B : nat) (X : dictX) (t : candidate) :
  live X (built_Y (B * B) B) t ->
  In t (all_cands (B * B)) /\
  Yf (built_Y (B * B) B) t = constraints_of B t /\
  forall k, In k (constraints_of B t) -> dict_get constraint_eqb X k <> None.
Proof.
  intros [yr [HY [_ Hall]]]. rewrite dict_get_built_Y in HY.
  destruct (set_mem t (all_cands (B * B))) eqn:E; [|discriminate].
  apply set_mem_In in E. injection HY as <-.
  split; [exact E|]. split; [apply Yf_built_Y; exact E|].
  intros k Hk. destruct (Hall k Hk) as [s [Hs _]]. congruence.
Qed.

Lemma exact_cover_of_solution (B : nat) (X : dictX) (cl T : list candidate) :
  seed_inv B X (rev cl) -> seedable B [] cl = true ->
  (forall j, In j cl -> In j (all_cands (B * B))) ->
  solution_of X (built_Y (B * B) B) T ->
  exact_cover B (cl ++ T).
Proof.
  intros [Hwf [Hdom _]] Hseed Hcl [Ha [Hb Hd]].
  destruct (seedable_unique B cl [] Hseed) as [Huniq _].
  assert (HT : forall t k, In t T -> In k (constraints_of B t) ->
            forall d, In d cl -> ~ In k (constraints_of B d)).
  { intros t k Ht Hk d Hdin. destruct (live_built B X t (Hb t Ht)) as [_ [_ Hpres]].
    specialize (Hpres k Hk). apply Hdom in Hpres. destruct Hpres as [_ Hno].
    apply Hno. apply -> in_rev. exact Hdin. }
  split; [|split].
  - intros k Hk.
    destruct (existsb (fun d => cmem k (constraints_of B d)) cl) eqn:Eex.
    + apply existsb_exists in Eex. destruct Eex as [d [Hdin Hkd]].
      apply cmem_In in Hkd. exists d. split; [apply in_or_app; left; exact Hdin | exact Hkd].
    + assert (Hp : dict_get constraint_eqb X k <> None).
      { apply Hdom. split; [exact Hk|]. intros d Hdin Hkd.
        apply in_rev in Hdin.
        assert (existsb (fun d => cmem k (constraints_of B d)) cl = true).
        { apply existsb_exists. exists d. split; [exact Hdin | apply cmem_In; exact Hkd]. }
        congruence. }
      destruct (Ha k Hp) as [t [Ht Hkt]].
      destruct (live_built B X t (Hb t Ht)) as [_ [HYf _]]. rewrite HYf in Hkt.
      exists t. split; [apply in_or_app; right; exact Ht | exact Hkt].
  - intros s s' k Hs Hs' Hk Hk'.
    apply in_app_or in Hs. apply in_app_or in Hs'.
    destruct Hs as [Hs|Hs], Hs' as [Hs'|Hs'].
    + exact (Huniq s s' k Hs Hs' Hk Hk').
    + exfalso. exact (HT s' k Hs' Hk' s Hs Hk).
    + exfalso. exact (HT s k Hs Hk s' Hs' Hk').
    + destruct (live_built B X s (Hb s Hs)) as [_ [HYs _]].
      destruct (live_built B X s' (Hb s' Hs')) as [_ [HYs' _]].
      destruct (ForallOrdPairs_In Hd s s' Hs Hs') as [E|[Hdis|Hdis]]; [exact E | |];
        exfalso; unfold disjoint_rows in Hdis.
      * apply (Hdis k); [rewrite HYs; exact Hk | rewrite HYs'; exact Hk'].
      * apply (Hdis k); [rewrite HYs'; exact Hk' | rewrite HYs; exact Hk].
  - intros s Hs. apply in_app_or in Hs. destruct Hs as [Hs|Hs]; [exact (Hcl s Hs)|].
    exact (proj1 (live_built B X s (Hb s Hs))).
Qed.

Lemma count_one {A} (f : A -> nat) (ps : list A) (p0 : A) (v : nat) :
  NoDup ps -> In p0 ps -> f p0 = v ->
  (forall p, In p ps -> f p = v -> p = p0) ->
  count v (map f ps) = 1.
Proof.
  unfold count. induction ps as [|p ps IH]; intros Hnd Hin Hv Huniq; [destruct Hin|].
  inversion Hnd as [|? ? Hp Hps]; subst. simpl.
  destruct Hin as [->|Hin].
  - rewrite Nat.eqb_refl. simpl. f_equal.
    assert (Hnone : forall q, In q ps -> f q <> f p0).
    { intros q Hq E. assert (q = p0) by (apply Huniq; [right; exact Hq | exact E]).
      subst q. contradiction. }
    clear -Hnone. induction ps as [|q ps IH]; [reflexivity|]. simpl.
    destruct (f p0 =? f q) eqn:E.
    + apply Nat.eqb_eq in E. exfalso. apply (Hnone q); [left; reflexivity | congruence].
    + apply IH. intros q' Hq'. apply Hnone. right; exact Hq'.
  - assert (Hne : f p0 <> f p).
    { intro E. assert (p = p0) by (apply Huniq; [left; reflexivity | congruence]).
      subst p. contradiction. }
    rewrite (proj2 (Nat.eqb_neq _ _) Hne).
    apply IH; try assumption; try reflexivity.
    intros q Hq. apply Huniq. right; exact Hq.
Qed.

Section Cover.
Variable B : nat.
Variable g : grid.
Variable sel : list candidate.
Hypothesis Hcover : exact_cover B sel.
Hypothesis Hcells : forall r c v, In (r, c, v) sel -> cell g r c = v.

Lemma cell_in_sel (r c : nat) :
  r < B * B -> c < B * B -> In (r, c, cell g r c) sel.
Proof.
  intros Hr Hc. destruct Hcover as [E1 _].
  destruct (E1 (rowcol, r, c)) as [[[r0 c0] v0] [Hs Hk]];
    [apply In_all_keys; lia|].
  simpl in Hk. destruct Hk as [E|[E|[E|[E|[]]]]]; inversion E; subst.
  rewrite (Hcells _ _ _ Hs). exact Hs.
Qed.

Lemma cell_range (r c : nat) :
  r < B * B -> c < B * B -> 1 <= cell g r c <= B * B.
Proof.
  intros Hr Hc. destruct Hcover as [_ [_ E3]].
  pose proof (E3 _ (cell_in_sel r c Hr Hc)) as H. apply In_all_cands in H. lia.
Qed.

Lemma unit_each_once (ps : list (nat * nat)) (key : nat -> constraint) :
  NoDup ps ->
  (forall v, 1 <= v <= B * B -> In (key v) (all_keys (B * B))) ->
  (forall r c v v', r < B * B -> c < B * B ->
     (In (key v) (constraints_of B (r, c, v')) <-> v' = v /\ In (r, c) ps)) ->
  (forall p, In p ps -> fst p < B * B /\ snd p < B * B) ->
  each_once (B * B) (values g ps) = true.
Proof.
  intros Hnd Hkey Hiff Hrange. unfold each_once. apply forallb_forall.
  intros v Hv. apply in_seq in Hv. apply Nat.eqb_eq.
  destruct Hcover as [E1 [E2 E3]].
  destruct (E1 (key v)) as [[[r0 c0] v0] [Hs Hk]]; [apply Hkey; lia|].
  pose proof (E3 _ Hs) as Hin. apply In_all_cands in Hin.
  destruct Hin as [Hr0 [Hc0 _]].
  apply (Hiff r0 c0 v v0 Hr0 Hc0) in Hk. destruct Hk as [-> Hp0].
  unfold values.
  apply (count_one (fun p => cell g (fst p) (snd p)) ps (r0, c0)); try assumption.
  - simpl. exact (Hcells _ _ _ Hs).
  - intros [r c] Hp Hval. simpl in Hval.
    destruct (Hrange _ Hp) as [Hr Hc]. simpl in Hr, Hc.
    pose proof (cell_in_sel r c Hr Hc) as Hsel. rewrite Hval in Hsel.
    assert (Hk : In (key v) (constraints_of B (r, c, v)))
      by (apply (Hiff r c v v Hr Hc); auto).
    assert (Hk0 : In (key v) (constraints_of B (r0, c0, v)))
      by (apply (Hiff r0 c0 v v Hr0 Hc0); auto).
    pose proof (E2 _ _ _ Hsel Hs Hk Hk0) as E. inversion E. reflexivity.
Qed.
End Cover.

Lemma NoDup_row_cells (N r : nat) : NoDup (row_cells N r).
Proof.
  unfold row_cells. apply Injective_map_NoDup; [|apply seq_NoDup].
  intros x y E. inversion E. reflexivity.
Qed.

Lemma NoDup_col_cells (N c : nat) : NoDup (col_cells N c).
Proof.
  unfold col_cells. apply Injective_map_NoDup; [|apply seq_NoDup].
  intros x y E. inversion E. reflexivity.
Qed.

Lemma In_row_cells (N r r' c : nat) : In (r', c) (row_cells N r) <-> r' = r /\ c < N.
Proof.
  unfold row_cells. rewrite in_map_iff. split.
  - intros [x [E Hx]]. inversion E; subst. apply in_seq in Hx. lia.
  - intros [-> Hc]. exists c. split; [reflexivity | apply in_seq; lia].
Qed.

Lemma In_col_cells (N c r c' : nat) : In (r, c') (col_cells N c) <-> c' = c /\ r < N.
Proof.
  unfold col_cells. rewrite in_map_iff. split.
  - intros [x [E Hx]]. inversion E; subst. apply in_seq in Hx. lia.
  - intros [-> Hc]. exists r. split; [reflexivity | apply in_seq; lia].
Qed.

Lemma In_all_cells (N r c : nat) : In (r, c) (all_cells N) <-> r < N /\ c < N.
Proof.
  unfold all_cells. rewrite in_flat_map. split.
  - intros [x [Hx H]]. apply In_row_cells in H. apply in_seq in Hx. lia.
  - intros [Hr Hc]. exists r. split; [apply in_seq; lia | apply In_row_cells; auto].
Qed.

Lemma NoDup_all_cells (N : nat) : NoDup (all_cells N).
Proof.
  unfold all_cells. apply NoDup_flat_map; [apply seq_NoDup | |].
  - intros r _. apply NoDup_row_cells.
  - intros r r' [x y] _ _ H H'. apply In_row_cells in H, H'. lia.
Qed.

Lemma In_block_cells (N B b r c : nat) :
  In (r, c) (block_cells N B b) <-> (r < N /\ c < N) /\ blc B r c = b.
Proof.
  unfold block_cells. rewrite filter_In, In_all_cells. simpl.
  rewrite Nat.eqb_eq. reflexivity.
Qed.

Lemma grid_of_cover (B : nat) (g : grid) (sel : list candidate) :
  exact_cover B sel ->
  length g = B * B ->
  (forall r, r < B * B -> length (nth r g []) = B * B) ->
  (forall r c v, In (r, c, v) sel -> cell g r c = v) ->
  solved (B * B) B g = true.
Proof.
  intros Hcover Hlen Hrows Hcells. unfold solved, shaped.
  assert (Hrow : forall row, In row g -> exists r, r < B * B /\ row = nth r g []).
  { intros row Hin. destruct (In_nth g row [] Hin) as [r [Hr E]].
    exists r. split; [lia | congruence]. }
  repeat (apply andb_true_iff; split).
  - apply Nat.eqb_eq. exact Hlen.
  - apply forallb_forall. intros row Hin. apply Nat.eqb_eq.
    destruct (Hrow row Hin) as [r [Hr ->]]. exact (Hrows r Hr).
  - apply forallb_forall. intros row Hin.
    destruct (Hrow row Hin) as [r [Hr ->]].
    apply forallb_forall. intros x Hx.
    destruct (In_nth _ x 0 Hx) as [c [Hc E]]. rewrite (Hrows r Hr) in Hc.
    pose proof (cell_range B g sel Hcover Hcells r c Hr Hc) as Hrange.
    unfold cell in Hrange. rewrite E in Hrange.
    apply andb_true_iff. split; apply Nat.leb_le; lia.
  - apply forallb_forall. intros i Hi. apply in_seq in Hi.
    repeat (apply andb_true_iff; split).
    + apply (unit_each_once B g sel Hcover Hcells (row_cells (B * B) i)
               (fun v => (rownum, i, v))).
      * apply NoDup_row_cells.
      * intros v Hv. apply In_all_keys. lia.
      * intros r c v v' Hr Hc. rewrite In_row_cells. simpl. split.
        -- intros [E|[E|[E|[E|[]]]]]; inversion E; subst. auto.
        -- intros [-> [-> _]]. auto.
      * intros [r c] Hp. apply In_row_cells in Hp. simpl. lia.
    + apply (unit_each_once B g sel Hcover Hcells (col_cells (B * B) i)
               (fun v => (colnum, i, v))).
      * apply NoDup_col_cells.
      * intros v Hv. apply In_all_keys. lia.
      * intros r c v v' Hr Hc. rewrite In_col_cells. simpl. split.
        -- intros [E|[E|[E|[E|[]]]]]; inversion E; subst. auto.
        -- intros [-> [-> _]]. auto.
      * intros [r c] Hp. apply In_col_cells in Hp. simpl. lia.
    + apply (unit_each_once B g sel Hcover Hcells (block_cells (B * B) B i)
               (fun v => (blcnum, i, v))).
      * apply NoDup_filter, NoDup_all_cells.
      * intros v Hv. apply In_all_keys. lia.
      * intros r c v v' Hr Hc. rewrite In_block_cells. simpl. split.
        -- intros [E|[E|[E|[E|[]]]]]; inversion E; subst. auto.
        -- intros [-> [_ <-]]. auto 6.
      * intros [r c] Hp. apply In_block_cells in Hp. simpl. lia.
Qed.

Lemma consume_In (ys : list store) (fin : store * result unit) (g : grid) :
  In g (fst (consume ys fin)) ->
  exists y, In y ys /\ fill (sBoard y) (sSolution y) = Some g.
Proof.
  induction ys as [|y ys IH]; simpl; [intros []|].
  destruct (fill (sBoard y) (sSolution y)) as [b|] eqn:E; [|intros []].
  destruct (consume ys fin) as [gs r]. simpl in *.
  intros [<-|H].
  - exists y. auto.
  - destruct (IH H) as [y' [Hy' Hf]]. exists y'. auto.
Qed.

Lemma solve_yields (board : grid) (g : grid) :
  check_board board = true ->
  In g (fst (solve board)) ->
  exists T,
    fill board T = Some g /\
    exact_cover (Nat.sqrt (length board)) (clues board (length board) ++ T).
Proof.
  intros Hchk Hin. unfold solve in Hin.
  pose proof (prepare_run board Hchk) as Hprep.
  destruct (check_board_shape board Hchk) as [Hsq _].
  destruct (seedable (Nat.sqrt (length board)) [] (clues board (length board))) eqn:Eseed.
  2:{ destruct Hprep as [st' Hrun]. rewrite Hrun in Hin. destruct Hin. }
  destruct Hprep as [X [Hrun Hinv]]. rewrite Hrun in Hin.
  remember (Nat.sqrt (length board)) as B eqn:EB.
  set (st := mkStore X (built_Y (length board) B) [] board) in *.
  destruct (attempt (S (length (sX st))) (setSolution [] st)) as [ys fin] eqn:Eatt.
  destruct fin as [st' r].
  destruct (consume_In ys (st', r) g Hin) as [y [Hy Hfill]].
  assert (Hwf : index_wf X (built_Y (length board) B)).
  { destruct Hinv as [Hwf _]. rewrite Hsq in Hwf. exact Hwf. }
  destruct (attempt_sound (S (length (sX st))) (setSolution [] st) ys st' r)
    as [Hys _]; [exact Hwf | simpl; lia | exact Eatt |].
  destruct (attempt_frame _ _ _ _ _ Eatt) as [_ [_ [Hfr _]]].
  destruct (Hys y Hy) as [T [HT Hsol]]. destruct (Hfr y Hy) as [_ HB].
  simpl in HT, Hsol, HB. rewrite HT, HB in Hfill.
  exists T. split; [exact Hfill|].
  rewrite <- Hsq in Hsol.
  assert (Hcl : forall j, In j (clues board (length board)) -> In j (all_cands (B * B))).
  { intros j Hj. rewrite Hsq. exact (clues_in_cands board j Hchk Hj). }
  exact (exact_cover_of_solution B X _ T Hinv Eseed Hcl Hsol).
Qed.

Lemma solve_cells (board g : grid) (T : list candidate) :
  check_board board = true ->
  fill board T = Some g ->
  exact_cover (Nat.sqrt (length board)) (clues board (length board) ++ T) ->
  forall r c v, In (r, c, v) (clues board (length board) ++ T) -> cell g r c = v.
Proof.
  intros Hchk Hfill [_ [E2 _]] r c v Hin.
  assert (Hfun : forall v1 v2, In (r, c, v1) T -> In (r, c, v2) T -> v1 = v2).
  { intros v1 v2 H1 H2.
    assert (E : (r, c, v1) = (r, c, v2)).
    { apply (E2 _ _ (rowcol, r, c)); try (apply in_or_app; right; assumption);
        left; reflexivity. }
    inversion E. reflexivity. }
  destruct (fill_cell T board g r c Hfill Hfun) as [HinT HoutT].
  destruct (in_dec candidate_eq_dec (r, c, v) T) as [HT|HT]; [exact (HinT v HT)|].
  assert (Hnone : forall v', ~ In (r, c, v') T).
  { intros v' Hv'.
    assert (E : (r, c, v') = (r, c, v)).
    { apply (E2 _ _ (rowcol, r, c)); [apply in_or_app; right; exact Hv' | exact Hin | |];
        left; reflexivity. }
    inversion E; subst. contradiction. }
  rewrite (HoutT Hnone).
  apply in_app_or in Hin. destruct Hin as [Hcl|Hcl]; [|contradiction].
  apply In_clues in Hcl. tauto.
Qed.

(** * The claims *)

(** ** Soundness of the solutions *)

Lemma board_rows (board : grid) (r : nat) :
  check_board board = true -> r < length board ->
  length (nth r board []) = length board.
Proof.
  intros Hchk Hr. destruct (check_board_shape board Hchk) as [_ Hrows].
  apply Hrows. apply nth_In. exact Hr.
Qed.

(** C1.  Every grid that [solve] yields on a checked board is an [N] x [N]
    grid of values [1..N] in which each row, each column and each block
    holds every value exactly once, and every clue of the board is found
    unchanged in it.  (Where seeding fails nothing is yielded, so the
    statement needs no hypothesis on the seeding; grids yielded before the
    generator stops at an exception are covered as well.) *)
Theorem solve_sound (board g : grid) :
  check_board board = true ->
  In g (fst (solve board)) ->
  solved (length board) (Nat.sqrt (length board)) g = true /\
  keeps_clues (length board) board g = true.
Proof.
  intros Hchk Hin.
  destruct (solve_yields board g Hchk Hin) as [T [Hfill Hcover]].
  pose proof (solve_cells board g T Hchk Hfill Hcover) as Hcells.
  destruct (fill_shape T board g Hfill) as [Hlen Hrows].
  destruct (check_board_shape board Hchk) as [Hsq _].
  split.
  - rewrite <- Hsq at 1. apply (grid_of_cover _ g _ Hcover).
    + rewrite Hsq. exact Hlen.
    + intros r Hr. rewrite Hsq in *. rewrite Hrows. exact (board_rows board r Hchk Hr).
    + exact Hcells.
  - unfold keeps_clues. apply forallb_forall. intros r Hr.
    apply forallb_forall. intros c Hc. apply in_seq in Hr, Hc.
    destruct (cell board r c =? 0) eqn:E; [reflexivity|]. simpl.
    apply Nat.eqb_eq. apply Hcells. apply in_or_app. left.
    apply In_clues. apply Nat.eqb_neq in E. repeat split; try lia.
Qed.

Lemma solve_sound_witness :
  solved 4 2 [[1;2;3;4];[3;4;1;2];[2;1;4;3];[4;3;2;1]] = true /\
  keeps_clues 4 [[1;2;3;4];[3;4;1;2];[2;1;4;3];[4;3;2;0]]
                [[1;2;3;4];[3;4;1;2];[2;1;4;3];[4;3;2;1]] = true.
Proof.
  apply (solve_sound [[1;2;3;4];[3;4;1;2];[2;1;4;3];[4;3;2;0]]
                     [[1;2;3;4];[3;4;1;2];[2;1;4;3];[4;3;2;1]]).
  - vm_compute. reflexivity.
  - vm_compute. left. reflexivity.
Defined.

(** ** Conflicting clues *)

Lemma NoDup_clues (board : grid) (N : nat) : NoDup (clues board N).
Proof.
  unfold clues. apply NoDup_flat_map; [apply seq_NoDup | |].
  - intros r _. apply NoDup_flat_map; [apply seq_NoDup | |].
    + intros c _. destruct (cell board r c =? 0); repeat constructor. intros [].
    + intros c c' b _ _ H H'.
      destruct (cell board r c =? 0); [destruct H|].
      destruct (cell board r c' =? 0); [destruct H'|].
      destruct H as [<-|[]]. destruct H' as [E|[]]. inversion E. reflexivity.
  - intros r r' b _ _ H H'. apply in_flat_map in H, H'.
    destruct H as [c [_ H]], H' as [c' [_ H']].
    destruct (cell board r c =? 0); [destruct H|].
    destruct (cell board r' c' =? 0); [destruct H'|].
    destruct H as [<-|[]]. destruct H' as [E|[]]. inversion E. reflexivity.
Qed.

Lemma clash_shares (B : nat) (a b : candidate) :
  clash B a b -> conflictb B a b = true.
Proof.
  destruct a as [[r1 c1] v1], b as [[r2 c2] v2]. intros [-> H].
  apply conflictb_spec. destruct H as [->|[->|E]].
  - exists (rownum, r2, v2). simpl. auto.
  - exists (colnum, c2, v2). simpl. auto.
  - exists (blcnum, blc B r2 c2, v2). simpl. rewrite E. auto 6.
Qed.

Lemma shares_clash (board : grid) (N B : nat) (a b : candidate) :
  In a (clues board N) -> In b (clues board N) -> a <> b ->
  conflictb B a b = true -> clash B a b.
Proof.
  destruct a as [[r1 c1] v1], b as [[r2 c2] v2]. intros Ha Hb Hne Hc.
  apply In_clues in Ha, Hb. apply conflictb_spec in Hc.
  destruct Hc as [k [Hka Hkb]]. simpl in Hka, Hkb.
  destruct Hka as [<-|[<-|[<-|[<-|[]]]]];
    destruct Hkb as [E|[E|[E|[E|[]]]]]; inversion E; subst; simpl; auto.
  exfalso. apply Hne. f_equal. destruct Ha as [_ [_ [_ <-]]]. tauto.
Qed.

Lemma seedable_intro (B : nat) :
  forall cl done,
    NoDup cl ->
    (forall a b, In a cl -> In b cl -> a <> b -> conflictb B a b = false) ->
    (forall a d, In a cl -> In d done -> conflictb B a d = false) ->
    seedable B done cl = true.
Proof.
  induction cl as [|j cl IH]; intros done Hnd Hpair Hdone; simpl; [reflexivity|].
  inversion Hnd as [|? ? Hj Hcl]; subst.
  apply andb_true_iff. split.
  - apply forallb_forall. intros d Hd. apply negb_true_iff.
    apply Hdone; [left; reflexivity | exact Hd].
  - apply IH; [exact Hcl | |].
    + intros a b Ha Hb. apply Hpair; right; assumption.
    + intros a d Ha [<-|Hd].
      * apply Hpair; [right; exact Ha | left; reflexivity |].
        intros ->. contradiction.
      * apply Hdone; [right; exact Ha | exact Hd].
Qed.

(** C3.  On a checked board, two distinct clues holding the same value in
    one row, column or block make [solve] end with the [InvalidBoard]
    exception, raised by the seeding, with nothing yielded; and where no two
    distinct clues clash, the seeding completes. *)
Theorem seeding_detects_conflicts (board : grid) :
  check_board board = true ->
  ((exists a b, In a (clues board (length board)) /\
                In b (clues board (length board)) /\
                a <> b /\ clash (Nat.sqrt (length board)) a b) ->
   fst (solve board) = [] /\ snd (snd (solve board)) = Raise InvalidBoard) /\
  ((forall a b, In a (clues board (length board)) ->
                In b (clues board (length board)) ->
                a <> b -> ~ clash (Nat.sqrt (length board)) a b) ->
   snd (prepare (length board) (initial_store board)) = Ok tt).
Proof.
  intro Hchk. pose proof (prepare_run board Hchk) as Hprep. split.
  - intros [a [b [Ha [Hb [Hne Hclash]]]]].
    destruct (seedable (Nat.sqrt (length board)) [] (clues board (length board)))
      eqn:Eseed.
    + exfalso. destruct (seedable_unique _ _ _ Eseed) as [Huniq _].
      apply clash_shares in Hclash. apply conflictb_spec in Hclash.
      destruct Hclash as [k [Hka Hkb]]. exact (Hne (Huniq a b k Ha Hb Hka Hkb)).
    + destruct Hprep as [st' Hrun]. unfold solve. rewrite Hrun. auto.
  - intro Hok.
    rewrite seedable_intro in Hprep.
    + destruct Hprep as [X [Hrun _]]. rewrite Hrun. reflexivity.
    + apply NoDup_clues.
    + intros a b Ha Hb Hne.
      destruct (conflictb (Nat.sqrt (length board)) a b) eqn:E; [|reflexivity].
      exfalso. exact (Hok a b Ha Hb Hne (shares_clash board _ _ a b Ha Hb Hne E)).
    + intros a d _ [].
Qed.

Lemma seeding_detects_conflicts_witness :
  (fst (solve [[1;1;0;0];[0;0;0;0];[0;0;0;0];[0;0;0;0]]) = [] /\
   snd (snd (solve [[1;1;0;0];[0;0;0;0];[0;0;0;0];[0;0;0;0]])) = Raise InvalidBoard) /\
  snd (prepare 4 (initial_store [[1;0;0;0];[0;0;0;0];[0;0;0;0];[0;0;0;2]])) = Ok tt.
Proof.
  split.
  - apply (seeding_detects_conflicts [[1;1;0;0];[0;0;0;0];[0;0;0;0];[0;0;0;0]]).
    + vm_compute. reflexivity.
    + exists (0, 0, 1), (0, 1, 1). vm_compute.
      repeat split; auto. discriminate.
  - apply (seeding_detects_conflicts [[1;0;0;0];[0;0;0;0];[0;0;0;0];[0;0;0;2]]).
    + vm_compute. reflexivity.
    + intros a b Ha Hb Hne Hcl. vm_compute in Ha, Hb.
      destruct Ha as [<-|[<-|[]]]; destruct Hb as [<-|[<-|[]]];
        try (apply Hne; reflexivity); destruct Hcl as [E _]; discriminate.
Defined.

(** ** The executable checks are sound *)

Lemma nodupb_sound {A} (eqb : A -> A -> bool) (l : list A) :
  (forall a b, eqb a b = true <-> a = b) -> nodupb eqb l = true -> NoDup l.
Proof.
  intro Heq. induction l as [|a l IH]; simpl; [constructor|].
  rewrite andb_true_iff, negb_true_iff. intros [Ha Hl].
  constructor; [|exact (IH Hl)].
  intro Hin. assert (existsb (eqb a) l = true).
  { apply existsb_exists. exists a. split; [exact Hin | apply Heq; reflexivity]. }
  congruence.
Qed.

Lemma index_wfb_sound (X : dictX) (Y : dictY) :
  index_wfb X Y = true -> index_wf X Y.
Proof.
  unfold index_wfb. rewrite andb_true_iff, forallb_forall. intros [Hk He].
  split; [exact (nodupb_sound _ _ constraint_eqb_eq Hk)|].
  intros c s Hc. apply (dict_get_In constraint_eqb_eq) in Hc.
  specialize (He (c, s) Hc). simpl in He.
  rewrite andb_true_iff, forallb_forall in He. destruct He as [Hs Hj].
  split; [exact (nodupb_sound _ _ candidate_eqb_eq Hs)|].
  intros j Hin. specialize (Hj j Hin).
  destruct (dict_get candidate_eqb Y j) as [yj|]; [|discriminate].
  rewrite !andb_true_iff, forallb_forall in Hj. destruct Hj as [[Hn Hm] Hall].
  exists yj. split; [reflexivity|].
  split; [exact (nodupb_sound _ _ constraint_eqb_eq Hn)|].
  split; [apply cmem_In; exact Hm|].
  intros k Hkin. specialize (Hall k Hkin).
  destruct (dict_get constraint_eqb X k) as [s'|]; [|discriminate].
  exists s'. split; [reflexivity | apply set_mem_In; exact Hall].
Qed.

Lemma liveb_sound (X : dictX) (Y : dictY) (row : candidate) :
  liveb X Y row = true -> live X Y row.
Proof.
  unfold liveb, live. destruct (dict_get candidate_eqb Y row) as [yrow|]; [|discriminate].
  rewrite andb_true_iff, negb_true_iff, forallb_forall. intros [Hne Hall].
  exists yrow. split; [reflexivity|]. split; [intros ->; discriminate|].
  intros c Hc. specialize (Hall c Hc).
  destruct (dict_get constraint_eqb X c) as [s|]; [|discriminate].
  exists s. split; [reflexivity | apply set_mem_In; exact Hall].
Qed.

(** ** Cover and uncover *)

(** C4.  In a well-formed state (the invariant of every state that arises
    in a solve: [built_wf], [select_run], [attempt_sound]), for a candidate
    that is live under each of its constraints, [select] succeeds, the
    [deselect] that follows it succeeds, and [X] is then equal by content to
    what it was before the [select]: the same keys, each with a set of the
    same members.  (The order of the keys is not restored: [deselect]
    inserts the popped keys at the end.) *)
Theorem select_deselect_round_trip (st : store) (row : candidate) :
  index_wf (sX st) (sY st) -> live (sX st) (sY st) row ->
  exists cols st1 st2,
    select row st = (st1, Ok cols) /\
    deselect row cols st1 = (st2, Ok tt) /\
    content_eq (sX st) (sX st2).
Proof.
  intros Hwf [yr [HY [Hne Hall]]].
  assert (Hnd : NoDup yr).
  { destruct yr as [|c yr']; [congruence|].
    destruct (Hall c (or_introl eq_refl)) as [s [Hs Hrow]].
    destruct (wf_live Hwf Hs Hrow) as [yr2 [HY2 [Hnd _]]]. congruence. }
  destruct (select_run row st Hwf HY Hnd) as [X1 [cols [Hsel [Hwf1 [_ [_ [_ Hback]]]]]]].
  { intros c Hc. destruct (Hall c Hc) as [s [Hs _]]. congruence. }
  destruct (Hback (setX X1 st) eq_refl (content_eq_refl X1) (index_wf_nodups Hwf1))
    as [X2 [Hdes [Hc2 _]]].
  exists cols, (setX X1 st), (setX X2 (setX X1 st)). auto.
Qed.

Lemma select_deselect_round_trip_witness :
  exists cols st1 st2,
    select (0, 1, 2)
      (fst (prepare 4 (initial_store [[1;0;0;0];[0;0;1;0];[0;1;0;0];[0;0;0;2]])))
      = (st1, Ok cols) /\
    deselect (0, 1, 2) cols st1 = (st2, Ok tt) /\
    content_eq
      (sX (fst (prepare 4 (initial_store [[1;0;0;0];[0;0;1;0];[0;1;0;0];[0;0;0;2]]))))
      (sX st2).
Proof.
  apply select_deselect_round_trip.
  - apply index_wfb_sound. vm_compute. reflexivity.
  - apply liveb_sound. vm_compute. reflexivity.
Defined.

(** ** The partial solution *)

(** C9.  When [attempt] has run to exhaustion, the list [solution] holds
    what it held on entry, in the same order. *)
Theorem attempt_restores_solution (fuel : nat) (st : store) :
  snd (snd (attempt fuel st)) = Ok tt ->
  sSolution (fst (snd (attempt fuel st))) = sSolution st.
Proof.
  intro H. destruct (attempt fuel st) as [ys [st' r]] eqn:E. simpl in *.
  destruct (attempt_frame fuel st ys st' r E) as [_ [_ [_ HS]]]. exact (HS H).
Qed.

Lemma attempt_restores_solution_witness :
  sSolution
    (fst (snd (attempt 64
      (setSolution [(0, 0, 1)]
         (fst (prepare 4 (initial_store [[1;0;0;0];[0;0;0;0];[0;0;0;3];[0;0;0;2]])))))))
  = [(0, 0, 1)].
Proof.
  apply (attempt_restores_solution 64
    (setSolution [(0, 0, 1)]
       (fst (prepare 4 (initial_store [[1;0;0;0];[0;0;0;0];[0;0;0;3];[0;0;0;2]]))))).
  vm_compute. reflexivity.
Defined.

(** ** The choice of the constraint to branch on *)

Lemma scan_spec (entries : dictX) :
  forall i0 L i,
    L <> 1 -> scan entries i0 L = Some i ->
    (i0 = Some i /\ forall e, In e entries -> L <= length (snd e)) \/
    (exists pre s post,
       entries = pre ++ (i, s) :: post /\ length s < L /\
       (forall e, In e pre -> length s < length (snd e)) /\
       ((forall e, In e post -> length s <= length (snd e)) \/ length s = 1)).
Proof.
  induction entries as [|[a s0] rest IH]; intros i0 L i HL; simpl.
  - intro H. left. split; [exact H | intros e []].
  - destruct (length s0 <? L) eqn:Elt.
    + apply Nat.ltb_lt in Elt. destruct (length s0 =? 1) eqn:E1.
      * apply Nat.eqb_eq in E1. intros [= <-]. right.
        exists [], s0, rest. simpl. repeat split; auto. intros e [].
      * apply Nat.eqb_neq in E1. intro H.
        destruct (IH (Some a) (length s0) i E1 H)
          as [[[= <-] Hall] | [pre [s [post [-> [Hs [Hpre Hpost]]]]]]]; right.
        -- exists [], s0, rest. simpl. repeat split; auto. intros e [].
        -- exists ((a, s0) :: pre), s, post. simpl.
           split; [reflexivity|]. split; [lia|]. split; [|exact Hpost].
           intros e [<-|He]; [simpl; lia | exact (Hpre e He)].
    + apply Nat.ltb_ge in Elt.
      rewrite (proj2 (Nat.eqb_neq L 1) HL). intro H.
      destruct (IH i0 L i HL H)
        as [[Hi Hall] | [pre [s [post [-> [Hs [Hpre Hpost]]]]]]].
      * left. split; [exact Hi|]. intros e [<-|He]; [exact Elt | exact (Hall e He)].
      * right. exists ((a, s0) :: pre), s, post. simpl.
        split; [reflexivity|]. split; [exact Hs|]. split; [|exact Hpost].
        intros e [<-|He]; [simpl; lia | exact (Hpre e He)].
Qed.

(** C5, as amended.  When the scan of [attempt] binds a constraint, that
    constraint is an entry of [X] with fewer than 10 candidates and with
    fewer candidates than every entry before it in iteration order; and it
    has no more candidates than any entry after it, unless it has exactly
    one candidate, in which case the scan stopped at it. *)
Theorem choose_spec (X : dictX) (i : constraint) :
  choose X = Some i ->
  exists pre s post,
    X = pre ++ (i, s) :: post /\ length s < 10 /\
    (forall e, In e pre -> length s < length (snd e)) /\
    ((forall e, In e post -> length s <= length (snd e)) \/ length s = 1).
Proof.
  intro H. unfold choose in H.
  destruct (scan_spec X None 10 i) as [[Hi _] | Hex];
    [lia | exact H | discriminate | exact Hex].
Qed.

Lemma choose_spec_witness :
  exists pre s post,
    sX (fst (prepare 4 (initial_store [[1;2;3;0];[0;0;0;0];[0;0;0;0];[0;3;4;2]])))
      = pre ++ ((colnum, 0, 2), s) :: post /\
    length s < 10 /\
    (forall e, In e pre -> length s < length (snd e)) /\
    ((forall e, In e post -> length s <= length (snd e)) \/ length s = 1).
Proof.
  apply (choose_spec
           (sX (fst (prepare 4 (initial_store [[1;2;3;0];[0;0;0;0];[0;0;0;0];[0;3;4;2]]))))
           (colnum, 0, 2)).
  vm_compute. reflexivity.
Defined.

(** C5, as stated, fails: on this checked board, seeded without error, the
    first scan of [attempt] binds column constraint [('colnum', 0, 2)],
    which has one candidate, although cell constraint [('rowcol', 3, 0)],
    later in iteration order, has none. *)
Lemma choose_not_minimum :
  check_board [[1;2;3;0];[0;0;0;0];[0;0;0;0];[0;3;4;2]] = true /\
  snd (prepare 4 (initial_store [[1;2;3;0];[0;0;0;0];[0;0;0;0];[0;3;4;2]])) = Ok tt /\
  sX (fst (prepare 4 (initial_store [[1;2;3;0];[0;0;0;0];[0;0;0;0];[0;3;4;2]]))) <> [] /\
  ~ picks_minimum
      (sX (fst (prepare 4 (initial_store [[1;2;3;0];[0;0;0;0];[0;0;0;0];[0;3;4;2]])))).
Proof.
  split; [vm_compute; reflexivity|]. split; [vm_compute; reflexivity|].
  split; [vm_compute; discriminate|].
  intros [i [s [Hch [Hi Hmin]]]].
  vm_compute in Hch. injection Hch as <-.
  vm_compute in Hi. injection Hi as <-.
  assert (H : length [(2, 0, 2)] <= length (@nil candidate)).
  { apply (Hmin (rowcol, 3, 0) []). vm_compute. reflexivity. }
  inversion H.
Qed.

(** ** The indices as built *)

Lemma dict_keys_built_Y (N B : nat) : dict_keys (built_Y N B) = all_cands N.
Proof. unfold built_Y, dict_keys. rewrite map_map. simpl. apply map_id. Qed.

(** C7.  For a board of side [N = B * B], the three construction loops end
    normally; [Y] has [N * N * N] entries, its keys are the triples
    [(row, col, num)] with [row, col < N] and [1 <= num <= N], each mapped
    to its four constraints; [X] has [4 * N * N] entries, each constraint
    mapped to exactly [N] candidates, those that list it. *)
Theorem index_cardinalities (B : nat) (board : grid) :
  exists st,
    build (B * B) (Nat.sqrt (B * B)) (initial_store board) = (st, Ok tt) /\
    length (sY st) = B * B * (B * B) * (B * B) /\
    NoDup (dict_keys (sY st)) /\
    (forall row col num,
       In (row, col, num) (dict_keys (sY st)) <->
       row < B * B /\ col < B * B /\ 1 <= num <= B * B) /\
    (forall row col num yj,
       In ((row, col, num), yj) (sY st) ->
       yj = [(rowcol, row, col); (rownum, row, num); (colnum, col, num);
             (blcnum, B * (row / B) + col / B, num)]) /\
    length (sX st) = 4 * (B * B * (B * B)) /\
    NoDup (dict_keys (sX st)) /\
    (forall c s,
       In (c, s) (sX st) ->
       length s = B * B /\ NoDup s /\
       forall j, In j s <->
                 In j (dict_keys (sY st)) /\ In c (Yf (sY st) j)).
Proof.
  rewrite Nat.sqrt_square.
  destruct (build_run B (initial_store board) eq_refl eq_refl)
    as [X' [Hrun [Hkeys Hget]]].
  eexists. split; [exact Hrun|]. simpl.
  split; [unfold built_Y; rewrite length_map; apply length_all_cands|].
  split; [rewrite dict_keys_built_Y; apply NoDup_all_cands|].
  split; [intros; rewrite dict_keys_built_Y; apply In_all_cands|].
  split.
  { intros row col num yj H. unfold built_Y in H. apply in_map_iff in H.
    destruct H as [j [E _]]. inversion E; subst. reflexivity. }
  split; [rewrite <- dict_length_keys, Hkeys; apply length_all_keys|].
  split; [rewrite Hkeys; apply NoDup_all_keys|].
  intros c s Hin.
  assert (Hc : In c (all_keys (B * B))).
  { rewrite <- Hkeys. unfold dict_keys. apply in_map_iff. exists (c, s). auto. }
  apply (In_dict_get constraint_eqb_eq) in Hin;
    [|rewrite Hkeys; apply NoDup_all_keys].
  rewrite (Hget c Hc) in Hin. injection Hin as <-.
  split; [exact (length_members B c Hc)|].
  split; [apply NoDup_filter, NoDup_all_cands|].
  intro j. rewrite In_members, dict_keys_built_Y. split.
  - intros [Hj Hcj]. split; [exact Hj|]. rewrite (Yf_built_Y _ _ j Hj). exact Hcj.
  - intros [Hj Hcj]. split; [exact Hj|]. rewrite (Yf_built_Y _ _ j Hj) in Hcj. exact Hcj.
Qed.

(** ** What the core leaves alone *)

Lemma keeps_ret {A T} (proj : store -> T) (a : A) : keeps proj (ret a).
Proof. intro st. reflexivity. Qed.

Lemma keeps_bind {A C T} (proj : store -> T) (m : M A) (f : A -> M C) :
  keeps proj m -> (forall a, keeps proj (f a)) -> keeps proj (bind m f).
Proof.
  intros Hm Hf st. unfold bind. specialize (Hm st).
  destruct (m st) as [st1 [a|e]]; simpl in *; [|exact Hm].
  rewrite (Hf a st1). exact Hm.
Qed.

Lemma keeps_forM_ {A T} (proj : store -> T) (l : list A) (f : A -> M unit) :
  (forall a, keeps proj (f a)) -> keeps proj (forM_ l f).
Proof.
  intro Hf. induction l as [|a l IH]; simpl.
  - apply keeps_ret.
  - apply keeps_bind; [apply Hf | intros _; exact IH].
Qed.

Lemma keeps_X_only {A T} (proj : store -> T) (m : M A) :
  (forall X st, proj (setX X st) = proj st) -> X_only m -> keeps proj m.
Proof.
  intros Hp Hm st. destruct (Hm st) as [X' E]. rewrite E. apply Hp.
Qed.

Lemma keeps_except {A T} (proj : store -> T) (m : M A) (e : exn) :
  keeps proj m -> keeps proj (except_KeyError m e).
Proof.
  intros Hm st. unfold except_KeyError. specialize (Hm st).
  destruct (m st) as [st1 [a|[]]]; exact Hm.
Qed.

Lemma keeps_board_prepare (N : nat) : keeps sBoard (prepare N).
Proof.
  unfold prepare. apply keeps_bind.
  { unfold init_X. apply keeps_forM_. intro i. apply keeps_forM_. intro j.
    repeat (apply keeps_bind; [intro st; reflexivity | intros _]).
    intro st; reflexivity. }
  intros _. apply keeps_bind.
  { unfold init_Y. apply keeps_forM_. intro r. apply keeps_forM_. intro c.
    apply keeps_forM_. intro n. intro st. reflexivity. }
  intros _. apply keeps_bind.
  { intro st. unfold populate_X.
    apply (keeps_forM_ sBoard (sY st)). intro e. apply keeps_forM_. intro i.
    apply keeps_X_only; [reflexivity | apply (X_only_X_upd (fun s j => Some (set_add s j)))]. }
  intros _. apply keeps_except. unfold seed.
  apply keeps_forM_. intro r. apply keeps_forM_. intro c.
  apply keeps_bind.
  { intro st. unfold board_get.
    destruct (nth_error (sBoard st) r) as [rw|]; [|reflexivity].
    destruct (nth_error rw c); reflexivity. }
  intro num. destruct (num =? 0); [apply keeps_ret|].
  apply keeps_X_only; [reflexivity | apply X_only_seed_one].
Qed.

Lemma consume_final (ys : list store) (fin : store * result unit) :
  snd (consume ys fin) = fin \/
  exists y, In y ys /\ snd (consume ys fin) = (y, Raise IndexError).
Proof.
  induction ys as [|y ys IH]; simpl; [left; reflexivity|].
  destruct (fill (sBoard y) (sSolution y)).
  - destruct (consume ys fin) as [gs r]. simpl in *.
    destruct IH as [IH|[y' [Hy' IH]]]; [left; exact IH | right; exists y'; auto].
  - right. exists y. auto.
Qed.

(** C8.  [select] and [deselect] change nothing but [X]; [attempt] leaves
    [Y] and the board as they were, at every [yield] and at its end; and
    the board that [solve] was given is the board it holds at its end: the
    grids it yields are values of their own. *)
Theorem core_frame :
  (forall row st,
     sY (fst (select row st)) = sY st /\
     sBoard (fst (select row st)) = sBoard st /\
     sSolution (fst (select row st)) = sSolution st) /\
  (forall row cols st,
     sY (fst (deselect row cols st)) = sY st /\
     sBoard (fst (deselect row cols st)) = sBoard st /\
     sSolution (fst (deselect row cols st)) = sSolution st) /\
  (forall fuel st,
     sY (fst (snd (attempt fuel st))) = sY st /\
     sBoard (fst (snd (attempt fuel st))) = sBoard st /\
     forall y, In y (fst (attempt fuel st)) ->
       sY y = sY st /\ sBoard y = sBoard st) /\
  (forall board, sBoard (fst (snd (solve board))) = board).
Proof.
  split; [|split; [|split]].
  - intros row st. destruct (X_only_select row st) as [X' E]. rewrite E. auto.
  - intros row cols st. destruct (X_only_deselect row cols st) as [X' E].
    rewrite E. auto.
  - intros fuel st. destruct (attempt fuel st) as [ys [st' r]] eqn:E.
    destruct (attempt_frame fuel st ys st' r E) as [HY [HB [Hys _]]]. auto.
  - intro board. unfold solve.
    pose proof (keeps_board_prepare (length board) (initial_store board)) as Hprep.
    destruct (prepare (length board) (initial_store board)) as [st [[]|e]];
      simpl in Hprep; [|exact Hprep].
    destruct (attempt (S (length (sX st))) (setSolution [] st)) as [ys fin] eqn:E.
    destruct fin as [st' r].
    destruct (attempt_frame _ _ _ _ _ E) as [_ [HB [Hys _]]]. simpl in HB, Hys.
    destruct (consume_final ys (st', r)) as [Hfin|[y [Hy Hfin]]]; rewrite Hfin; simpl.
    + congruence.
    + destruct (Hys y Hy) as [_ HBy]. congruence.
Qed.

(** ** Boards of side 16 and more *)

Lemma scan_none (entries : dictX) :
  (forall e, In e entries -> 10 <= length (snd e)) ->
  scan entries None 10 = None.
Proof.
  induction entries as [|[a s] rest IH]; intro H; simpl; [reflexivity|].
  assert (Hs : 10 <= length s) by (apply (H (a, s)); left; reflexivity).
  rewrite (proj2 (Nat.ltb_ge (length s) 10) Hs). simpl.
  apply IH. intros e He. apply H. right; exact He.
Qed.

Lemma nth_repeat_cases {A} (x d : A) (n i : nat) :
  nth i (repeat x n) d = x \/ nth i (repeat x n) d = d.
Proof.
  revert i. induction n as [|n IH]; intros [|i]; simpl; auto.
Qed.

Lemma cell_empty_board (N r c : nat) : cell (empty_board N) r c = 0.
Proof.
  unfold cell, empty_board.
  destruct (nth_repeat_cases (repeat 0 N) [] N r) as [-> | ->].
  - destruct (nth_repeat_cases 0 0 N c) as [-> | ->]; reflexivity.
  - destruct c; reflexivity.
Qed.

Lemma clues_empty_board (N : nat) : clues (empty_board N) N = [].
Proof.
  apply empty_by_members. intros [[r c] v] H. apply In_clues in H.
  rewrite cell_empty_board in H. lia.
Qed.

Lemma check_empty_board (B : nat) : check_board (empty_board (B * B)) = true.
Proof.
  unfold check_board, empty_board. rewrite repeat_length, Nat.sqrt_square.
  rewrite Nat.eqb_refl. simpl. apply forallb_forall. intros row Hrow.
  apply repeat_spec in Hrow. subst row. rewrite repeat_length, Nat.eqb_refl. simpl.
  apply forallb_forall. intros x Hx. apply repeat_spec in Hx. subst x. reflexivity.
Qed.

(** On a board without clues of side [B * B >= 16] every constraint has at
    least 10 candidates: the scan binds nothing, and the first call of
    [attempt] stops at the unbound local [i]. *)
Lemma solve_empty_large (B : nat) :
  4 <= B ->
  snd (prepare (B * B) (initial_store (empty_board (B * B)))) = Ok tt /\
  fst (solve (empty_board (B * B))) = [] /\
  snd (snd (solve (empty_board (B * B)))) = Raise UnboundLocalError.
Proof.
  intro HB.
  assert (Hlen : length (empty_board (B * B)) = B * B)
    by (unfold empty_board; apply repeat_length).
  destruct (build_run B (initial_store (empty_board (B * B))) eq_refl eq_refl)
    as [X0 [Hbuild [Hkeys Hget]]].
  set (stb := setX X0 (setY (built_Y (B * B) B) (initial_store (empty_board (B * B))))) in *.
  assert (Hprep : prepare (B * B) (initial_store (empty_board (B * B))) = (stb, Ok tt)).
  { transitivity ((build (B * B) B ;; except_KeyError (seed (B * B)) InvalidBoard)
                    (initial_store (empty_board (B * B)))).
    - unfold prepare, build, bind. rewrite Nat.sqrt_square.
      destruct (init_X (B * B) (initial_store (empty_board (B * B)))) as [s1 [[]|e]];
        [|reflexivity].
      destruct (init_Y (B * B) B s1) as [s2 [[]|e]]; [|reflexivity].
      destruct (populate_X s2) as [s3 [[]|e]]; reflexivity.
    - unfold bind. rewrite Hbuild. unfold except_KeyError.
      pose proof (seed_as_clues (empty_board (B * B)) stb (check_empty_board B) eq_refl)
        as Hseed.
      rewrite Hlen, clues_empty_board in Hseed. rewrite Hseed. reflexivity. }
  assert (Hchoose : choose X0 = None).
  { apply scan_none. intros [k s] He.
    assert (Hk : In k (all_keys (B * B))).
    { rewrite <- Hkeys. unfold dict_keys. apply in_map_iff. exists (k, s). auto. }
    apply (In_dict_get constraint_eqb_eq) in He;
      [|rewrite Hkeys; apply NoDup_all_keys].
    rewrite (Hget k Hk) in He. injection He as <-. simpl.
    rewrite (length_members B k Hk). nia. }
  assert (Hne : X0 <> []).
  { intro E. pose proof (length_all_keys (B * B)) as Hl.
    rewrite <- Hkeys, dict_length_keys, E in Hl. simpl in Hl. nia. }
  unfold solve. rewrite Hlen, Hprep. split; [reflexivity|].
  simpl attempt. simpl sX. destruct X0 as [|e0 X0']; [congruence|].
  rewrite Hchoose. simpl. auto.
Qed.

(** C6 fails on the code.  The 16 x 16 board without clues passes
    [check_board] and is seeded without error, and the first call of
    [attempt] ends with the exception of an unbound local. *)
Theorem attempt_raises_on_16 :
  check_board (empty_board 16) = true /\
  snd (prepare 16 (initial_store (empty_board 16))) = Ok tt /\
  fst (solve (empty_board 16)) = [] /\
  snd (snd (solve (empty_board 16))) = Raise UnboundLocalError.
Proof.
  split; [exact (check_empty_board 4)|].
  exact (solve_empty_large 4 (le_n 4)).
Qed.

(** C2 fails on the code.  The 16 x 16 board without clues has completions,
    [shifted_grid 4] is one, and [solve] yields none of them. *)
Theorem solve_misses_completions_16 :
  check_board (empty_board 16) = true /\
  snd (prepare 16 (initial_store (empty_board 16))) = Ok tt /\
  solved 16 4 (shifted_grid 4) = true /\
  keeps_clues 16 (empty_board 16) (shifted_grid 4) = true /\
  ~ In (shifted_grid 4) (fst (solve (empty_board 16))).
Proof.
  split; [exact (check_empty_board 4)|].
  split; [exact (proj1 (solve_empty_large 4 (le_n 4)))|].
  split; [vm_compute; reflexivity|]. split; [vm_compute; reflexivity|].
  destruct (solve_empty_large 4 (le_n 4)) as [_ [Hys _]].
  change (4 * 4) with 16 in Hys. rewrite Hys. intros [].
Qed.

(** ** A failed [select] *)

(** C10.  In the state reached on the board with clues [(0,0)=1] and
    [(0,1)=1] after the indices are built and the first clue selected, the
    [select] of the second clue raises [KeyError] after it has popped the
    constraint [('rowcol', 0, 1)] and removed candidate [(0, 1, 2)] from the
    set of [('rownum', 0, 2)]; [X] is left different by content.  [solve]
    ends with [InvalidBoard] holding exactly that store: nothing is rolled
    back.  A search run on it finds nothing, where the state before the
    failed call has completions. *)
Theorem select_not_atomic :
  exists st row st',
    index_wf (sX st) (sY st) /\
    select row st = (st', Raise KeyError) /\
    ~ content_eq (sX st) (sX st') /\
    dict_get constraint_eqb (sX st) (rowcol, 0, 1) <> None /\
    dict_get constraint_eqb (sX st') (rowcol, 0, 1) = None /\
    (exists t t',
       dict_get constraint_eqb (sX st) (rownum, 0, 2) = Some t /\
       dict_get constraint_eqb (sX st') (rownum, 0, 2) = Some t' /\
       set_mem (0, 1, 2) t = true /\ set_mem (0, 1, 2) t' = false) /\
    solve [[1;1;0;0];[0;0;0;0];[0;0;0;0];[0;0;0;0]] = ([], (st', Raise InvalidBoard)) /\
    fst (attempt 64 st) <> [] /\
    fst (attempt 64 st') = [].
Proof.
  exists (fst ((build 4 2 ;; select (0, 0, 1))
                 (initial_store [[1;1;0;0];[0;0;0;0];[0;0;0;0];[0;0;0;0]]))).
  exists (0, 1, 1).
  eexists.
  split; [apply index_wfb_sound; vm_compute; reflexivity|].
  split; [vm_compute; reflexivity|].
  split.
  { intro H. specialize (H (rowcol, 0, 1)). vm_compute in H. exact H. }
  split; [vm_compute; discriminate|].
  split; [vm_compute; reflexivity|].
  split.
  { eexists. eexists. split; [vm_compute; reflexivity|].
    split; [vm_compute; reflexivity|]. split; vm_compute; reflexivity. }
  split; [vm_compute; reflexivity|].
  split; [vm_compute; discriminate | vm_compute; reflexivity].
Qed.

(** ** Boards of side at most 9 *)

Lemma wf_sizes (B : nat) (X : dictX) (k : constraint) (s : cset) :
  index_wf X (built_Y (B * B) B) ->
  dict_get constraint_eqb X k = Some s -> length s <= B * B.
Proof.
  intros [_ Hwf] Hk. destruct (Hwf k s Hk) as [Hnd Hmem].
  destruct s as [|j0 s0] eqn:Es; [simpl; lia|]. rewrite <- Es in *.
  assert (Hin : forall j, In j s ->
            In j (all_cands (B * B)) /\ In k (constraints_of B j)).
  { intros j Hj. destruct (Hmem j Hj) as [yj [HY [_ [Hkj _]]]].
    rewrite dict_get_built_Y in HY.
    destruct (set_mem j (all_cands (B * B))) eqn:E; [|discriminate].
    injection HY as <-. split; [apply set_mem_In; exact E | exact Hkj]. }
  assert (Hk0 : In k (all_keys (B * B))).
  { destruct (Hin j0) as [Hj0 Hkj0]; [rewrite Es; left; reflexivity|].
    exact (constraints_in_keys B j0 k Hj0 Hkj0). }
  rewrite <- (length_members B k Hk0).
  apply NoDup_incl_length; [exact Hnd|].
  intros j Hj. apply In_members. exact (Hin j Hj).
Qed.

Lemma scan_some (entries : dictX) :
  forall a L, exists i, scan entries (Some a) L = Some i.
Proof.
  induction entries as [|[b s] rest IH]; intros a L; simpl; [eauto|].
  destruct (length s <? L).
  - destruct (length s =? 1); [eauto | apply IH].
  - destruct (L =? 1); [eauto | apply IH].
Qed.

Lemma choose_some (X : dictX) :
  X <> [] -> (forall e, In e X -> length (snd e) < 10) -> choose X <> None.
Proof.
  destruct X as [|[a s] rest]; [congruence|]. intros _ H.
  unfold choose. simpl.
  assert (Hs : length s < 10) by (apply (H (a, s)); left; reflexivity).
  rewrite (proj2 (Nat.ltb_lt _ _) Hs).
  destruct (length s =? 1); [discriminate|].
  destruct (scan_some rest a (length s)) as [i E]. rewrite E. discriminate.
Qed.

Lemma list_set_ok {A} (l : list A) (a : A) :
  forall i, i < length l -> exists l', list_set l i a = Some l'.
Proof.
  induction l as [|x l IH]; intros i Hi; simpl in *; [lia|].
  destruct i as [|i]; [eauto|].
  destruct (IH i) as [l' E]; [lia|]. rewrite E. eauto.
Qed.

Lemma fill_ok (T : list candidate) (N : nat) :
  forall b,
    length b = N -> (forall r, r < N -> length (nth r b []) = N) ->
    (forall r c v, In (r, c, v) T -> r < N /\ c < N) ->
    exists g, fill b T = Some g.
Proof.
  induction T as [|[[r c] n] T IH]; intros b Hlen Hrows HT; simpl; [eauto|].
  destruct (HT r c n (or_introl eq_refl)) as [Hr Hc].
  assert (Hset : exists b', grid_set b r c n = Some b').
  { unfold grid_set. rewrite (nth_error_nth' b []) by lia.
    destruct (list_set_ok (nth r b []) n c) as [rw' E]; [rewrite Hrows; lia|].
    rewrite E. apply list_set_ok. lia. }
  destruct Hset as [b' Eset]. rewrite Eset.
  destruct (grid_set_shape Eset) as [Hl Hr'].
  apply IH.
  - congruence.
  - intros r' Hr''. rewrite Hr'. apply Hrows. exact Hr''.
  - intros r' c' v' H. apply (HT r' c' v'). right; exact H.
Qed.

Lemma consume_all (ys : list store) (fin : store * result unit) :
  (forall y, In y ys -> fill (sBoard y) (sSolution y) <> None) ->
  snd (consume ys fin) = fin.
Proof.
  induction ys as [|y ys IH]; intro H; simpl; [reflexivity|].
  destruct (fill (sBoard y) (sSolution y)) eqn:E.
  - destruct (consume ys fin) as [gs r] eqn:Ec. simpl in *.
    apply IH. intros y' Hy'. apply H. right; exact Hy'.
  - exfalso. apply (H y); [left; reflexivity | exact E].
Qed.

(** X1.  On a checked board of side at most 9 whose seeding succeeds, [solve]
    runs to exhaustion: neither the search nor the writing of the yielded
    grids raises an exception, and the fuel of the model is not used up. *)
Theorem solve_total_small (board : grid) :
  check_board board = true ->
  length board <= 9 ->
  snd (prepare (length board) (initial_store board)) = Ok tt ->
  snd (snd (solve board)) = Ok tt.
Proof.
  intros Hchk Hsmall Hseed.
  pose proof (prepare_run board Hchk) as Hprep.
  destruct (check_board_shape board Hchk) as [Hsq _].
  destruct (seedable (Nat.sqrt (length board)) [] (clues board (length board))).
  2:{ destruct Hprep as [st' Hrun]. rewrite Hrun in Hseed. discriminate. }
  destruct Hprep as [X [Hrun [Hwf Hdom]]]. unfold solve. rewrite Hrun.
  remember (Nat.sqrt (length board)) as B eqn:EB.
  set (st := mkStore X (built_Y (length board) B) [] board) in *.
  destruct (attempt (S (length (sX st))) (setSolution [] st)) as [ys [st' r]] eqn:Eatt.
  assert (Hwf' : index_wf (sX (setSolution [] st)) (sY (setSolution [] st))).
  { simpl. rewrite <- Hsq. exact Hwf. }
  destruct (attempt_sound (S (length (sX st))) (setSolution [] st) ys st' r Hwf')
    as [Hys Hr]; [simpl; lia | exact Eatt |].
  destruct (attempt_frame _ _ _ _ _ Eatt) as [_ [_ [Hfr _]]].
  rewrite consume_all.
  - simpl. destruct Hr as [[-> _] | [_ [X' [Hwf1 [Hne Hch]]]]]; [reflexivity|].
    exfalso. simpl in Hwf1. rewrite <- Hsq in Hwf1.
    apply (choose_some X' Hne); [|exact Hch].
    intros [k s] He. simpl.
    apply (In_dict_get constraint_eqb_eq) in He; [|exact (proj1 Hwf1)].
    pose proof (wf_sizes B X' k s Hwf1 He). lia.
  - intros y Hy. destruct (Hys y Hy) as [T [HT [_ [Hlive _]]]].
    destruct (Hfr y Hy) as [_ HB]. simpl in HT, HB, Hlive. rewrite HT, HB.
    destruct (fill_ok T (length board) board eq_refl) as [g Hg].
    + intros r0 Hr'. exact (board_rows board r0 Hchk Hr').
    + intros r0 c0 v0 Hin. rewrite <- Hsq in Hlive.
      destruct (live_built B X (r0, c0, v0) (Hlive _ Hin)) as [Hc _].
      rewrite Hsq in Hc. apply In_all_cands in Hc. lia.
    + congruence.
Qed.

Lemma solve_total_small_witness :
  snd (snd (solve [[1;0;0;0];[0;0;0;0];[0;0;0;3];[0;0;0;2]])) = Ok tt.
Proof.
  apply solve_total_small; vm_compute; [reflexivity | | reflexivity].
  repeat constructor.
Defined.

(** ** Completeness of [attempt] *)

Lemma skipn_length_app {A} (l l' : list A) : skipn (length l) (l ++ l') = l'.
Proof. induction l as [|a l IH]; simpl; [reflexivity | exact IH]. Qed.

Lemma ForallOrdPairs_filter {A} (R : A -> A -> Prop) (p : A -> bool) (l : list A) :
  ForallOrdPairs R l -> ForallOrdPairs R (filter p l).
Proof.
  induction 1 as [|a l Ha Hl IH]; simpl; [constructor|].
  destruct (p a); [|exact IH]. constructor; [|exact IH].
  apply Forall_forall. intros x Hx. apply filter_In in Hx.
  rewrite Forall_forall in Ha. apply Ha. tauto.
Qed.

Lemma ForallOrdPairs_weaken {A} (R R' : A -> A -> Prop) (l : list A) :
  (forall a b, In a l -> In b l -> R a b -> R' a b) ->
  ForallOrdPairs R l -> ForallOrdPairs R' l.
Proof.
  intros H Hl. induction Hl as [|a l Ha Hl IH]; [constructor|].
  constructor.
  - rewrite Forall_forall in *. intros x Hx.
    apply H; [left; reflexivity | right; exact Hx | exact (Ha x Hx)].
  - apply IH. intros x y Hx Hy. apply H; right; assumption.
Qed.

Lemma ForallOrdPairs_app {A} (R : A -> A -> Prop) (l1 l2 : list A) :
  ForallOrdPairs R l1 -> ForallOrdPairs R l2 ->
  (forall a b, In a l1 -> In b l2 -> R a b) ->
  ForallOrdPairs R (l1 ++ l2).
Proof.
  intros H1 H2 H. induction H1 as [|a l Ha Hl IH]; simpl; [exact H2|].
  constructor.
  - apply Forall_forall. intros x Hx. apply in_app_or in Hx.
    destruct Hx as [Hx|Hx].
    + rewrite Forall_forall in Ha. exact (Ha x Hx).
    + apply H; [left; reflexivity | exact Hx].
  - apply IH. intros x y Hx Hy. apply H; [right; exact Hx | exact Hy].
Qed.

Lemma ForallOrdPairs_NoDup {A} (R : A -> A -> Prop) (l : list A) :
  NoDup l -> (forall a b, In a l -> In b l -> a <> b -> R a b) ->
  ForallOrdPairs R l.
Proof.
  induction 1 as [|a l Ha Hl IH]; intro H; [constructor|].
  constructor.
  - apply Forall_forall. intros x Hx.
    apply H; [left; reflexivity | right; exact Hx |].
    intros ->. contradiction.
  - apply IH. intros x y Hx Hy. apply H; right; assumption.
Qed.

(** Two members of an exact cover that list a common constraint are the
    same candidate. *)
Lemma solution_of_shared {X : dictX} {Y : dictY} {T : list candidate} {t t' c} :
  solution_of X Y T -> In t T -> In t' T ->
  In c (Yf Y t) -> In c (Yf Y t') -> t = t'.
Proof.
  intros [_ [_ Hd]] Ht Ht' Hc Hc'.
  destruct (ForallOrdPairs_In Hd t t' Ht Ht') as [E|[H|H]]; [exact E | |];
    exfalso; unfold disjoint_rows in H.
  - exact (H c Hc Hc').
  - exact (H c Hc' Hc).
Qed.

Lemma live_Yf {X : dictX} {Y : dictY} {t : candidate} :
  live X Y t ->
  Yf Y t <> [] /\
  forall c, In c (Yf Y t) ->
    exists s, dict_get constraint_eqb X c = Some s /\ In t s.
Proof.
  intros [yt [HY [Hne Hall]]]. unfold Yf. rewrite HY. auto.
Qed.

(** What is left of an exact cover of [X] that holds [row], once [row] has
    been selected, is an exact cover of what is left of [X]. *)
Lemma solution_of_rest {X X1 : dictX} {Y : dictY} {row yr T} :
  dict_get candidate_eqb Y row = Some yr ->
  selected X Y yr X1 -> solution_of X Y T -> In row T ->
  solution_of X1 Y (filter (fun x => negb (candidate_eqb x row)) T).
Proof.
  intros HY [Hs1 Hs2] Hsol Hrow. pose proof Hsol as [Ha [Hb Hd]].
  assert (HYf : Yf Y row = yr) by (unfold Yf; rewrite HY; reflexivity).
  assert (Hother : forall t c, In t T -> t <> row -> In c (Yf Y t) -> ~ In c yr).
  { intros t c Ht Hne Hc Hin. apply Hne.
    apply (solution_of_shared Hsol Ht Hrow Hc). rewrite HYf. exact Hin. }
  split; [|split].
  - intros k Hk.
    assert (Hnin : ~ In k yr) by (intro H; apply Hk; exact (Hs1 k H)).
    specialize (Hs2 k Hnin).
    destruct (Ha k) as [t [Ht Hkt]].
    { destruct (dict_get constraint_eqb X k); [discriminate|].
      destruct (dict_get constraint_eqb X1 k); [contradiction | congruence]. }
    exists t. split; [|exact Hkt]. apply filter_In. split; [exact Ht|].
    apply negb_true_iff. apply candidate_eqb_neq. intros ->.
    apply Hnin. rewrite <- HYf. exact Hkt.
  - intros t Ht. apply filter_In in Ht. destruct Ht as [Ht Hne].
    apply negb_true_iff in Hne. apply candidate_eqb_neq in Hne.
    destruct (Hb t Ht) as [yt [HYt [Hnil Hall]]].
    assert (HYft : Yf Y t = yt) by (unfold Yf; rewrite HYt; reflexivity).
    exists yt. split; [exact HYt|]. split; [exact Hnil|].
    intros c Hc. destruct (Hall c Hc) as [s [Hs Hin]].
    assert (Hnin : ~ In c yr) by (apply (Hother t c Ht Hne); rewrite HYft; exact Hc).
    specialize (Hs2 c Hnin). rewrite Hs in Hs2.
    destruct (dict_get constraint_eqb X1 c) as [s1|]; [|contradiction].
    exists s1. split; [reflexivity|]. apply Hs2. split; [exact Hin|].
    intros c' Hc' Hin'. exact (Hother t c' Ht Hne Hin' Hc').
  - apply ForallOrdPairs_filter. exact Hd.
Qed.

(** A selected candidate is not live in what is left. *)
Lemma selected_not_live {X X1 : dictX} {Y : dictY} {row yr} :
  dict_get candidate_eqb Y row = Some yr ->
  selected X Y yr X1 -> ~ live X1 Y row.
Proof.
  intros HY [Hs1 _] [yr' [HY' [Hne Hall]]].
  assert (yr' = yr) by congruence. subst yr'.
  destruct yr as [|c yr]; [congruence|].
  destruct (Hall c (or_introl eq_refl)) as [s [Hs _]].
  rewrite (Hs1 c (or_introl eq_refl)) in Hs. discriminate.
Qed.

Lemma attempt_body_complete {rec : G unit} {n : nat} (row : candidate) :
  gen_frame rec -> gen_sound n rec -> gen_complete n rec ->
  forall st ys st',
    index_wf (sX st) (sY st) -> length (sX st) <= n ->
    (exists i s, dict_get constraint_eqb (sX st) i = Some s /\ In row s) ->
    attempt_body rec row st = (ys, (st', Ok tt)) ->
    (forall y, In y ys -> In row (added st y)) /\
    (forall T', solution_of (sX st) (sY st) T' -> In row T' ->
       exists y, In y ys /\ same_set (added st y) T') /\
    distinct_yields st ys.
Proof.
  intros Hfr Hrec Hcomp st ys st' Hwf Hlen [i [s [Hi Hrow]]].
  destruct (wf_live Hwf Hi Hrow) as [yr [HY [Hnd Hlive]]].
  unfold attempt_body, bindG, liftG, solution_append.
  set (st1 := setSolution (sSolution st ++ [row]) st).
  destruct (select_run row st1 (yr := yr)) as [X1 [cols [Esel [Hwf1 [Hsel [_ [Hlt _]]]]]]];
    [exact Hwf | exact HY | exact Hnd | |].
  { intros c Hc. destruct Hlive as [yr' [HY' [_ Hall]]].
    assert (yr' = yr) by congruence. subst yr'.
    destruct (Hall c Hc) as [s' [Hs' _]]. simpl. congruence. }
  assert (Hne : yr <> []).
  { destruct Hlive as [yr' [HY' [Hne' _]]]. congruence. }
  specialize (Hlt Hne). simpl in Hwf1, Hsel, Hlt.
  rewrite Esel.
  destruct (rec (setX X1 st1)) as [ys1 [st3 r1]] eqn:Erec.
  assert (Hpost : attempt_post (setX X1 st1) ys1 st3 r1).
  { apply Hrec; [exact Hwf1 | simpl; lia | exact Erec]. }
  destruct Hpost as [Hys _]. simpl in Hys.
  destruct r1 as [[]|e]; [|intros [= _ _ E]; discriminate E].
  assert (Hfind : attempt_finds (setX X1 st1) ys1).
  { apply (Hcomp _ _ st3); [exact Hwf1 | simpl; lia | exact Erec]. }
  destruct Hfind as [Hall Hdist]. simpl in Hall.
  assert (Hadd : forall y, In y ys1 ->
            added st y = row :: added (setX X1 st1) y /\
            ~ In row (added (setX X1 st1) y)).
  { intros y Hy. destruct (Hys y Hy) as [T1 [HT1 Hsol1]].
    unfold added. simpl sSolution. rewrite HT1, skipn_length_app.
    rewrite <- app_assoc. simpl. rewrite skipn_length_app.
    split; [reflexivity|]. intro Hin.
    destruct Hsol1 as [_ [Hb1 _]].
    exact (selected_not_live HY Hsel (Hb1 row Hin)). }
  destruct (deselect row cols st3) as [st4 [[]|e]] eqn:Edes;
    [|intros [= _ _ E]; discriminate E].
  destruct (solution_pop st4) as [st5 r5] eqn:Epop.
  intros [= <- _ _]. rewrite ?app_nil_r. split; [|split].
  - intros y Hy. rewrite (proj1 (Hadd y Hy)). left; reflexivity.
  - intros T' Hsol Hin.
    destruct (Hall _ (solution_of_rest HY Hsel Hsol Hin)) as [y [Hy Hsame]].
    exists y. split; [exact Hy|]. rewrite (proj1 (Hadd y Hy)).
    intro x. simpl. rewrite (Hsame x), filter_In, negb_true_iff, candidate_eqb_neq.
    destruct (candidate_eq_dec x row) as [->|Hne'].
    + tauto.
    + split; [intros [E|[H _]]; [congruence | exact H] | auto].
  - unfold distinct_yields in *.
    refine (ForallOrdPairs_weaken _ _ _ _ Hdist).
    intros y y' Hy Hy' H.
    destruct (Hadd y Hy) as [E Hn]. destruct (Hadd y' Hy') as [E' Hn'].
    rewrite E, E'. intro Hsame. apply H. intro x. specialize (Hsame x).
    simpl in Hsame. split; intro Hx.
    + destruct (proj1 Hsame (or_intror Hx)) as [<-|Hx']; [contradiction | exact Hx'].
    + destruct (proj2 Hsame (or_intror Hx)) as [<-|Hx']; [contradiction | exact Hx'].
Qed.

Lemma forG_complete {rec : G unit} {n : nat} :
  gen_frame rec -> gen_sound n rec -> gen_complete n rec ->
  forall rows st ys st' i,
    index_wf (sX st) (sY st) -> length (sX st) <= n ->
    NoDup rows ->
    (forall row, In row rows ->
       exists s, dict_get constraint_eqb (sX st) i = Some s /\ In row s) ->
    forG rows (attempt_body rec) st = (ys, (st', Ok tt)) ->
    (forall y, In y ys ->
       solution_of (sX st) (sY st) (added st y) /\
       exists row, In row rows /\ In row (added st y)) /\
    (forall T', solution_of (sX st) (sY st) T' ->
       (exists row, In row rows /\ In row T') ->
       exists y, In y ys /\ same_set (added st y) T') /\
    distinct_yields st ys.
Proof.
  intros Hfr Hrec Hcomp. induction rows as [|row rows IH];
    intros st ys st' i Hwf Hlen Hnd Hrows; simpl.
  - unfold liftG, ret. intros [= <- _]. split; [intros y []|].
    split; [intros T' _ [row [[] _]] | constructor].
  - unfold bindG.
    destruct (attempt_body rec row st) as [ys1 [st1 r1]] eqn:E1.
    destruct r1 as [[]|e]; [|intros [= _ _ E]; discriminate E].
    pose proof (attempt_body_frame row Hfr _ _ _ _ E1) as [HY1 [_ [_ HS1]]].
    specialize (HS1 eq_refl).
    assert (Hex : exists i s, dict_get constraint_eqb (sX st) i = Some s /\ In row s).
    { destruct (Hrows row (or_introl eq_refl)) as [s Hs]. exists i, s. exact Hs. }
    pose proof (attempt_body_sound row Hfr Hrec _ _ _ _ Hwf Hlen Hex E1) as [Hys1 Hr1].
    destruct Hr1 as [[_ [Hc1 Hn1]] | [E _]]; [|discriminate E].
    destruct (attempt_body_complete row Hfr Hrec Hcomp _ _ _ Hwf Hlen Hex E1)
      as [Hin1 [Hall1 Hd1]].
    destruct (forG rows (attempt_body rec) st1) as [ys2 [st2 r2]] eqn:E2.
    intros [= <- _ ->].
    inversion Hnd as [|? ? Hrow Hnd']; subst.
    assert (Hwf1 : index_wf (sX st1) (sY st1)).
    { rewrite HY1. exact (index_wf_content Hwf Hc1 Hn1). }
    destruct (IH st1 ys2 st2 i Hwf1) as [Hin2 [Hall2 Hd2]];
      [| exact Hnd' | | exact E2 |].
    { rewrite <- (content_eq_length (index_wf_nodups Hwf) Hn1 Hc1). exact Hlen. }
    { intros row' Hrow'. destruct (Hrows row' (or_intror Hrow')) as [s [Hi Hin]].
      pose proof (Hc1 i) as Hci. rewrite Hi in Hci.
      destruct (dict_get constraint_eqb (sX st1) i) as [s1|] eqn:Ei1; [|contradiction].
      exists s1. split; [reflexivity | apply Hci; exact Hin]. }
    assert (Hadd : forall y, added st1 y = added st y)
      by (intro y; unfold added; rewrite HS1; reflexivity).
    assert (Hin1' : forall y, In y ys1 -> solution_of (sX st) (sY st) (added st y)).
    { intros y Hy. destruct (Hys1 y Hy) as [T [HT Hsol]].
      unfold added. rewrite HT, skipn_length_app. exact Hsol. }
    assert (Hin2' : forall y, In y ys2 ->
              solution_of (sX st) (sY st) (added st y) /\
              exists row', In row' rows /\ In row' (added st y)).
    { intros y Hy. destruct (Hin2 y Hy) as [Hsol Hex2].
      rewrite Hadd, HY1 in *.
      split; [exact (solution_of_content (content_eq_sym Hc1) Hsol) | exact Hex2]. }
    unfold distinct_yields in *. split; [|split].
    + intros y Hy. apply in_app_or in Hy. destruct Hy as [Hy|Hy].
      * split; [exact (Hin1' y Hy)|].
        exists row. split; [left; reflexivity | exact (Hin1 y Hy)].
      * destruct (Hin2' y Hy) as [Hsol [row' [Hr' Hin']]]. split; [exact Hsol|].
        exists row'. split; [right; exact Hr' | exact Hin'].
    + intros T' Hsol [row' [Hr' Hin']].
      destruct (in_dec candidate_eq_dec row T') as [Hin|Hnin].
      * destruct (Hall1 T' Hsol Hin) as [y [Hy Hs]].
        exists y. split; [apply in_or_app; left; exact Hy | exact Hs].
      * destruct Hr' as [<-|Hr']; [contradiction|].
        destruct (Hall2 T') as [y [Hy Hs]].
        -- rewrite HY1. exact (solution_of_content Hc1 Hsol).
        -- exists row'. auto.
        -- exists y. split; [apply in_or_app; right; exact Hy|].
           rewrite <- Hadd. exact Hs.
    + apply ForallOrdPairs_app.
      * exact Hd1.
      * refine (ForallOrdPairs_weaken _ _ _ _ Hd2).
        intros y y' _ _ H. rewrite <- !Hadd. exact H.
      * intros y1 y2 Hy1 Hy2 Hsame.
        destruct (Hin2' y2 Hy2) as [_ [row' [Hr' Hin']]].
        apply (proj2 (Hsame row')) in Hin'.
        pose proof (Hin1 y1 Hy1) as Hrow1.
        destruct (Hrows row (or_introl eq_refl)) as [s [Hi Hs]].
        destruct (Hrows row' (or_intror Hr')) as [s' [Hi' Hs']].
        assert (E : row = row').
        { apply (solution_of_shared (Hin1' y1 Hy1) Hrow1 Hin' (c := i)).
          - exact (wf_member_lists Hwf Hi Hs).
          - exact (wf_member_lists Hwf Hi' Hs'). }
        subst row'. contradiction.
Qed.

Lemma attempt_complete (fuel : nat) : gen_complete fuel (attempt fuel).
Proof.
  induction fuel as [|fuel IH]; intros st ys st' Hwf Hlen; [lia|]. simpl.
  destruct (sX st) as [|e0 X0] eqn:EX.
  - unfold yield. intros [= <- _]. split.
    + intros T' [_ [Hb _]]. exists st. split; [left; reflexivity|].
      unfold added. rewrite skipn_all. intro x. split; [intros []|].
      intro Hx. exfalso. destruct (Hb x Hx) as [yx [_ [Hne Hall]]].
      destruct yx as [|c yx]; [congruence|].
      destruct (Hall c (or_introl eq_refl)) as [s [Hs _]].
      rewrite EX in Hs. discriminate.
    + repeat constructor.
  - rewrite <- EX in *. destruct (choose (sX st)) as [i|] eqn:Ech.
    2:{ unfold liftG, raise. intro E. discriminate E. }
    apply choose_in in Ech. apply (dict_get_keys constraint_eqb_eq) in Ech.
    unfold bindG at 1. unfold liftG at 1. unfold X_get.
    destruct (dict_get constraint_eqb (sX st) i) as [rows|] eqn:Ei; [|congruence].
    change (forG rows _) with (forG rows (attempt_body (attempt fuel))).
    destruct (forG rows (attempt_body (attempt fuel)) st) as [ys1 [st1 r1]] eqn:El.
    intros [= <- _ ->]. simpl.
    destruct (forG_complete (attempt_frame fuel) (attempt_sound fuel) IH
                rows st ys1 st1 i Hwf) as [_ [Hall Hd]]; [lia | | | exact El |].
    { exact (proj1 (proj2 Hwf i rows Ei)). }
    { intros row Hrow. exists rows. auto. }
    split; [|exact Hd]. intros T' Hsol. apply (Hall T' Hsol).
    destruct Hsol as [Ha [Hb _]]. destruct (Ha i) as [t [Ht Hit]]; [congruence|].
    exists t. split; [|exact Ht].
    destruct (live_Yf (Hb t Ht)) as [_ Hl]. destruct (Hl i Hit) as [s [Hs Hin]].
    rewrite Ei in Hs. injection Hs as <-. exact Hin.
Qed.

(** ** Completions as exact covers *)

Lemma In_free_cands (board g : grid) (N r c v : nat) :
  In (r, c, v) (free_cands board g N) <->
  r < N /\ c < N /\ cell board r c = 0 /\ cell g r c = v.
Proof.
  unfold free_cands. rewrite in_flat_map. split.
  - intros [r' [Hr H]]. apply in_flat_map in H. destruct H as [c' [Hc H]].
    apply in_seq in Hr, Hc.
    destruct (cell board r' c' =? 0) eqn:E; [|destruct H].
    destruct H as [H|[]]. inversion H; subst. apply Nat.eqb_eq in E. lia.
  - intros [Hr [Hc [E Hv]]]. exists r. split; [apply in_seq; lia|].
    apply in_flat_map. exists c. split; [apply in_seq; lia|].
    rewrite E, Hv. left; reflexivity.
Qed.

Lemma NoDup_free_cands (board g : grid) (N : nat) : NoDup (free_cands board g N).
Proof.
  unfold free_cands. apply NoDup_flat_map; [apply seq_NoDup | |].
  - intros r _. apply NoDup_flat_map; [apply seq_NoDup | |].
    + intros c _. destruct (cell board r c =? 0); repeat constructor. intros [].
    + intros c c' b _ _ H H'.
      destruct (cell board r c =? 0); [|destruct H].
      destruct (cell board r c' =? 0); [|destruct H'].
      destruct H as [<-|[]]. destruct H' as [E|[]]. inversion E. reflexivity.
  - intros r r' b _ _ H H'. apply in_flat_map in H, H'.
    destruct H as [c [_ H]], H' as [c' [_ H']].
    destruct (cell board r c =? 0); [|destruct H].
    destruct (cell board r' c' =? 0); [|destruct H'].
    destruct H as [<-|[]]. destruct H' as [E|[]]. inversion E. reflexivity.
Qed.

Lemma count_cons (v x : nat) (l : list nat) :
  count v (x :: l) = (if v =? x then 1 else 0) + count v l.
Proof. unfold count. simpl. destruct (v =? x); reflexivity. Qed.

Lemma count_In (v : nat) (l : list nat) : In v l <-> 1 <= count v l.
Proof.
  induction l as [|x l IH]; [unfold count; simpl; lia|].
  rewrite count_cons. simpl. destruct (v =? x) eqn:E.
  - apply Nat.eqb_eq in E. split; [lia | auto].
  - apply Nat.eqb_neq in E. rewrite IH. simpl. split; [intros [H|H]; [congruence | exact H] | auto].
Qed.

Lemma count_unique {A} (f : A -> nat) (ps : list A) (v : nat) :
  count v (map f ps) = 1 ->
  forall p p', In p ps -> In p' ps -> f p = v -> f p' = v -> p = p'.
Proof.
  induction ps as [|a ps IH]; intros Hcount p p' Hp Hp' Hv Hv'; [destruct Hp|].
  simpl map in Hcount. rewrite count_cons in Hcount.
  assert (Hrest : forall q, In q ps -> f q = v -> 1 <= count v (map f ps)).
  { intros q Hq E. apply count_In. rewrite <- E. apply in_map. exact Hq. }
  destruct (v =? f a) eqn:E.
  - destruct Hp as [<-|Hp], Hp' as [<-|Hp']; try reflexivity; exfalso.
    + specialize (Hrest p' Hp' Hv'). lia.
    + specialize (Hrest p Hp Hv). lia.
    + specialize (Hrest p Hp Hv). lia.
  - apply Nat.eqb_neq in E.
    destruct Hp as [<-|Hp]; [congruence|]. destruct Hp' as [<-|Hp']; [congruence|].
    apply IH; assumption.
Qed.

Lemma each_once_injective (N : nat) (g : grid) (ps : list (nat * nat)) :
  each_once N (values g ps) = true ->
  forall p p', In p ps -> In p' ps ->
    1 <= cell g (fst p) (snd p) <= N ->
    cell g (fst p) (snd p) = cell g (fst p') (snd p') -> p = p'.
Proof.
  unfold each_once. rewrite forallb_forall. intros H p p' Hp Hp' Hrange E.
  specialize (H (cell g (fst p) (snd p))). rewrite Nat.eqb_eq in H.
  apply (count_unique (fun q => cell g (fst q) (snd q)) ps
           (cell g (fst p) (snd p))); auto.
  apply H. apply in_seq. lia.
Qed.

Lemma each_once_surjective (N : nat) (g : grid) (ps : list (nat * nat)) :
  each_once N (values g ps) = true ->
  forall v, 1 <= v <= N ->
    exists p, In p ps /\ cell g (fst p) (snd p) = v.
Proof.
  unfold each_once. rewrite forallb_forall. intros H v Hv.
  specialize (H v). rewrite Nat.eqb_eq in H.
  assert (Hin : In v (values g ps)).
  { apply count_In. rewrite H; [lia | apply in_seq; lia]. }
  unfold values in Hin. apply in_map_iff in Hin. destruct Hin as [p [E Hp]].
  exists p. auto.
Qed.

Lemma solved_spec (N B : nat) (g : grid) :
  solved N B g = true ->
  length g = N /\
  (forall r, r < N -> length (nth r g []) = N) /\
  (forall r c, r < N -> c < N -> 1 <= cell g r c <= N) /\
  (forall i, i < N ->
     each_once N (values g (row_cells N i)) = true /\
     each_once N (values g (col_cells N i)) = true /\
     each_once N (values g (block_cells N B i)) = true).
Proof.
  unfold solved, shaped. rewrite !andb_true_iff, Nat.eqb_eq, !forallb_forall.
  intros [[[Hlen Hrows] Hrange] Hunits].
  assert (Hrow : forall r, r < N -> In (nth r g []) g) by (intros; apply nth_In; lia).
  assert (Hl : forall r, r < N -> length (nth r g []) = N).
  { intros r Hr. apply Nat.eqb_eq. apply Hrows. apply Hrow. exact Hr. }
  split; [exact Hlen|]. split; [exact Hl|]. split.
  - intros r c Hr Hc. specialize (Hrange _ (Hrow r Hr)).
    rewrite forallb_forall in Hrange.
    assert (Hin : In (cell g r c) (nth r g [])).
    { unfold cell. apply nth_In. rewrite (Hl r Hr). exact Hc. }
    apply Hrange in Hin. apply andb_true_iff in Hin.
    rewrite !Nat.leb_le in Hin. exact Hin.
  - intros i Hi. specialize (Hunits i). rewrite !andb_true_iff in Hunits.
    destruct Hunits as [[H1 H2] H3]; [apply in_seq; lia|]. auto.
Qed.

Lemma keeps_clues_spec (N : nat) (board g : grid) :
  keeps_clues N board g = true ->
  forall r c, r < N -> c < N ->
    cell board r c = 0 \/ cell g r c = cell board r c.
Proof.
  unfold keeps_clues. rewrite forallb_forall. intros H r c Hr Hc.
  specialize (H r). rewrite forallb_forall in H.
  specialize (H ltac:(apply in_seq; lia) c ltac:(apply in_seq; lia)).
  apply orb_true_iff in H. rewrite !Nat.eqb_eq in H. exact H.
Qed.

(** The clues and the candidates a completion puts into the empty cells
    are, together, the candidates of its cells. *)
Lemma In_completion (board g : grid) (N : nat) (s : candidate) :
  keeps_clues N board g = true ->
  (In s (clues board N ++ free_cands board g N) <->
   exists r c, r < N /\ c < N /\ s = (r, c, cell g r c)).
Proof.
  intro Hkeep. pose proof (keeps_clues_spec N board g Hkeep) as Hk.
  destruct s as [[r c] v]. rewrite in_app_iff, In_clues, In_free_cands. split.
  - intros [[Hr [Hc [Hv E]]] | [Hr [Hc [E Hv]]]]; exists r, c.
    + destruct (Hk r c Hr Hc) as [H|H]; [lia|].
      repeat split; try assumption. congruence.
    + repeat split; try assumption. congruence.
  - intros [r' [c' [Hr [Hc E]]]]. inversion E; subst.
    destruct (Hk r' c' Hr Hc) as [H|H].
    + right. auto.
    + destruct (Nat.eq_dec (cell board r' c') 0) as [H0|H0]; [right; auto|].
      left. repeat split; try assumption; congruence.
Qed.

(** The candidates of the cells of a solved grid cover every constraint
    exactly once. *)
Lemma completion_cover (B : nat) (g : grid) (sel : list candidate) :
  solved (B * B) B g = true ->
  (forall s, In s sel <->
     exists r c, r < B * B /\ c < B * B /\ s = (r, c, cell g r c)) ->
  exact_cover B sel.
Proof.
  intros Hsolved Hsel.
  destruct (solved_spec _ _ _ Hsolved) as [_ [_ [Hrange Hunits]]].
  assert (Hmk : forall r c, r < B * B -> c < B * B -> In (r, c, cell g r c) sel).
  { intros r c Hr Hc. apply Hsel. exists r, c. auto. }
  split; [|split].
  - intros [[kd a] b] Hk. apply In_all_keys in Hk. destruct Hk as [Ha Hb].
    destruct kd.
    + exists (a, b, cell g a b). split; [exact (Hmk a b Ha Hb) | left; reflexivity].
    + destruct (Hunits a Ha) as [H _].
      destruct (each_once_surjective _ _ _ H b Hb) as [[r c] [Hp Hv]].
      apply In_row_cells in Hp. destruct Hp as [-> Hc]. simpl in Hv.
      exists (a, c, cell g a c). split; [exact (Hmk a c Ha Hc)|].
      rewrite Hv. right; left; reflexivity.
    + destruct (Hunits a Ha) as [_ [H _]].
      destruct (each_once_surjective _ _ _ H b Hb) as [[r c] [Hp Hv]].
      apply In_col_cells in Hp. destruct Hp as [-> Hr]. simpl in Hv.
      exists (r, a, cell g r a). split; [exact (Hmk r a Hr Ha)|].
      rewrite Hv. right; right; left; reflexivity.
    + destruct (Hunits a Ha) as [_ [_ H]].
      destruct (each_once_surjective _ _ _ H b Hb) as [[r c] [Hp Hv]].
      apply In_block_cells in Hp. destruct Hp as [[Hr Hc] Hblc]. simpl in Hv.
      exists (r, c, cell g r c). split; [exact (Hmk r c Hr Hc)|].
      unfold constraints_of. rewrite Hv, Hblc. right; right; right; left; reflexivity.
  - intros s s' k Hs Hs' Hk Hk'. apply Hsel in Hs, Hs'.
    destruct Hs as [r [c [Hr [Hc ->]]]]. destruct Hs' as [r' [c' [Hr' [Hc' ->]]]].
    assert (Hpair : (r, c) = (r', c')); [|inversion Hpair; reflexivity].
    pose proof (Hrange r c Hr Hc) as Hv.
    simpl in Hk, Hk'.
    destruct Hk as [E|[E|[E|[E|[]]]]]; subst k;
      destruct Hk' as [E'|[E'|[E'|[E'|[]]]]]; inversion E'; subst.
    + reflexivity.
    + destruct (Hunits r Hr) as [H _].
      apply (each_once_injective _ _ _ H (r, c) (r, c'));
        try (apply In_row_cells; auto); simpl; auto.
    + destruct (Hunits c Hc) as [_ [H _]].
      apply (each_once_injective _ _ _ H (r, c) (r', c));
        try (apply In_col_cells; auto); simpl; auto.
    + destruct (Hunits (blc B r c) (blc_lt B r c Hr Hc)) as [_ [_ H]].
      apply (each_once_injective _ _ _ H (r, c) (r', c'));
        try (apply In_block_cells; auto); simpl; auto.
  - intros s Hs. apply Hsel in Hs. destruct Hs as [r [c [Hr [Hc ->]]]].
    apply In_all_cands. pose proof (Hrange r c Hr Hc). lia.
Qed.

(** An exact cover of the board that extends the seeded clues is, without
    the clues, an exact cover of the seeded [X]. *)
Lemma cover_is_solution (B : nat) (X : dictX) (cl T : list candidate) :
  seed_inv B X (rev cl) -> exact_cover B (cl ++ T) ->
  NoDup T -> (forall t, In t T -> ~ In t cl) ->
  solution_of X (built_Y (B * B) B) T.
Proof.
  intros [Hwf [Hdom Hcont]] [E1 [E2 E3]] HndT Hsep.
  assert (HT : forall t, In t T -> In t (all_cands (B * B)))
    by (intros t Ht; apply E3; apply in_or_app; right; exact Ht).
  assert (Hfree : forall t d k, In t T -> In d (rev cl) ->
            In k (constraints_of B t) -> ~ In k (constraints_of B d)).
  { intros t d k Ht Hd Hk Hkd. apply in_rev in Hd. apply (Hsep t Ht).
    rewrite (E2 t d k); [exact Hd | | | exact Hk | exact Hkd];
      apply in_or_app; auto. }
  split; [|split].
  - intros k Hk. apply Hdom in Hk. destruct Hk as [Hkeys Hno].
    destruct (E1 k Hkeys) as [s [Hs Hks]]. apply in_app_or in Hs.
    destruct Hs as [Hs|Hs].
    + exfalso. apply (Hno s); [apply -> in_rev; exact Hs | exact Hks].
    + exists s. split; [exact Hs|]. rewrite (Yf_built_Y _ _ _ (HT s Hs)). exact Hks.
  - intros t Ht. exists (constraints_of B t). split; [|split].
    + rewrite dict_get_built_Y, (proj2 (set_mem_In t _) (HT t Ht)). reflexivity.
    + destruct t as [[r c] v]. discriminate.
    + intros c Hc.
      assert (Hp : dict_get constraint_eqb X c <> None).
      { apply Hdom. split; [exact (constraints_in_keys B t c (HT t Ht) Hc)|].
        intros d Hd. exact (Hfree t d c Ht Hd Hc). }
      destruct (dict_get constraint_eqb X c) as [s|] eqn:Ec; [|congruence].
      exists s. split; [reflexivity|]. apply (Hcont c s Ec). split.
      * apply In_members. split; [exact (HT t Ht) | exact Hc].
      * intros d Hd. destruct (conflictb B t d) eqn:Ecf; [|reflexivity].
        exfalso. apply conflictb_spec in Ecf. destruct Ecf as [k [Hkt Hkd]].
        exact (Hfree t d k Ht Hd Hkt Hkd).
  - apply ForallOrdPairs_NoDup; [exact HndT|].
    intros a b Ha Hb Hne c Hc Hc'.
    rewrite (Yf_built_Y _ _ _ (HT a Ha)) in Hc.
    rewrite (Yf_built_Y _ _ _ (HT b Hb)) in Hc'.
    apply Hne. apply (E2 a b c); try assumption; apply in_or_app; auto.
Qed.

(** ** The grids yielded on a board of side at most 9 *)

Lemma grid_ext (N : nat) (g g' : grid) :
  length g = N -> length g' = N ->
  (forall r, r < N -> length (nth r g []) = N) ->
  (forall r, r < N -> length (nth r g' []) = N) ->
  (forall r c, r < N -> c < N -> cell g r c = cell g' r c) ->
  g = g'.
Proof.
  intros Hl Hl' Hr Hr' Hc. apply (nth_ext g g' [] []); [congruence|].
  intros r Hlt. rewrite Hl in Hlt.
  apply (nth_ext _ _ 0 0); [rewrite Hr, Hr'; auto|].
  intros c Hc'. rewrite (Hr r Hlt) in Hc'. exact (Hc r c Hlt Hc').
Qed.

Lemma consume_yields (ys : list store) (fin : store * result unit)
    (y : store) (g : grid) :
  (forall y, In y ys -> fill (sBoard y) (sSolution y) <> None) ->
  In y ys -> fill (sBoard y) (sSolution y) = Some g ->
  In g (fst (consume ys fin)).
Proof.
  induction ys as [|y0 ys IH]; intros Hall Hy Hfill; [destruct Hy|]. simpl.
  destruct (fill (sBoard y0) (sSolution y0)) as [b|] eqn:E0;
    [|exfalso; apply (Hall y0); [left; reflexivity | exact E0]].
  destruct (consume ys fin) as [gs r] eqn:Ec. simpl in *.
  destruct Hy as [->|Hy].
  - left. congruence.
  - right. apply IH; [|exact Hy | exact Hfill].
    intros y' Hy'. apply Hall. right; exact Hy'.
Qed.

Lemma consume_NoDup (ys : list store) (fin : store * result unit) :
  ForallOrdPairs (fun y y' =>
    forall g, fill (sBoard y) (sSolution y) = Some g ->
              fill (sBoard y') (sSolution y') = Some g -> False) ys ->
  NoDup (fst (consume ys fin)).
Proof.
  induction 1 as [|y ys Hy Hys IH]; simpl; [constructor|].
  destruct (fill (sBoard y) (sSolution y)) as [b|] eqn:E; [|constructor].
  pose proof (consume_In ys fin b) as Hin.
  destruct (consume ys fin) as [gs r]. simpl in *.
  constructor; [|exact IH]. intro Hb.
  destruct (Hin Hb) as [y' [Hy' Hf]].
  rewrite Forall_forall in Hy. exact (Hy y' Hy' b eq_refl Hf).
Qed.

(** A member of an exact cover of the seeded [X] is none of the clues. *)
Lemma solution_not_clue (B : nat) (X : dictX) (cl T : list candidate)
    (t : candidate) :
  seed_inv B X (rev cl) -> solution_of X (built_Y (B * B) B) T ->
  In t T -> ~ In t cl.
Proof.
  intros [_ [Hdom _]] [_ [Hb _]] Ht Hcl.
  destruct (live_built B X t (Hb t Ht)) as [_ [_ Hpres]].
  destruct t as [[r c] v].
  assert (Hk : In (rowcol, r, c) (constraints_of B (r, c, v))) by (left; reflexivity).
  apply Hpres in Hk as Hp. apply Hdom in Hp. destruct Hp as [_ Hno].
  apply (Hno (r, c, v)); [apply -> in_rev; exact Hcl | exact Hk].
Qed.

Section Yields.
Variable board : grid.
Hypothesis Hchk : check_board board = true.
Hypothesis Hseed :
  seedable (Nat.sqrt (length board)) [] (clues board (length board)) = true.
Variable X : dictX.
Hypothesis Hinv :
  seed_inv (Nat.sqrt (length board)) X (rev (clues board (length board))).

(** The grid that [solve] writes for an exact cover of the seeded [X]. *)
Lemma yield_grid (T : list candidate) :
  solution_of X
    (built_Y (Nat.sqrt (length board) * Nat.sqrt (length board))
             (Nat.sqrt (length board))) T ->
  exists g,
    fill board T = Some g /\
    exact_cover (Nat.sqrt (length board)) (clues board (length board) ++ T) /\
    (forall r c v, In (r, c, v) (clues board (length board) ++ T) ->
       cell g r c = v) /\
    length g = length board /\
    (forall r, r < length board -> length (nth r g []) = length board).
Proof.
  intro Hsol. destruct (check_board_shape board Hchk) as [Hsq _].
  assert (Hcl : forall j, In j (clues board (length board)) ->
            In j (all_cands (Nat.sqrt (length board) * Nat.sqrt (length board)))).
  { intros j Hj. rewrite Hsq. exact (clues_in_cands board j Hchk Hj). }
  pose proof (exact_cover_of_solution _ X _ T Hinv Hseed Hcl Hsol) as Hcover.
  destruct (fill_ok T (length board) board eq_refl) as [g Hg].
  { intros r Hr. exact (board_rows board r Hchk Hr). }
  { intros r c v Hin. destruct Hcover as [_ [_ E3]].
    specialize (E3 (r, c, v) ltac:(apply in_or_app; right; exact Hin)).
    rewrite Hsq in E3. apply In_all_cands in E3. lia. }
  exists g. split; [exact Hg|]. split; [exact Hcover|].
  split; [exact (solve_cells board g T Hchk Hg Hcover)|].
  destruct (fill_shape T board g Hg) as [Hlen Hrows].
  split; [exact Hlen|]. intros r Hr. rewrite Hrows.
  exact (board_rows board r Hchk Hr).
Qed.

(** Two exact covers that [solve] writes into the same grid hold the same
    candidates. *)
Lemma same_grid_incl (T1 T2 : list candidate) (g : grid) :
  solution_of X
    (built_Y (Nat.sqrt (length board) * Nat.sqrt (length board))
             (Nat.sqrt (length board))) T1 ->
  solution_of X
    (built_Y (Nat.sqrt (length board) * Nat.sqrt (length board))
             (Nat.sqrt (length board))) T2 ->
  fill board T1 = Some g -> fill board T2 = Some g ->
  forall x, In x T1 -> In x T2.
Proof.
  intros Hs1 Hs2 Hf1 Hf2 [[r c] v] Hx.
  destruct (check_board_shape board Hchk) as [Hsq _].
  destruct (yield_grid T1 Hs1) as [g1 [Hg1 [Hc1 [Hcells1 _]]]].
  destruct (yield_grid T2 Hs2) as [g2 [Hg2 [Hc2 [Hcells2 _]]]].
  assert (g1 = g) by congruence. assert (g2 = g) by congruence. subst g1 g2.
  assert (Hv : cell g r c = v)
    by (apply Hcells1; apply in_or_app; right; exact Hx).
  assert (Hrc : r < length board /\ c < length board).
  { destruct Hc1 as [_ [_ E3]].
    specialize (E3 (r, c, v) ltac:(apply in_or_app; right; exact Hx)).
    rewrite Hsq in E3. apply In_all_cands in E3. lia. }
  rewrite <- Hsq in Hrc.
  pose proof (cell_in_sel _ g _ Hc2 Hcells2 r c (proj1 Hrc) (proj2 Hrc)) as Hin.
  rewrite Hv in Hin. apply in_app_or in Hin. destruct Hin as [Hin|Hin]; [|exact Hin].
  exfalso. exact (solution_not_clue _ X _ T1 (r, c, v) Hinv Hs1 Hx Hin).
Qed.
End Yields.

(** The run of [solve] on a checked board of side at most 9 whose clues
    can be seeded: the snapshots consumed hold the board and exactly the
    exact covers of the seeded [X], each once. *)
Lemma solve_small_run (board : grid) :
  check_board board = true -> length board <= 9 ->
  seedable (Nat.sqrt (length board)) [] (clues board (length board)) = true ->
  exists X ys fin,
    seed_inv (Nat.sqrt (length board)) X (rev (clues board (length board))) /\
    solve board = consume ys fin /\
    (forall y, In y ys ->
       sBoard y = board /\
       solution_of X
         (built_Y (Nat.sqrt (length board) * Nat.sqrt (length board))
                  (Nat.sqrt (length board))) (sSolution y)) /\
    (forall T',
       solution_of X
         (built_Y (Nat.sqrt (length board) * Nat.sqrt (length board))
                  (Nat.sqrt (length board))) T' ->
       exists y, In y ys /\ same_set (sSolution y) T') /\
    ForallOrdPairs (fun y y' => ~ same_set (sSolution y) (sSolution y')) ys.
Proof.
  intros Hchk Hsmall Hseed.
  pose proof (prepare_run board Hchk) as Hprep. rewrite Hseed in Hprep.
  destruct (check_board_shape board Hchk) as [Hsq _].
  destruct Hprep as [X [Hrun Hinv]]. pose proof Hinv as [Hwf _].
  unfold solve. rewrite Hrun.
  remember (Nat.sqrt (length board)) as B eqn:EB.
  set (st := mkStore X (built_Y (length board) B) [] board) in *.
  destruct (attempt (S (length (sX st))) (setSolution [] st)) as [ys [st' r]] eqn:Eatt.
  assert (Hwf' : index_wf (sX (setSolution [] st)) (sY (setSolution [] st))).
  { simpl. rewrite <- Hsq. exact Hwf. }
  destruct (attempt_sound (S (length (sX st))) (setSolution [] st) ys st' r Hwf')
    as [Hys Hr]; [simpl; lia | exact Eatt |].
  destruct (attempt_frame _ _ _ _ _ Eatt) as [_ [_ [Hfr _]]].
  assert (Hok : r = Ok tt).
  { destruct Hr as [[-> _] | [_ [X' [Hwf1 [Hne Hch]]]]]; [reflexivity|].
    exfalso. simpl in Hwf1. rewrite <- Hsq in Hwf1.
    apply (choose_some X' Hne); [|exact Hch].
    intros [k s] He. simpl.
    apply (In_dict_get constraint_eqb_eq) in He; [|exact (proj1 Hwf1)].
    pose proof (wf_sizes B X' k s Hwf1 He). lia. }
  subst r.
  destruct (attempt_complete (S (length (sX st))) (setSolution [] st) ys st' Hwf')
    as [Hall Hdist]; [simpl; lia | exact Eatt |].
  simpl in Hys, Hall. rewrite <- Hsq in Hys, Hall.
  exists X, ys, (st', Ok tt). split; [exact Hinv|]. split; [reflexivity|].
  split; [|split].
  - intros y Hy. destruct (Hfr y Hy) as [_ HB]. split; [exact HB|].
    destruct (Hys y Hy) as [T [-> Hsol]]. exact Hsol.
  - exact Hall.
  - exact Hdist.
Qed.

(** X2.  On a checked board of side at most 9, [solve] yields every
    completion of the board (every grid in which each row, column and block
    holds each value exactly once and every clue is unchanged), and yields
    no grid twice.  Where the clues conflict there is no completion and
    nothing is yielded, so the statement needs no hypothesis on the
    seeding. *)
Theorem solve_complete_small (board : grid) :
  check_board board = true ->
  length board <= 9 ->
  NoDup (fst (solve board)) /\
  forall g,
    solved (length board) (Nat.sqrt (length board)) g = true ->
    keeps_clues (length board) board g = true ->
    In g (fst (solve board)).
Proof.
  intros Hchk Hsmall. destruct (check_board_shape board Hchk) as [Hsq _].
  assert (Hcover : forall g,
            solved (length board) (Nat.sqrt (length board)) g = true ->
            keeps_clues (length board) board g = true ->
            exact_cover (Nat.sqrt (length board))
              (clues board (length board) ++ free_cands board g (length board))).
  { intros g Hsolved Hkeep. apply (completion_cover _ g).
    - rewrite Hsq. exact Hsolved.
    - intro s. rewrite Hsq. exact (In_completion board g _ s Hkeep). }
  destruct (seedable (Nat.sqrt (length board)) [] (clues board (length board)))
    eqn:Eseed.
  - destruct (solve_small_run board Hchk Hsmall Eseed)
      as [X [ys [fin [Hinv [Hrun [Hys [Hall Hdist]]]]]]].
    rewrite Hrun. split.
    + apply consume_NoDup. refine (ForallOrdPairs_weaken _ _ _ _ Hdist).
      intros y y' Hy Hy' Hne g Hf Hf'. apply Hne.
      destruct (Hys y Hy) as [HB Hs]. destruct (Hys y' Hy') as [HB' Hs'].
      rewrite HB in Hf. rewrite HB' in Hf'.
      intro x. split.
      * exact (same_grid_incl board Hchk Eseed X Hinv _ _ g Hs Hs' Hf Hf' x).
      * exact (same_grid_incl board Hchk Eseed X Hinv _ _ g Hs' Hs Hf' Hf x).
    + intros g Hsolved Hkeep.
      assert (Hsol : solution_of X
                (built_Y (Nat.sqrt (length board) * Nat.sqrt (length board))
                         (Nat.sqrt (length board)))
                (free_cands board g (length board))).
      { apply (cover_is_solution _ X (clues board (length board)));
          [exact Hinv | exact (Hcover g Hsolved Hkeep) | apply NoDup_free_cands |].
        intros [[r c] v] Hf Hc. apply In_free_cands in Hf. apply In_clues in Hc. lia. }
      destruct (Hall _ Hsol) as [y [Hy Hsame]].
      destruct (Hys y Hy) as [HB Hs].
      destruct (yield_grid board Hchk Eseed X Hinv _ Hs)
        as [g' [Hfill [_ [Hcells [Hlen Hrows]]]]].
      destruct (solved_spec _ _ _ Hsolved) as [Hlg [Hrg _]].
      assert (E : g' = g).
      { apply (grid_ext (length board)); try assumption.
        intros r c Hr Hc. apply Hcells.
        assert (Hin : In (r, c, cell g r c)
                  (clues board (length board) ++ free_cands board g (length board))).
        { apply (In_completion board g _ _ Hkeep). exists r, c. auto. }
        apply in_app_or in Hin. apply in_or_app.
        destruct Hin as [Hin|Hin]; [left; exact Hin | right; apply Hsame; exact Hin]. }
      subst g'. apply (consume_yields ys fin y); [|exact Hy | rewrite HB; exact Hfill].
      intros y0 Hy0. destruct (Hys y0 Hy0) as [HB0 Hs0]. rewrite HB0.
      destruct (yield_grid board Hchk Eseed X Hinv _ Hs0) as [g0 [Hf0 _]]. congruence.
  - pose proof (prepare_run board Hchk) as Hprep. rewrite Eseed in Hprep.
    destruct Hprep as [st' Hrun]. unfold solve. rewrite Hrun. simpl.
    split; [constructor|]. intros g Hsolved Hkeep. exfalso.
    destruct (Hcover g Hsolved Hkeep) as [_ [E2 _]].
    assert (Hs : seedable (Nat.sqrt (length board)) [] (clues board (length board)) = true).
    { apply seedable_intro; [apply NoDup_clues | | intros a d _ []].
      intros a b Ha Hb Hne.
      destruct (conflictb (Nat.sqrt (length board)) a b) eqn:Ecf; [|reflexivity].
      exfalso. apply conflictb_spec in Ecf. destruct Ecf as [k [Hka Hkb]].
      apply Hne. apply (E2 a b k); try assumption; apply in_or_app; left; assumption. }
    congruence.
Qed.

Lemma solve_complete_small_witness :
  NoDup (fst (solve [[1;0;0;0];[0;0;0;0];[0;0;0;3];[0;0;0;2]])) /\
  forall g,
    solved 4 2 g = true ->
    keeps_clues 4 [[1;0;0;0];[0;0;0;0];[0;0;0;3];[0;0;0;2]] g = true ->
    In g (fst (solve [[1;0;0;0];[0;0;0;0];[0;0;0;3];[0;0;0;2]])).
Proof.
  apply (solve_complete_small [[1;0;0;0];[0;0;0;0];[0;0;0;3];[0;0;0;2]]).
  - vm_compute. reflexivity.
  - vm_compute. repeat constructor.
Defined.

(** * Further properties of the core *)

(** ** What [attempt] leaves of [X] *)

(** X3.  A call of [attempt] that starts from well-formed indices and runs
    to exhaustion leaves [X] as it found it, by content, and well formed:
    every [select] of the search has been undone by its [deselect]. *)
Theorem attempt_restores_index (fuel : nat) (st : store) :
  index_wf (sX st) (sY st) -> length (sX st) < fuel ->
  snd (snd (attempt fuel st)) = Ok tt ->
  content_eq (sX st) (sX (fst (snd (attempt fuel st)))) /\
  index_wf (sX (fst (snd (attempt fuel st)))) (sY (fst (snd (attempt fuel st)))).
Proof.
  intros Hwf Hlen. destruct (attempt fuel st) as [ys [st' r]] eqn:E. simpl.
  intros ->.
  destruct (attempt_sound fuel st ys st' (Ok tt) Hwf Hlen E) as [_ Hr].
  destruct (attempt_frame fuel _ _ _ _ E) as [HY _].
  destruct Hr as [[_ [Hc Hn]] | [Habs _]]; [|discriminate Habs].
  split; [exact Hc|]. rewrite HY. exact (index_wf_content Hwf Hc Hn).
Qed.

Lemma attempt_restores_index_witness :
  content_eq
    (sX (fst (prepare 4 (initial_store [[1;0;0;0];[0;0;0;0];[0;0;0;3];[0;0;0;2]]))))
    (sX (fst (snd (attempt 60
       (fst (prepare 4 (initial_store [[1;0;0;0];[0;0;0;0];[0;0;0;3];[0;0;0;2]]))))))) /\
  index_wf
    (sX (fst (snd (attempt 60
       (fst (prepare 4 (initial_store [[1;0;0;0];[0;0;0;0];[0;0;0;3];[0;0;0;2]])))))))
    (sY (fst (snd (attempt 60
       (fst (prepare 4 (initial_store [[1;0;0;0];[0;0;0;0];[0;0;0;3];[0;0;0;2]]))))))).
Proof.
  apply attempt_restores_index.
  - apply index_wfb_sound. vm_compute. reflexivity.
  - vm_compute. repeat constructor.
  - vm_compute. reflexivity.
Defined.

(** ** The outcomes of [select] *)

(** X4.  From well-formed indices, [select(X, Y, row)] has two outcomes: it
    returns, exactly when [row] is a key of [Y] and each of its constraints
    is still a key of [X]; or it raises [KeyError].  It raises nothing
    else: no [remove] of its inner loop fails. *)
Theorem select_outcome (st : store) (row : candidate) :
  index_wf (sX st) (sY st) ->
  (forall yr, dict_get candidate_eqb (sY st) row = Some yr -> NoDup yr) ->
  match snd (select row st) with
  | Ok _ =>
      exists yr, dict_get candidate_eqb (sY st) row = Some yr /\
        forall c, In c yr -> dict_get constraint_eqb (sX st) c <> None
  | Raise e =>
      e = KeyError /\
      forall yr, dict_get candidate_eqb (sY st) row = Some yr ->
        exists c, In c yr /\ dict_get constraint_eqb (sX st) c = None
  end.
Proof.
  intros Hwf Hnd.
  destruct (dict_get candidate_eqb (sY st) row) as [yr|] eqn:HY.
  2:{ unfold select, bind, Y_get. rewrite HY. simpl.
      split; [reflexivity | intros yr H; discriminate H]. }
  specialize (Hnd yr eq_refl).
  destruct (forallb (fun c => match dict_get constraint_eqb (sX st) c with
                              | Some _ => true | None => false end) yr) eqn:Eall.
  - rewrite forallb_forall in Eall.
    assert (Hpres : forall c, In c yr -> dict_get constraint_eqb (sX st) c <> None).
    { intros c Hc. specialize (Eall c Hc).
      destruct (dict_get constraint_eqb (sX st) c); [discriminate | discriminate Eall]. }
    destruct (select_run row st Hwf HY Hnd Hpres) as [X1 [cols [Hrun _]]].
    rewrite Hrun. simpl. exists yr. auto.
  - assert (Hex : exists c, In c yr /\ dict_get constraint_eqb (sX st) c = None).
    { destruct (existsb (fun c => match dict_get constraint_eqb (sX st) c with
                                  | Some _ => false | None => true end) yr) eqn:Eex.
      - apply existsb_exists in Eex. destruct Eex as [c [Hc Hn]]. exists c.
        split; [exact Hc|]. destruct (dict_get constraint_eqb (sX st) c);
          [discriminate Hn | reflexivity].
      - exfalso. rewrite <- not_true_iff_false in Eall. apply Eall.
        apply forallb_forall. intros c Hc.
        destruct (dict_get constraint_eqb (sX st) c) eqn:Ec; [reflexivity|].
        rewrite <- not_true_iff_false in Eex. exfalso. apply Eex.
        apply existsb_exists. exists c. rewrite Ec. auto. }
    destruct (select_loop_fails yr st [] Hwf Hnd Hex) as [st' Hrun].
    unfold select, bind, Y_get. rewrite HY.
    change (foldM _ yr [] st) with (foldM select_step yr [] st).
    rewrite Hrun. simpl. split; [reflexivity|].
    intros yr' [= <-]. exact Hex.
Qed.

Lemma select_outcome_witness :
  match snd (select (0, 1, 1)
              (fst (prepare 4 (initial_store [[1;0;0;0];[0;0;0;0];[0;0;0;3];[0;0;0;2]]))))
  with
  | Ok _ =>
      exists yr,
        dict_get candidate_eqb
          (sY (fst (prepare 4 (initial_store [[1;0;0;0];[0;0;0;0];[0;0;0;3];[0;0;0;2]]))))
          (0, 1, 1) = Some yr /\
        forall c, In c yr ->
          dict_get constraint_eqb
            (sX (fst (prepare 4 (initial_store [[1;0;0;0];[0;0;0;0];[0;0;0;3];[0;0;0;2]]))))
            c <> None
  | Raise e =>
      e = KeyError /\
      forall yr,
        dict_get candidate_eqb
          (sY (fst (prepare 4 (initial_store [[1;0;0;0];[0;0;0;0];[0;0;0;3];[0;0;0;2]]))))
          (0, 1, 1) = Some yr ->
        exists c, In c yr /\
          dict_get constraint_eqb
            (sX (fst (prepare 4 (initial_store [[1;0;0;0];[0;0;0;0];[0;0;0;3];[0;0;0;2]]))))
            c = None
  end.
Proof.
  apply (select_outcome
           (fst (prepare 4 (initial_store [[1;0;0;0];[0;0;0;0];[0;0;0;3];[0;0;0;2]])))
           (0, 1, 1)).
  - apply index_wfb_sound. vm_compute. reflexivity.
  - intros yr H. vm_compute in H. injection H as <-.
    apply (nodupb_sound constraint_eqb _ constraint_eqb_eq). reflexivity.
Defined.

(** ** The order of the keys of [X] *)

Lemma keys_kept_ret {A} (a : A) : keys_kept (ret a).
Proof. intros st st' b [= <- _]. reflexivity. Qed.

Lemma keys_kept_bind {A B} (m : M A) (f : A -> M B) :
  keys_kept m -> (forall a, keys_kept (f a)) -> keys_kept (bind m f).
Proof.
  intros Hm Hf st st' b. unfold bind.
  destruct (m st) as [st1 [a|e]] eqn:E; [|discriminate].
  intro H. rewrite (Hf a _ _ _ H). exact (Hm _ _ _ E).
Qed.

Lemma keys_kept_forM_ {A} (l : list A) (f : A -> M unit) :
  (forall a, keys_kept (f a)) -> keys_kept (forM_ l f).
Proof.
  intro Hf. induction l as [|a l IH]; simpl.
  - apply keys_kept_ret.
  - apply keys_kept_bind; [apply Hf | intros _; exact IH].
Qed.

Lemma keys_kept_Y_get (j : candidate) : keys_kept (Y_get j).
Proof.
  intros st st' s. unfold Y_get.
  destruct (dict_get candidate_eqb (sY st) j); [|discriminate].
  intros [= <- _]. reflexivity.
Qed.

Lemma keys_kept_X_upd f (k : constraint) (j : candidate) : keys_kept (X_upd f k j).
Proof.
  intros st st' a. unfold X_upd, bind, X_get.
  destruct (dict_get constraint_eqb (sX st) k) as [s|] eqn:E; [|discriminate].
  destruct (f s j) as [s'|]; [|discriminate].
  unfold X_put. intros [= <- _]. simpl.
  apply dict_keys_set_old. congruence.
Qed.

Lemma keys_kept_sweep f (i : constraint) (xi : cset) :
  keys_kept (sweep (X_upd f) i xi).
Proof.
  unfold sweep. apply keys_kept_forM_. intro j.
  apply keys_kept_bind; [apply keys_kept_Y_get|]. intro yj.
  apply keys_kept_forM_. intro k.
  destruct (constraint_eqb k i); [apply keys_kept_ret | apply keys_kept_X_upd].
Qed.

Lemma cover_keys (i : constraint) (st st' : store) (s : cset) :
  cover i st = (st', Ok s) ->
  dict_keys (sX st')
  = filter (fun x => negb (constraint_eqb x i)) (dict_keys (sX st)).
Proof.
  unfold cover. unfold bind at 1. unfold X_get at 1.
  destruct (dict_get constraint_eqb (sX st) i) as [xi|]; [|discriminate].
  change (forM_ xi _) with (sweep (X_upd set_remove) i xi).
  unfold bind.
  destruct (sweep (X_upd set_remove) i xi st) as [st1 [[]|e]] eqn:E; [|discriminate].
  apply keys_kept_sweep in E. unfold X_pop.
  destruct (dict_get constraint_eqb (sX st1) i); [|discriminate].
  intros [= <- _]. simpl. rewrite dict_keys_del, E. reflexivity.
Qed.

Lemma uncover_keys (i : constraint) (s : cset) (st st' : store) :
  uncover i s st = (st', Ok tt) ->
  dict_keys (sX st') = dict_keys (dict_set constraint_eqb (sX st) i s).
Proof.
  unfold uncover. unfold bind at 1. unfold X_put at 1.
  unfold bind at 1. unfold X_get at 1. simpl sX.
  destruct (dict_get constraint_eqb (dict_set constraint_eqb (sX st) i s) i)
    as [xi|]; [|discriminate].
  change (forM_ xi _) with (sweep (X_upd (fun s j => Some (set_add s j))) i xi).
  intro E. apply keys_kept_sweep in E. exact E.
Qed.

Lemma filter_filter {A} (p q : A -> bool) (l : list A) :
  filter q (filter p l) = filter (fun x => p x && q x) l.
Proof.
  induction l as [|a l IH]; simpl; [reflexivity|].
  destruct (p a); simpl; [destruct (q a)|]; rewrite IH; reflexivity.
Qed.

Lemma select_loop_keys :
  forall yr st cols0 st' cols,
    foldM select_step yr cols0 st = (st', Ok cols) ->
    dict_keys (sX st')
    = filter (fun k => negb (cmem k yr)) (dict_keys (sX st)).
Proof.
  induction yr as [|c yr IH]; intros st cols0 st' cols; simpl foldM.
  - unfold ret. intros [= <- _]. simpl.
    symmetry. apply forallb_filter_id. apply forallb_forall. reflexivity.
  - unfold bind at 1. unfold select_step at 1. unfold bind at 1.
    destruct (cover c st) as [st1 [s|e]] eqn:Ec; [|discriminate].
    unfold ret at 1. intro H. rewrite (IH _ _ _ _ H), (cover_keys _ _ _ _ Ec).
    rewrite filter_filter. apply filter_ext. intro k. unfold cmem. simpl.
    rewrite negb_orb.
    replace (constraint_eqb k c) with (constraint_eqb c k); [reflexivity|].
    destruct (constraint_eqb c k) eqn:E1, (constraint_eqb k c) eqn:E2; try reflexivity.
    + apply constraint_eqb_eq in E1. subst. rewrite constraint_eqb_refl in E2. discriminate.
    + apply constraint_eqb_eq in E2. subst. rewrite constraint_eqb_refl in E1. discriminate.
Qed.

Lemma deselect_loop_keys :
  forall l st cols st' cols',
    NoDup l -> (forall k, In k l -> ~ In k (dict_keys (sX st))) ->
    foldM deselect_step l cols st = (st', Ok cols') ->
    dict_keys (sX st') = dict_keys (sX st) ++ l.
Proof.
  induction l as [|c l IH]; intros st cols st' cols' Hnd Habs; simpl foldM.
  - unfold ret. intros [= <- _]. rewrite app_nil_r. reflexivity.
  - inversion Hnd as [|? ? Hc Hl]; subst.
    unfold bind at 1. unfold deselect_step at 1.
    destruct (list_pop cols) as [[s cols1]|]; [|discriminate].
    unfold bind at 1.
    destruct (uncover c s st) as [st1 [[]|e]] eqn:Eu; [|discriminate].
    unfold ret at 1. intro H.
    assert (Hk1 : dict_keys (sX st1) = dict_keys (sX st) ++ [c]).
    { rewrite (uncover_keys _ _ _ _ Eu), dict_set_new.
      - unfold dict_keys. rewrite map_app. reflexivity.
      - destruct (dict_get constraint_eqb (sX st) c) eqn:E; [|reflexivity].
        exfalso. apply (Habs c (or_introl eq_refl)).
        apply (dict_get_keys constraint_eqb_eq). congruence. }
    rewrite (IH st1 cols1 st' cols' Hl); [rewrite Hk1, <- app_assoc; reflexivity | | exact H].
    intros k Hk Hin. rewrite Hk1 in Hin. apply in_app_or in Hin.
    destruct Hin as [Hin|[<-|[]]]; [exact (Habs k (or_intror Hk) Hin) | contradiction].
Qed.

(** X5.  The round trip of C4 does not restore the order of the keys:
    after [select] and [deselect] of a live candidate, [X] lists first the
    keys that the candidate does not name, in their old order, and then the
    constraints of the candidate, last one first.  The scan of [attempt]
    runs in this order, so the round trip changes how later ties are
    broken. *)
Theorem round_trip_key_order (st : store) (row : candidate) (yr : list constraint) :
  index_wf (sX st) (sY st) -> live (sX st) (sY st) row ->
  dict_get candidate_eqb (sY st) row = Some yr ->
  exists cols st1 st2,
    select row st = (st1, Ok cols) /\
    deselect row cols st1 = (st2, Ok tt) /\
    dict_keys (sX st2)
    = filter (fun k => negb (cmem k yr)) (dict_keys (sX st)) ++ rev yr.
Proof.
  intros Hwf [yr' [HY' [Hne Hall]]] HY.
  assert (yr' = yr) by congruence. subst yr'.
  assert (Hnd : NoDup yr).
  { destruct yr as [|c yr']; [congruence|].
    destruct (Hall c (or_introl eq_refl)) as [s [Hs Hrow]].
    destruct (wf_live Hwf Hs Hrow) as [yr2 [HY2 [Hnd _]]]. congruence. }
  destruct (select_run row st Hwf HY Hnd) as [X1 [cols [Hsel [Hwf1 [_ [_ [_ Hback]]]]]]].
  { intros c Hc. destruct (Hall c Hc) as [s [Hs _]]. congruence. }
  destruct (Hback (setX X1 st) eq_refl (content_eq_refl X1) (index_wf_nodups Hwf1))
    as [X2 [Hdes [_ _]]].
  exists cols, (setX X1 st), (setX X2 (setX X1 st)).
  split; [exact Hsel|]. split; [exact Hdes|].
  assert (Hk1 : dict_keys X1
                = filter (fun k => negb (cmem k yr)) (dict_keys (sX st))).
  { unfold select, bind, Y_get in Hsel. rewrite HY in Hsel.
    change (foldM _ yr [] st) with (foldM select_step yr [] st) in Hsel.
    exact (select_loop_keys _ _ _ _ _ Hsel). }
  unfold deselect in Hdes. unfold bind at 1 in Hdes. unfold Y_get in Hdes.
  simpl sY in Hdes. rewrite HY in Hdes. unfold bind in Hdes.
  change (foldM _ (rev yr) cols (setX X1 st))
    with (foldM deselect_step (rev yr) cols (setX X1 st)) in Hdes.
  destruct (foldM deselect_step (rev yr) cols (setX X1 st)) as [st2 [cols'|e]] eqn:Eloop;
    [|discriminate].
  unfold ret in Hdes. injection Hdes as Hst2.
  apply deselect_loop_keys in Eloop.
  - rewrite Hst2 in Eloop. simpl in Eloop. simpl. rewrite Eloop, Hk1. reflexivity.
  - apply NoDup_rev. exact Hnd.
  - intros k Hk Hin. apply in_rev in Hk. simpl in Hin. rewrite Hk1 in Hin.
    apply filter_In in Hin. destruct Hin as [_ Hin].
    apply negb_true_iff in Hin.
    assert (cmem k yr = true) by (apply cmem_In; exact Hk). congruence.
Qed.

Lemma round_trip_key_order_witness :
  exists cols st1 st2,
    select (0, 1, 2)
      (fst (prepare 4 (initial_store [[1;0;0;0];[0;0;1;0];[0;1;0;0];[0;0;0;2]])))
      = (st1, Ok cols) /\
    deselect (0, 1, 2) cols st1 = (st2, Ok tt) /\
    dict_keys (sX st2)
    = filter (fun k => negb (cmem k (constraints_of 2 (0, 1, 2))))
        (dict_keys
           (sX (fst (prepare 4
                  (initial_store [[1;0;0;0];[0;0;1;0];[0;1;0;0];[0;0;0;2]])))))
      ++ rev (constraints_of 2 (0, 1, 2)).
Proof.
  apply round_trip_key_order.
  - apply index_wfb_sound. vm_compute. reflexivity.
  - apply liveb_sound. vm_compute. reflexivity.
  - vm_compute. reflexivity.
Defined.

(** ** The unbound local of the scan *)

Lemma scan_unbound (entries : dictX) :
  forall L, L <> 1 ->
    (scan entries None L = None <-> forall e, In e entries -> L <= length (snd e)).
Proof.
  induction entries as [|[a s] rest IH]; intros L HL; simpl.
  - split; [intros _ e [] | reflexivity].
  - destruct (length s <? L) eqn:E.
    + apply Nat.ltb_lt in E. split.
      * intro H. exfalso.
        destruct (length s =? 1); [discriminate|].
        destruct (scan_some rest a (length s)) as [i Hi]. congruence.
      * intro H. specialize (H (a, s) (or_introl eq_refl)). simpl in H. lia.
    + apply Nat.ltb_ge in E. rewrite (proj2 (Nat.eqb_neq L 1) HL).
      rewrite (IH L HL). split.
      * intros H e [<-|He]; [exact E | exact (H e He)].
      * intros H e He. apply H. right; exact He.
Qed.

(** X6.  The scan of [attempt] leaves its local [i] unbound exactly when
    every constraint in [X] has ten candidates or more; with [X] not empty,
    line 164 then raises [UnboundLocalError]. *)
Theorem choose_unbound_iff (X : dictX) :
  choose X = None <-> forall e, In e X -> 10 <= length (snd e).
Proof. unfold choose. apply scan_unbound. discriminate. Qed.

(** ** The store that [prepare] hands to [attempt] *)

Lemma prepared_store (board : grid) (st : store) :
  check_board board = true ->
  prepare (length board) (initial_store board) = (st, Ok tt) ->
  seedable (Nat.sqrt (length board)) [] (clues board (length board)) = true /\
  st = mkStore (sX st) (built_Y (length board) (Nat.sqrt (length board))) [] board /\
  seed_inv (Nat.sqrt (length board)) (sX st) (rev (clues board (length board))).
Proof.
  intros Hchk Hrun. pose proof (prepare_run board Hchk) as Hprep.
  destruct (seedable (Nat.sqrt (length board)) [] (clues board (length board))).
  - destruct Hprep as [X [Hrun' Hinv]]. rewrite Hrun in Hrun'.
    injection Hrun' as ->. simpl. auto.
  - destruct Hprep as [st' Hrun']. rewrite Hrun in Hrun'. discriminate Hrun'.
Qed.

Lemma prepared_yields (board : grid) (st y : store) :
  check_board board = true ->
  prepare (length board) (initial_store board) = (st, Ok tt) ->
  In y (fst (attempt (S (length (sX st))) (setSolution [] st))) ->
  sBoard y = board /\
  solution_of (sX st)
    (built_Y (Nat.sqrt (length board) * Nat.sqrt (length board))
             (Nat.sqrt (length board))) (sSolution y).
Proof.
  intros Hchk Hrun Hy.
  destruct (prepared_store board st Hchk Hrun) as [_ [Hst [Hwf _]]].
  destruct (check_board_shape board Hchk) as [Hsq _].
  destruct (attempt (S (length (sX st))) (setSolution [] st)) as [ys [st' r]] eqn:Eatt.
  simpl in Hy.
  assert (HY : sY st = built_Y (length board) (Nat.sqrt (length board)))
    by (rewrite Hst; reflexivity).
  assert (HB : sBoard st = board) by (rewrite Hst; reflexivity).
  destruct (attempt_sound (S (length (sX st))) (setSolution [] st) ys st' r)
    as [Hys _]; [simpl; rewrite HY; rewrite Hsq in Hwf; exact Hwf | simpl; lia
                 | exact Eatt |].
  destruct (attempt_frame _ _ _ _ _ Eatt) as [_ [_ [Hfr _]]].
  destruct (Hfr y Hy) as [_ HBy]. simpl in HBy.
  destruct (Hys y Hy) as [T [HT Hsol]]. simpl in HT, Hsol.
  split; [congruence|]. rewrite HT, Hsq. rewrite HY in Hsol. exact Hsol.
Qed.

(** ** The outcomes of [solve] *)

(** X7.  On a checked board of any side, [solve] ends in one of three
    ways: its generator is exhausted, or the seeding raises the
    [Exception('Invalid board.')], or the scan of [attempt] leaves its
    local unbound, which needs a side of 10 or more.  No [KeyError] of
    [select], no [IndexError] of [deselect], of [solution.pop()] or of the
    writes into the copy of the board escapes, and the fuel of the model
    suffices. *)
Theorem solve_outcome (board : grid) :
  check_board board = true ->
  snd (snd (solve board)) = Ok tt \/
  snd (snd (solve board)) = Raise InvalidBoard \/
  (snd (snd (solve board)) = Raise UnboundLocalError /\ 10 <= length board).
Proof.
  intros Hchk.
  pose proof (prepare_run board Hchk) as Hprep.
  destruct (check_board_shape board Hchk) as [Hsq _].
  destruct (seedable (Nat.sqrt (length board)) [] (clues board (length board))) eqn:Eseed.
  2:{ destruct Hprep as [st' Hrun]. unfold solve. rewrite Hrun. simpl. auto. }
  destruct Hprep as [X [Hrun Hinv]]. pose proof Hinv as [Hwf _].
  unfold solve. rewrite Hrun.
  remember (Nat.sqrt (length board)) as B eqn:EB.
  set (st := mkStore X (built_Y (length board) B) [] board) in *.
  destruct (attempt (S (length (sX st))) (setSolution [] st)) as [ys [st' r]] eqn:Eatt.
  assert (Hwf' : index_wf (sX (setSolution [] st)) (sY (setSolution [] st))).
  { simpl. rewrite <- Hsq. exact Hwf. }
  destruct (attempt_sound (S (length (sX st))) (setSolution [] st) ys st' r Hwf')
    as [Hys Hr]; [simpl; lia | exact Eatt |].
  destruct (attempt_frame _ _ _ _ _ Eatt) as [_ [_ [Hfr _]]].
  rewrite consume_all.
  - simpl. destruct Hr as [[-> _] | [-> [X' [Hwf1 [Hne Hch]]]]]; [left; reflexivity|].
    right; right. split; [reflexivity|].
    simpl in Hwf1. rewrite <- Hsq in Hwf1.
    destruct X' as [|[k s] X'']; [congruence|].
    assert (Hk : dict_get constraint_eqb ((k, s) :: X'') k = Some s)
      by (simpl; rewrite constraint_eqb_refl; reflexivity).
    pose proof (wf_sizes B _ k s Hwf1 Hk) as Hsize.
    pose proof (proj1 (scan_unbound _ 10 ltac:(discriminate)) Hch (k, s)
                  (or_introl eq_refl)) as Hten.
    simpl in Hten. lia.
  - intros y Hy. destruct (Hys y Hy) as [T [HT [_ [Hlive _]]]].
    destruct (Hfr y Hy) as [_ HB]. simpl in HT, HB, Hlive. rewrite HT, HB.
    destruct (fill_ok T (length board) board eq_refl) as [g Hg].
    + intros r0 Hr'. exact (board_rows board r0 Hchk Hr').
    + intros r0 c0 v0 Hin. rewrite <- Hsq in Hlive.
      destruct (live_built B X (r0, c0, v0) (Hlive _ Hin)) as [Hc _].
      rewrite Hsq in Hc. apply In_all_cands in Hc. lia.
    + congruence.
Qed.

Lemma solve_outcome_witness :
  snd (snd (solve [[1;0;0;0];[0;0;0;0];[0;0;0;3];[0;0;0;2]])) = Ok tt \/
  snd (snd (solve [[1;0;0;0];[0;0;0;0];[0;0;0;3];[0;0;0;2]])) = Raise InvalidBoard \/
  (snd (snd (solve [[1;0;0;0];[0;0;0;0];[0;0;0;3];[0;0;0;2]])) = Raise UnboundLocalError /\
   10 <= length [[1;0;0;0];[0;0;0;0];[0;0;0;3];[0;0;0;2]]).
Proof.
  apply (solve_outcome [[1;0;0;0];[0;0;0;0];[0;0;0;3];[0;0;0;2]]).
  vm_compute. reflexivity.
Defined.

(** ** The cells that a solution writes *)

Lemma solution_NoDup (B : nat) (X : dictX) (T : list candidate) :
  solution_of X (built_Y (B * B) B) T -> NoDup T.
Proof.
  intros [_ [Hb Hd]]. induction Hd as [|t T Ht HT IH]; [constructor|].
  constructor.
  - intro Hin. rewrite Forall_forall in Ht. specialize (Ht t Hin).
    destruct (live_Yf (Hb t (or_introl eq_refl))) as [Hne _].
    destruct (Yf (built_Y (B * B) B) t) as [|c l] eqn:E; [congruence|].
    apply (Ht c); rewrite E; left; reflexivity.
  - apply IH. intros t' Ht'. apply Hb. right; exact Ht'.
Qed.

(** X8.  On a checked board whose seeding succeeds, each solution list that
    [attempt] yields to [solve] holds exactly one candidate for every empty
    cell of the board and none for a cell with a clue: the writes
    [b[r][c] = n] of lines 150-151 fill each empty cell once and never touch
    a clue. *)
Theorem solutions_fill_empty_cells (board : grid) (st y : store) :
  check_board board = true ->
  prepare (length board) (initial_store board) = (st, Ok tt) ->
  In y (fst (attempt (S (length (sX st))) (setSolution [] st))) ->
  NoDup (map cell_of (sSolution y)) /\
  forall r c,
    In (r, c) (map cell_of (sSolution y)) <->
    r < length board /\ c < length board /\ cell board r c = 0.
Proof.
  intros Hchk Hrun Hy.
  destruct (prepared_store board st Hchk Hrun) as [Hseed [_ Hinv]].
  destruct (prepared_yields board st y Hchk Hrun Hy) as [_ Hsol].
  destruct (check_board_shape board Hchk) as [Hsq _].
  assert (Hcl : forall j, In j (clues board (length board)) ->
            In j (all_cands (Nat.sqrt (length board) * Nat.sqrt (length board)))).
  { intros j Hj. rewrite Hsq. exact (clues_in_cands board j Hchk Hj). }
  pose proof (exact_cover_of_solution _ _ _ _ Hinv Hseed Hcl Hsol) as [E1 [E2 E3]].
  pose proof (fun t => solution_not_clue _ _ _ _ t Hinv Hsol) as Hnc.
  split.
  - apply Injective_map_NoDup_in; [|exact (solution_NoDup _ _ _ Hsol)].
    intros [[r c] v] [[r' c'] v'] Hin Hin' E. unfold cell_of in E. simpl in E.
    inversion E; subst.
    apply (E2 _ _ (rowcol, r', c')); try (apply in_or_app; right; assumption);
      left; reflexivity.
  - intros r c. rewrite in_map_iff. split.
    + intros [[[r0 c0] v] [E Hin]]. unfold cell_of in E. simpl in E.
      inversion E; subst.
      pose proof (E3 _ (in_or_app _ _ _ (or_intror Hin))) as Hrange.
      rewrite Hsq in Hrange. apply In_all_cands in Hrange.
      split; [lia|]. split; [lia|].
      destruct (Nat.eq_dec (cell board r c) 0) as [H0|H0]; [exact H0|].
      exfalso. apply (Hnc (r, c, v) Hin).
      assert (Hclue : In (r, c, cell board r c) (clues board (length board)))
        by (apply In_clues; repeat split; try lia; exact H0).
      rewrite (E2 (r, c, v) (r, c, cell board r c) (rowcol, r, c));
        [exact Hclue | apply in_or_app; right; exact Hin
         | apply in_or_app; left; exact Hclue | left; reflexivity | left; reflexivity].
    + intros [Hr [Hc H0]].
      destruct (E1 (rowcol, r, c)) as [[[r0 c0] v] [Hs Hk]].
      { apply In_all_keys. rewrite Hsq. auto. }
      simpl in Hk. destruct Hk as [E|[E|[E|[E|[]]]]]; inversion E; subst.
      exists (r, c, v). split; [reflexivity|].
      apply in_app_or in Hs. destruct Hs as [Hs|Hs]; [|exact Hs].
      apply In_clues in Hs. lia.
Qed.

Lemma solutions_fill_empty_cells_witness :
  NoDup (map cell_of (sSolution
    (nth 0 (fst (attempt 60
       (setSolution []
          (fst (prepare 4 (initial_store [[1;0;0;0];[0;0;0;0];[0;0;0;3];[0;0;0;2]]))))))
       (initial_store [])))) /\
  forall r c,
    In (r, c) (map cell_of (sSolution
      (nth 0 (fst (attempt 60
         (setSolution []
            (fst (prepare 4 (initial_store [[1;0;0;0];[0;0;0;0];[0;0;0;3];[0;0;0;2]]))))))
         (initial_store [])))) <->
    r < length [[1;0;0;0];[0;0;0;0];[0;0;0;3];[0;0;0;2]] /\
    c < length [[1;0;0;0];[0;0;0;0];[0;0;0;3];[0;0;0;2]] /\
    cell [[1;0;0;0];[0;0;0;0];[0;0;0;3];[0;0;0;2]] r c = 0.
Proof.
  apply (solutions_fill_empty_cells
           [[1;0;0;0];[0;0;0;0];[0;0;0;3];[0;0;0;2]]
           (fst (prepare 4 (initial_store [[1;0;0;0];[0;0;0;0];[0;0;0;3];[0;0;0;2]])))).
  - vm_compute. reflexivity.
  - vm_compute. reflexivity.
  - vm_compute. left. reflexivity.
Defined.

(** ** The size of the seeded index *)

Lemma seeded_size (B : nat) (X : dictX) (cl : list candidate) :
  seed_inv B X (rev cl) -> seedable B [] cl = true -> NoDup cl ->
  (forall j, In j cl -> In j (all_cands (B * B))) ->
  length X + 4 * length cl = 4 * (B * B * (B * B)).
Proof.
  intros [Hwf [Hdom _]] Hseed Hnd Hcl.
  destruct (seedable_unique B cl [] Hseed) as [Huniq _].
  assert (HndL : NoDup (flat_map (constraints_of B) cl)).
  { apply NoDup_flat_map; [exact Hnd | intros; apply NoDup_constraints_of |].
    intros a a' b Ha Ha' Hb Hb'. exact (Huniq a a' b Ha Ha' Hb Hb'). }
  assert (HlenL : length (flat_map (constraints_of B) cl) = length cl * 4).
  { apply length_flat_map_const. intros [[r c] v] _. reflexivity. }
  assert (Hperm : Permutation (dict_keys X ++ flat_map (constraints_of B) cl)
                              (all_keys (B * B))).
  { apply NoDup_Permutation.
    - apply NoDup_app; [exact (proj1 Hwf) | exact HndL |].
      intros k Hk HkL. apply (dict_get_keys constraint_eqb_eq) in Hk.
      apply Hdom in Hk. destruct Hk as [_ Hno].
      apply in_flat_map in HkL. destruct HkL as [d [Hd Hkd]].
      apply (Hno d); [apply -> in_rev; exact Hd | exact Hkd].
    - apply NoDup_all_keys.
    - intro k. rewrite in_app_iff. split.
      + intros [Hk|Hk].
        * apply (dict_get_keys constraint_eqb_eq) in Hk. apply Hdom in Hk. tauto.
        * apply in_flat_map in Hk. destruct Hk as [d [Hd Hkd]].
          exact (constraints_in_keys B d k (Hcl d Hd) Hkd).
      + intro Hk.
        destruct (existsb (fun d => cmem k (constraints_of B d)) cl) eqn:Eex.
        * right. apply existsb_exists in Eex. destruct Eex as [d [Hd Hkd]].
          apply in_flat_map. exists d. split; [exact Hd | apply cmem_In; exact Hkd].
        * left. apply (dict_get_keys constraint_eqb_eq). apply Hdom.
          split; [exact Hk|]. intros d Hd Hkd. apply in_rev in Hd.
          rewrite <- not_true_iff_false in Eex. apply Eex.
          apply existsb_exists. exists d. split; [exact Hd | apply cmem_In; exact Hkd]. }
  apply Permutation_length in Hperm.
  rewrite length_app, dict_length_keys, HlenL, length_all_keys in Hperm. lia.
Qed.

(** X9.  When the seeding of a checked board succeeds, each clue has taken
    exactly its four constraints out of [X]: with [k] clues on a board of
    side [N], [attempt] starts from an index of [4 * (N * N - k)]
    constraints. *)
Theorem seeded_index_size (board : grid) (st : store) :
  check_board board = true ->
  prepare (length board) (initial_store board) = (st, Ok tt) ->
  length (sX st) + 4 * length (clues board (length board))
  = 4 * (length board * length board).
Proof.
  intros Hchk Hrun.
  destruct (prepared_store board st Hchk Hrun) as [Hseed [_ Hinv]].
  destruct (check_board_shape board Hchk) as [Hsq _].
  pose proof (seeded_size _ _ _ Hinv Hseed (NoDup_clues board (length board))) as H.
  rewrite Hsq in H. apply H.
  intros j Hj. exact (clues_in_cands board j Hchk Hj).
Qed.

Lemma seeded_index_size_witness :
  length (sX (fst (prepare 4 (initial_store [[1;0;0;0];[0;0;0;0];[0;0;0;3];[0;0;0;2]]))))
  + 4 * length (clues [[1;0;0;0];[0;0;0;0];[0;0;0;3];[0;0;0;2]] 4)
  = 4 * (4 * 4).
Proof.
  apply (seeded_index_size [[1;0;0;0];[0;0;0;0];[0;0;0;3];[0;0;0;2]]).
  - vm_compute. reflexivity.
  - vm_compute. reflexivity.
Defined.

(** * Reading, checking and writing boards *)

(** ** The loop that collapses runs of spaces *)

Lemma string_ind2 (P : string -> Prop) :
  P EmptyString ->
  (forall c, P (String c EmptyString)) ->
  (forall c c' t, P t -> P (String c' t) -> P (String c (String c' t))) ->
  forall s, P s.
Proof.
  intros H0 H1 H2.
  assert (H : forall s, P s /\ forall c, P (String c s)).
  { induction s as [|c' t [IH1 IH2]]; split; auto. }
  intro s. exact (proj1 (H s)).
Qed.

Lemma has_double_space_eq (c c' : ascii) (t : string) :
  has_double_space (String c (String c' t))
  = if Ascii.eqb c " "%char && Ascii.eqb c' " "%char then true
    else has_double_space (String c' t).
Proof. reflexivity. Qed.

Lemma replace_double_eq (c c' : ascii) (t : string) :
  replace_double (String c (String c' t))
  = if Ascii.eqb c " "%char && Ascii.eqb c' " "%char
    then String " "%char (replace_double t)
    else String c (replace_double (String c' t)).
Proof. reflexivity. Qed.

Lemma squeeze_eq (c c' : ascii) (t : string) :
  squeeze (String c (String c' t))
  = if Ascii.eqb c " "%char && Ascii.eqb c' " "%char then squeeze (String c' t)
    else String c (squeeze (String c' t)).
Proof. reflexivity. Qed.

Lemma both_spaces (c c' : ascii) :
  Ascii.eqb c " "%char && Ascii.eqb c' " "%char = true ->
  c = " "%char /\ c' = " "%char.
Proof.
  rewrite andb_true_iff, !Ascii.eqb_eq. auto.
Qed.

Lemma squeeze_replace_cons (t : string) :
  forall c, squeeze (String c (replace_double t)) = squeeze (String c t).
Proof.
  induction t as [| a | a b t' IH1 IH2] using string_ind2; intro c.
  - reflexivity.
  - reflexivity.
  - rewrite replace_double_eq.
    destruct (Ascii.eqb a " "%char && Ascii.eqb b " "%char) eqn:Eab.
    + apply both_spaces in Eab. destruct Eab as [-> ->].
      rewrite !squeeze_eq. simpl (Ascii.eqb " " " "). rewrite !andb_true_r.
      simpl (if true then _ else _).
      rewrite (IH1 " "%char). reflexivity.
    + rewrite (squeeze_eq c a (replace_double (String b t'))).
      rewrite (squeeze_eq c a (String b t')).
      rewrite (IH2 a). reflexivity.
Qed.

Lemma squeeze_replace (s : string) : squeeze (replace_double s) = squeeze s.
Proof.
  destruct s as [|c [|c' t]]; try reflexivity.
  rewrite replace_double_eq, squeeze_eq.
  destruct (Ascii.eqb c " "%char && Ascii.eqb c' " "%char) eqn:E.
  - apply both_spaces in E. destruct E as [-> ->]. apply squeeze_replace_cons.
  - rewrite squeeze_replace_cons, squeeze_eq, E. reflexivity.
Qed.

Lemma squeeze_fixed (s : string) : has_double_space s = false -> squeeze s = s.
Proof.
  induction s as [| c | c c' t _ IH] using string_ind2; intro H; try reflexivity.
  rewrite has_double_space_eq in H. rewrite squeeze_eq.
  destruct (Ascii.eqb c " "%char && Ascii.eqb c' " "%char); [discriminate|].
  rewrite (IH H). reflexivity.
Qed.

Lemma replace_double_length (s : string) :
  String.length (replace_double s) <= String.length s /\
  (has_double_space s = true -> String.length (replace_double s) < String.length s).
Proof.
  induction s as [| c | c c' t [IH1 _] [IH2 IH2']] using string_ind2.
  - simpl. split; [lia | discriminate].
  - simpl. split; [lia | discriminate].
  - rewrite replace_double_eq, has_double_space_eq.
    destruct (Ascii.eqb c " "%char && Ascii.eqb c' " "%char).
    + simpl String.length. split; [lia | intros _; lia].
    + change (String.length (String c (replace_double (String c' t))))
        with (S (String.length (replace_double (String c' t)))).
      change (String.length (String c (String c' t)))
        with (S (String.length (String c' t))).
      split; [lia | intro H; specialize (IH2' H); lia].
Qed.

Lemma collapse_loop_squeeze (fuel : nat) :
  forall s, String.length s <= fuel -> collapse_loop fuel s = squeeze s.
Proof.
  induction fuel as [|fuel IH]; intros s Hlen; simpl.
  - destruct s; [reflexivity | simpl in Hlen; lia].
  - destruct (has_double_space s) eqn:E.
    + destruct (replace_double_length s) as [_ Hlt]. specialize (Hlt E).
      rewrite IH by lia. apply squeeze_replace.
    + symmetry. apply squeeze_fixed. exact E.
Qed.

Lemma squeeze_head (c : ascii) (t : string) :
  exists t', squeeze (String c t) = String c t'.
Proof.
  revert c. induction t as [|c' t IH]; intro c; [exists EmptyString; reflexivity|].
  rewrite squeeze_eq.
  destruct (Ascii.eqb c " "%char && Ascii.eqb c' " "%char) eqn:E.
  - apply both_spaces in E. destruct E as [-> ->]. apply IH.
  - eexists. reflexivity.
Qed.

Lemma squeeze_no_double (s : string) : has_double_space (squeeze s) = false.
Proof.
  induction s as [| c | c c' t _ IH] using string_ind2; try reflexivity.
  rewrite squeeze_eq.
  destruct (Ascii.eqb c " "%char && Ascii.eqb c' " "%char) eqn:E; [exact IH|].
  destruct (squeeze_head c' t) as [t' Ht]. rewrite Ht in *.
  rewrite has_double_space_eq, E. exact IH.
Qed.

(** X10.  The loop of line 53 ends, and it leaves the row with every run
    of spaces cut down to a single space: no two spaces are adjacent in
    what [re.split] receives. *)
Theorem collapse_spec (row : string) :
  collapse row = squeeze row /\ has_double_space (collapse row) = false.
Proof.
  assert (H : collapse row = squeeze row)
    by (apply collapse_loop_squeeze; unfold collapse; lia).
  split; [exact H | rewrite H; apply squeeze_no_double].
Qed.

(** ** The tokens of a line *)

Lemma append_nil_r (s : string) : (s ++ EmptyString)%string = s.
Proof. induction s as [|c s IH]; simpl; [reflexivity | rewrite IH; reflexivity]. Qed.

Lemma append_assoc (s t u : string) :
  ((s ++ t) ++ u)%string = (s ++ (t ++ u))%string.
Proof. induction s as [|c s IH]; simpl; [reflexivity | rewrite IH; reflexivity]. Qed.

Lemma all_chars_app (p : ascii -> bool) (s t : string) :
  all_chars p (s ++ t) = all_chars p s && all_chars p t.
Proof.
  induction s as [|c s IH]; simpl; [reflexivity|].
  rewrite IH, andb_assoc. reflexivity.
Qed.

Lemma all_chars_weaken (p q : ascii -> bool) (s : string) :
  (forall c, p c = true -> q c = true) ->
  all_chars p s = true -> all_chars q s = true.
Proof.
  intro H. induction s as [|c s IH]; simpl; [reflexivity|].
  rewrite !andb_true_iff. intros [Hc Hs]. split; [exact (H c Hc) | exact (IH Hs)].
Qed.

Lemma numeric_cases (c : ascii) :
  numeric c = true ->
  word_char c = true /\ Ascii.eqb c "#"%char = false.
Proof.
  unfold numeric. rewrite existsb_exists. intros [d [Hd E]].
  apply Ascii.eqb_eq in E. subst d. simpl in Hd.
  repeat (destruct Hd as [<-|Hd]; [split; reflexivity|]). destruct Hd.
Qed.

Lemma uint_numeric (d : Decimal.uint) :
  all_chars numeric (NilEmpty.string_of_uint d) = true.
Proof. induction d; simpl; try rewrite IHd; reflexivity. Qed.

Lemma str_numeric (x : Z) :
  all_chars numeric (str x) = true /\ str x <> EmptyString.
Proof.
  assert (H : forall d, all_chars numeric (NilZero.string_of_uint d) = true /\
                        NilZero.string_of_uint d <> EmptyString).
  { intro d. destruct d; simpl; (split; [try apply uint_numeric; reflexivity | discriminate]). }
  unfold str. destruct (Z.to_int x) as [d|d]; simpl.
  - apply H.
  - split; [exact (proj1 (H d)) | discriminate].
Qed.

Lemma re_split_not_nil (s : string) : re_split s <> [].
Proof.
  induction s as [|c s IH]; simpl; [discriminate|].
  destruct (Ascii.eqb c ","%char).
  - destruct s as [|c' s']; [discriminate|].
    destruct (Ascii.eqb c' " "%char); discriminate.
  - destruct (Ascii.eqb c " "%char); [discriminate|].
    destruct (re_split s); discriminate.
Qed.

Lemma re_split_word (t s : string) :
  all_chars word_char t = true ->
  re_split (t ++ s)
  = match re_split s with
    | x :: xs => (t ++ x)%string :: xs
    | [] => [t]
    end.
Proof.
  induction t as [|c t IH]; simpl.
  - intros _. destruct (re_split s) as [|x xs] eqn:E; [|reflexivity].
    exfalso. exact (re_split_not_nil s E).
  - rewrite andb_true_iff. unfold word_char at 1.
    rewrite andb_true_iff, !negb_true_iff. intros [[Hc1 Hc2] Ht].
    rewrite Hc1, Hc2, (IH Ht).
    destruct (re_split s) as [|x xs] eqn:E; [|reflexivity].
    exfalso. exact (re_split_not_nil s E).
Qed.

Lemma has_double_space_word (t s : string) :
  all_chars word_char t = true ->
  has_double_space (t ++ s) = has_double_space s.
Proof.
  induction t as [|c t IH]; simpl; [reflexivity|].
  rewrite andb_true_iff. unfold word_char at 1.
  rewrite andb_true_iff, !negb_true_iff. intros [[_ Hc] Ht].
  rewrite Hc. simpl. rewrite <- (IH Ht).
  destruct (t ++ s)%string eqn:E; [|reflexivity].
  destruct t; [simpl in E; subst s; reflexivity | discriminate E].
Qed.

Lemma concat_cons2 (sep t t2 : string) (ts : list string) :
  String.concat sep (t :: t2 :: ts)
  = (t ++ sep ++ String.concat sep (t2 :: ts))%string.
Proof. reflexivity. Qed.

Lemma concat_head (sep t : string) (ts : list string) :
  exists w, String.concat sep (t :: ts) = (t ++ w)%string.
Proof.
  destruct ts as [|t2 ts].
  - exists EmptyString. simpl. rewrite append_nil_r. reflexivity.
  - eexists. apply concat_cons2.
Qed.

Lemma sep_split (sep : string) (c : ascii) (r : string) :
  sep = ","%string \/ sep = ", "%string \/ sep = " "%string ->
  Ascii.eqb c " "%char = false ->
  re_split (sep ++ String c r) = EmptyString :: re_split (String c r) /\
  has_double_space (sep ++ String c r) = has_double_space (String c r).
Proof.
  intros [-> | [-> | ->]] Hc.
  - change (","%string ++ String c r)%string with (String ","%char (String c r)).
    split.
    + change (re_split (String ","%char (String c r)))
        with (if Ascii.eqb c " "%char then EmptyString :: re_split r
              else EmptyString :: re_split (String c r)).
      rewrite Hc. reflexivity.
    + rewrite has_double_space_eq. reflexivity.
  - change (", "%string ++ String c r)%string
      with (String ","%char (String " "%char (String c r))).
    split; [reflexivity|].
    rewrite !has_double_space_eq, Hc. reflexivity.
  - change (" "%string ++ String c r)%string with (String " "%char (String c r)).
    split; [reflexivity|].
    rewrite has_double_space_eq, Hc. reflexivity.
Qed.

Lemma split_line (sep e : string) :
  sep = ","%string \/ sep = ", "%string \/ sep = " "%string ->
  all_chars word_char e = true ->
  forall ts,
    ts <> [] ->
    (forall t, In t ts -> all_chars word_char t = true /\ t <> EmptyString) ->
    re_split (String.concat sep ts ++ e) = with_suffix ts e /\
    has_double_space (String.concat sep ts ++ e) = false.
Proof.
  intros Hsep He. induction ts as [|t ts IH]; intros Hne Hts; [congruence|].
  destruct (Hts t (or_introl eq_refl)) as [Ht _].
  destruct ts as [|t2 ts].
  - simpl String.concat. simpl with_suffix.
    assert (Hte : all_chars word_char (t ++ e) = true)
      by (rewrite all_chars_app, Ht, He; reflexivity).
    rewrite <- (append_nil_r (t ++ e)).
    rewrite (re_split_word _ _ Hte), (has_double_space_word _ _ Hte).
    split; reflexivity.
  - destruct IH as [IH1 IH2]; [discriminate | intros x Hx; apply Hts; right; exact Hx|].
    destruct (Hts t2 (or_intror (or_introl eq_refl))) as [Ht2 Hne2].
    destruct (concat_head sep t2 ts) as [w Hw].
    destruct t2 as [|c t2']; [congruence|].
    assert (Hc : Ascii.eqb c " "%char = false).
    { simpl in Ht2. apply andb_true_iff in Ht2. destruct Ht2 as [Hc _].
      unfold word_char in Hc. apply andb_true_iff in Hc.
      rewrite !negb_true_iff in Hc. tauto. }
    rewrite concat_cons2, !append_assoc.
    rewrite (re_split_word _ _ Ht), (has_double_space_word _ _ Ht).
    change (with_suffix (t :: String c t2' :: ts) e)
      with (t :: with_suffix (String c t2' :: ts) e).
    rewrite <- IH1, <- IH2. rewrite Hw.
    change ((String c t2' ++ w) ++ e)%string with (String c ((t2' ++ w) ++ e)).
    destruct (sep_split sep c ((t2' ++ w) ++ e) Hsep Hc) as [E1 E2].
    rewrite E1, E2, append_nil_r. split; reflexivity.
Qed.

(** ** [make_board] *)

Lemma collapse_fixed (s : string) : has_double_space s = false -> collapse s = s.
Proof.
  intro H. unfold collapse. destruct (String.length s); simpl; [reflexivity|].
  rewrite H. reflexivity.
Qed.

Lemma make_board_loop_app (py_int : string -> option Z) (l1 l2 : list string) :
  forall b,
    make_board_loop py_int (l1 ++ l2) b
    = match make_board_loop py_int l1 b with
      | inl b' => make_board_loop py_int l2 b'
      | inr e => inr e
      end.
Proof.
  induction l1 as [|row l1 IH]; intro b; simpl; [reflexivity|].
  destruct row as [|c t]; [reflexivity|].
  destruct (Ascii.eqb c "#"%char); [apply IH|].
  destruct (parse_tokens py_int (re_split (collapse (String c t))) []); [apply IH | reflexivity].
Qed.

Lemma parse_row (py_int : string -> option Z) (e : string) (row : list Z) :
  row <> [] ->
  (forall x, In x row -> py_int (str x) = Some x /\ py_int (str x ++ e)%string = Some x) ->
  forall acc, parse_tokens py_int (with_suffix (map str row) e) acc = inl (acc ++ row).
Proof.
  induction row as [|x row IH]; intros Hne Hpy acc; [congruence|].
  destruct (Hpy x (or_introl eq_refl)) as [Hx Hxe].
  destruct row as [|x2 row].
  - simpl. rewrite Hxe. reflexivity.
  - change (with_suffix (map str (x :: x2 :: row)) e)
      with (str x :: with_suffix (map str (x2 :: row)) e).
    simpl parse_tokens. rewrite Hx.
    rewrite IH; [rewrite <- app_assoc; reflexivity | discriminate |].
    intros y Hy. apply Hpy. right; exact Hy.
Qed.

Lemma input_line_head (sep : string) (row : list Z) (eol : bool) :
  row <> [] ->
  exists c t, input_line sep row eol = String c t /\ Ascii.eqb c "#"%char = false.
Proof.
  destruct row as [|x row]; [congruence|]. intros _. unfold input_line.
  simpl map. destruct (concat_head sep (str x) (map str row)) as [w Hw].
  rewrite Hw. destruct (str_numeric x) as [Hnum Hne].
  destruct (str x) as [|c t]; [congruence|].
  simpl in Hnum. apply andb_true_iff in Hnum. destruct Hnum as [Hc _].
  exists c. eexists. split; [reflexivity | exact (proj2 (numeric_cases c Hc))].
Qed.

Lemma input_line_tokens (sep : string) (row : list Z) (eol : bool) :
  sep = ","%string \/ sep = ", "%string \/ sep = " "%string ->
  row <> [] ->
  re_split (collapse (input_line sep row eol))
  = with_suffix (map str row) (if eol then nl else EmptyString).
Proof.
  intros Hsep Hne. unfold input_line.
  destruct (split_line sep (if eol then nl else EmptyString) Hsep) with (ts := map str row)
    as [H1 H2].
  - destruct eol; reflexivity.
  - destruct row; [congruence | discriminate].
  - intros t Ht. apply in_map_iff in Ht. destruct Ht as [x [<- _]].
    destruct (str_numeric x) as [Hnum Hne']. split; [|exact Hne'].
    apply (all_chars_weaken numeric); [|exact Hnum].
    intros c Hc. exact (proj1 (numeric_cases c Hc)).
  - rewrite (collapse_fixed _ H2). exact H1.
Qed.

(** X11.  A file in the format of the example board is read back as the
    board it was written from: when each row is written as its entries
    joined by [","], [", "] or [" "] and no row is empty, [make_board]
    returns the rows, whether or not a line ends in a newline.  [int] is
    asked for no more than to read [str(x)], with or without a final
    newline, as [x]. *)
Theorem make_board_round_trip (py_int : string -> option Z) (sep : string)
    (rows : list (list Z * bool)) :
  sep = ","%string \/ sep = ", "%string \/ sep = " "%string ->
  (forall row eol, In (row, eol) rows -> row <> []) ->
  (forall row eol x, In (row, eol) rows -> In x row ->
     py_int (str x) = Some x /\ py_int (str x ++ nl)%string = Some x) ->
  make_board py_int (map (fun r => input_line sep (fst r) (snd r)) rows)
  = inl (map fst rows).
Proof.
  intros Hsep Hne Hpy. unfold make_board.
  assert (H : forall b,
            make_board_loop py_int
              (map (fun r => input_line sep (fst r) (snd r)) rows) b
            = inl (b ++ map fst rows)); [|apply (H [])].
  induction rows as [|[row eol] rows IH]; intro b; simpl.
  - rewrite app_nil_r. reflexivity.
  - specialize (Hne row eol (or_introl eq_refl)) as Hrow.
    destruct (input_line_head sep row eol Hrow) as [c [t [E Hc]]].
    rewrite E, Hc, <- E, (input_line_tokens sep row eol Hsep Hrow).
    rewrite parse_row; [| exact Hrow |].
    + simpl. rewrite IH; [rewrite <- app_assoc; reflexivity | |].
      * intros r e Hin. apply (Hne r e). right; exact Hin.
      * intros r e x Hin. apply (Hpy r e x). right; exact Hin.
    + intros x Hx. destruct (Hpy row eol x (or_introl eq_refl) Hx) as [H1 H2].
      destruct eol; [auto | rewrite append_nil_r; auto].
Qed.

Lemma make_board_round_trip_witness :
  make_board decimal_int
    (map (fun r => input_line ","%string (fst r) (snd r))
         [([1; 0; 12]%Z, true); ([3; 4; 0]%Z, false)])
  = inl (map fst [([1; 0; 12]%Z, true); ([3; 4; 0]%Z, false)]).
Proof.
  apply make_board_round_trip.
  - left. reflexivity.
  - intros row eol [H|[H|[]]]; inversion H; discriminate.
  - intros row eol x [H|[H|[]]] Hx; inversion H; subst; simpl in Hx;
      repeat (destruct Hx as [<-|Hx]; [vm_compute; split; reflexivity|]);
      destruct Hx.
Defined.

(** X12.  A line whose first character is [#] is skipped wherever it
    stands and whatever follows the [#]: the board read is that of the
    other lines. *)
Theorem make_board_skips_comments (py_int : string -> option Z)
    (before after : list string) (text : string) :
  make_board py_int (before ++ String "#"%char text :: after)
  = make_board py_int (before ++ after).
Proof.
  unfold make_board. rewrite !make_board_loop_app.
  destruct (make_board_loop py_int before []); reflexivity.
Qed.

Lemma parse_tokens_length (py_int : string -> option Z) (xs : list string) :
  forall acc r, parse_tokens py_int xs acc = inl r ->
    length r = length acc + length xs.
Proof.
  induction xs as [|x xs IH]; intros acc r; simpl.
  - intros [= <-]. lia.
  - destruct (py_int x); [|discriminate]. intro H.
    rewrite (IH _ _ H), length_app. simpl. lia.
Qed.

Lemma make_board_loop_rows (py_int : string -> option Z) (lines : list string) :
  forall b b',
    make_board_loop py_int lines b = inl b' ->
    exists rows,
      b' = b ++ rows /\
      length rows = length (filter (fun l => negb (is_comment l)) lines) /\
      forall row, In row rows -> row <> [].
Proof.
  induction lines as [|l lines IH]; intros b b'; simpl.
  - intros [= <-]. exists []. rewrite app_nil_r. repeat split. intros row [].
  - destruct l as [|c t]; [discriminate|]. simpl is_comment.
    destruct (Ascii.eqb c "#"%char); simpl; [apply IH|].
    destruct (parse_tokens py_int (re_split (collapse (String c t))) []) as [r|e] eqn:E;
      [|discriminate].
    intro H. destruct (IH _ _ H) as [rows [-> [Hlen Hrows]]].
    exists (r :: rows). rewrite <- app_assoc. split; [reflexivity|].
    split; [simpl; rewrite Hlen; reflexivity|].
    intros row [<-|Hin]; [|exact (Hrows row Hin)].
    apply parse_tokens_length in E. simpl in E.
    pose proof (re_split_not_nil (collapse (String c t))) as Hnn.
    destruct (re_split (collapse (String c t))); [congruence|].
    destruct r; [simpl in E; lia | discriminate].
Qed.

(** X13.  The board that [make_board] returns has one row for each line
    that is not a comment, and no row of it is empty: [re.split] returns at
    least one token, so a line without entries makes [int] fail rather than
    yield an empty row. *)
Theorem make_board_rows (py_int : string -> option Z) (lines : list string)
    (board : boardZ) :
  make_board py_int lines = inl board ->
  length board = length (filter (fun l => negb (is_comment l)) lines) /\
  forall row, In row board -> row <> [].
Proof.
  intro H. destruct (make_board_loop_rows py_int lines [] board H)
    as [rows [-> [Hlen Hrows]]].
  split; assumption.
Qed.

Lemma make_board_rows_witness :
  length [[1; 2]; [3; 4]]%Z
  = length (filter (fun l => negb (is_comment l))
              ["# a board"%string; ("1,2" ++ nl)%string; "3 4"%string]) /\
  forall row, In row [[1; 2]; [3; 4]]%Z -> row <> [].
Proof.
  apply (make_board_rows decimal_int
           ["# a board"%string; ("1,2" ++ nl)%string; "3 4"%string]).
  vm_compute. reflexivity.
Defined.

(** X14.  Spaces are not ignored at the start of a line, and blank lines
    are not skipped.  After lines that are read without error, a line
    that begins with a space or with a comma gives [re.split] an empty
    first token, and [make_board] raises [Non-integer found] for [''];
    a line that holds only the newline raises it for the newline.  [int]
    is asked for no more than to reject both strings, as Python's does. *)
Theorem make_board_rejects (py_int : string -> option Z)
    (before after : list string) (board : boardZ) :
  make_board py_int before = inl board ->
  py_int EmptyString = None -> py_int nl = None ->
  (forall c t, c = " "%char \/ c = ","%char ->
     make_board py_int (before ++ String c t :: after)
     = inr (NonInteger EmptyString)) /\
  make_board py_int (before ++ nl :: after) = inr (NonInteger nl).
Proof.
  intros Hb He Hn. unfold make_board in *. split.
  - intros c t Hc. rewrite make_board_loop_app, Hb. simpl.
    assert (Hcomment : Ascii.eqb c "#"%char = false)
      by (destruct Hc as [-> | ->]; reflexivity).
    rewrite Hcomment.
    assert (Hcol : collapse (String c t) = squeeze (String c t))
      by (apply collapse_loop_squeeze; unfold collapse; lia).
    destruct (squeeze_head c t) as [t' Ht']. rewrite Hcol, Ht'.
    assert (Hsplit : exists xs, re_split (String c t') = EmptyString :: xs).
    { destruct Hc as [-> | ->]; simpl.
      - eexists. reflexivity.
      - destruct t' as [|c' t'']; [eexists; reflexivity|].
        destruct (Ascii.eqb c' " "%char); eexists; reflexivity. }
    destruct Hsplit as [xs ->]. simpl. rewrite He. reflexivity.
  - rewrite make_board_loop_app, Hb. unfold nl in *. simpl. rewrite Hn. reflexivity.
Qed.

Lemma make_board_rejects_witness :
  (forall c t, c = " "%char \/ c = ","%char ->
     make_board decimal_int (["# a board"%string; ("1,2" ++ nl)%string]
                             ++ String c t :: ["3,4"%string])
     = inr (NonInteger EmptyString)) /\
  make_board decimal_int (["# a board"%string; ("1,2" ++ nl)%string]
                          ++ nl :: ["3,4"%string])
  = inr (NonInteger nl).
Proof.
  apply (make_board_rejects decimal_int
           ["# a board"%string; ("1,2" ++ nl)%string] ["3,4"%string] [[1; 2]]%Z);
    vm_compute; reflexivity.
Defined.

(** ** [check_board] and its exceptions *)

Lemma in_range_test (N : nat) (v : Z) :
  ((0 <=? v) && (v <=? Z.of_nat N))%Z = true <-> in_range N v.
Proof. unfold in_range. rewrite andb_true_iff, !Z.leb_le. reflexivity. Qed.

Lemma check_elements_spec (N i : nat) (row : list Z) :
  forall j,
    match check_elements N i row j with
    | None => forall v, In v row -> in_range N v
    | Some e =>
        exists k, k < length row /\
          (forall k', k' < k -> in_range N (nth k' row 0%Z)) /\
          ~ in_range N (nth k row 0%Z) /\
          e = ElementError N (nth k row 0%Z) (i + 1) (j + k + 1)
    end.
Proof.
  induction row as [|v row IH]; intro j; simpl; [intros v []|].
  destruct ((0 <=? v) && (v <=? Z.of_nat N))%Z eqn:E.
  - apply in_range_test in E. specialize (IH (S j)).
    destruct (check_elements N i row (S j)) as [e|].
    + destruct IH as [k [Hk [Hbefore [Hbad ->]]]]. exists (S k).
      split; [lia|]. split; [|split; [exact Hbad|]].
      * intros [|k'] Hlt; [exact E | apply Hbefore; lia].
      * simpl. f_equal. lia.
    + intros x [<-|Hx]; [exact E | exact (IH x Hx)].
  - exists 0. split; [lia|]. split; [intros k' Hk'; lia|]. split.
    + simpl. intro H. apply in_range_test in H. congruence.
    + simpl. f_equal. lia.
Qed.

Lemma check_rows_spec (N : nat) (rows : boardZ) :
  forall i,
    match check_rows N rows i with
    | None => forall row, In row rows -> row_ok N row
    | Some e =>
        exists r, r < length rows /\
          (forall r', r' < r -> row_ok N (nth r' rows [])) /\
          ((length (nth r rows []) <> N /\
            e = RowSizeError (i + r + 1) (length (nth r rows [])) N) \/
           (length (nth r rows []) = N /\
            exists c, c < N /\
              (forall c', c' < c -> in_range N (nth c' (nth r rows []) 0%Z)) /\
              ~ in_range N (nth c (nth r rows []) 0%Z) /\
              e = ElementError N (nth c (nth r rows []) 0%Z) (i + r + 1) (c + 1)))
    end.
Proof.
  induction rows as [|row rows IH]; intro i; simpl; [intros row []|].
  destruct (length row =? N) eqn:El; simpl.
  2:{ apply Nat.eqb_neq in El. exists 0. split; [lia|].
      split; [intros r' Hr'; lia|]. left. split; [exact El|]. f_equal. lia. }
  apply Nat.eqb_eq in El.
  pose proof (check_elements_spec N i row 0) as Hel.
  destruct (check_elements N i row 0) as [e|].
  - destruct Hel as [k [Hk [Hbefore [Hbad ->]]]]. exists 0. split; [lia|].
    split; [intros r' Hr'; lia|]. right. split; [exact El|].
    exists k. split; [lia|]. split; [exact Hbefore|]. split; [exact Hbad|].
    f_equal; lia.
  - specialize (IH (S i)). destruct (check_rows N rows (S i)) as [e|].
    + destruct IH as [r [Hr [Hbefore Hcase]]]. exists (S r). split; [lia|]. split.
      * intros [|r'] Hlt; [split; assumption | apply Hbefore; lia].
      * simpl. destruct Hcase as [[Hlen ->] | [Hlen [c [Hc [Hb [Hbad ->]]]]]].
        -- left. split; [exact Hlen | f_equal; lia].
        -- right. split; [exact Hlen|]. exists c. split; [exact Hc|].
           split; [exact Hb|]. split; [exact Hbad|]. f_equal; lia.
    + intros x [<-|Hx]; [split; assumption | exact (IH x Hx)].
Qed.

(** X15.  [check_board] returns without raising exactly on the boards
    that the solver is modelled on: the entries are natural numbers and
    the board passes the boolean check of the claims (square side, rows of
    that length, entries at most the side). *)
Theorem check_boardZ_accepts (board : boardZ) :
  check_boardZ board = None <->
  exists g : grid, board = boardZ_of g /\ check_board g = true.
Proof.
  unfold check_boardZ, check_board. split.
  - destruct (Nat.sqrt (length board) * Nat.sqrt (length board) =? length board) eqn:Esq;
      [|discriminate]. simpl.
    pose proof (check_rows_spec (length board) board 0) as H.
    destruct (check_rows (length board) board 0); [discriminate|]. intros _.
    exists (grid_of board). unfold boardZ_of, grid_of. split.
    + rewrite map_map.
      transitivity (map (fun row : list Z => row) board); [symmetry; apply map_id|].
      apply map_ext_in. intros row Hrow. rewrite map_map.
      transitivity (map (fun v : Z => v) row); [symmetry; apply map_id|].
      apply map_ext_in. intros v Hv.
      destruct (H row Hrow) as [_ Hr]. specialize (Hr v Hv). unfold in_range in Hr.
      rewrite Z2Nat.id; [reflexivity | lia].
    + rewrite length_map, Esq. simpl. apply forallb_forall.
      intros row' Hin. apply in_map_iff in Hin. destruct Hin as [row [<- Hrow]].
      destruct (H row Hrow) as [Hlen Hr].
      rewrite length_map, Hlen, Nat.eqb_refl. simpl.
      apply forallb_forall. intros x Hx. apply in_map_iff in Hx.
      destruct Hx as [v [<- Hv]]. specialize (Hr v Hv). unfold in_range in Hr.
      apply Nat.leb_le. lia.
  - intros [g [-> Hchk]]. unfold boardZ_of. rewrite length_map.
    apply andb_true_iff in Hchk. destruct Hchk as [Hsq Hrows].
    rewrite Hsq. simpl. rewrite forallb_forall in Hrows.
    pose proof (check_rows_spec (length g) (map (map Z.of_nat) g) 0) as H.
    destruct (check_rows (length g) (map (map Z.of_nat) g) 0) as [e|]; [|reflexivity].
    exfalso. destruct H as [r [Hr [_ Hcase]]]. rewrite length_map in Hr.
    assert (Hnth : nth r (map (map Z.of_nat) g) [] = map Z.of_nat (nth r g [])).
    { change (@nil Z) with (map Z.of_nat []). apply map_nth. }
    rewrite Hnth in Hcase. rewrite length_map in Hcase.
    specialize (Hrows (nth r g []) (nth_In g [] Hr)).
    apply andb_true_iff in Hrows. destruct Hrows as [Hlen Hx].
    apply Nat.eqb_eq in Hlen. rewrite forallb_forall in Hx.
    destruct Hcase as [[Hne _] | [_ [c [Hc [_ [Hbad _]]]]]]; [congruence|].
    apply Hbad. change 0%Z with (Z.of_nat 0). rewrite map_nth.
    assert (Hin : In (nth c (nth r g []) 0) (nth r g [])) by (apply nth_In; lia).
    specialize (Hx _ Hin). apply Nat.leb_le in Hx. unfold in_range. lia.
Qed.

(** X16.  What [check_board] raises is the first fault in reading order.
    A side that is no perfect square is reported whatever the rows hold.
    Otherwise every row before the reported one has the length of the side
    and entries in [0..N]; the reported row either has another length, or
    has that length, entries in [0..N] before the reported one, and there
    an entry outside [0..N].  The messages count rows and entries from 1
    and name the length or the entry found. *)
Theorem check_boardZ_first_error (board : boardZ) (e : input_error) :
  check_boardZ board = Some e ->
  (e = BoardSizeError /\
   Nat.sqrt (length board) * Nat.sqrt (length board) <> length board) \/
  (Nat.sqrt (length board) * Nat.sqrt (length board) = length board /\
   exists r, r < length board /\
     (forall r', r' < r -> row_ok (length board) (nth r' board [])) /\
     ((length (nth r board []) <> length board /\
       e = RowSizeError (r + 1) (length (nth r board [])) (length board)) \/
      (length (nth r board []) = length board /\
       exists c, c < length board /\
         (forall c', c' < c ->
            in_range (length board) (nth c' (nth r board []) 0%Z)) /\
         ~ in_range (length board) (nth c (nth r board []) 0%Z) /\
         e = ElementError (length board) (nth c (nth r board []) 0%Z)
               (r + 1) (c + 1)))).
Proof.
  unfold check_boardZ.
  destruct (Nat.sqrt (length board) * Nat.sqrt (length board) =? length board) eqn:Esq;
    simpl.
  - apply Nat.eqb_eq in Esq. intro H. right. split; [exact Esq|].
    pose proof (check_rows_spec (length board) board 0) as Hspec.
    rewrite H in Hspec. exact Hspec.
  - apply Nat.eqb_neq in Esq. intros [= <-]. left. auto.
Qed.

Lemma check_boardZ_first_error_witness :
  (ElementError 4 9 3 3 = BoardSizeError /\
   Nat.sqrt (length [[1;2;3;4];[0;0;0;0];[0;0;9;5];[0;0;0;0]]%Z)
   * Nat.sqrt (length [[1;2;3;4];[0;0;0;0];[0;0;9;5];[0;0;0;0]]%Z)
   <> length [[1;2;3;4];[0;0;0;0];[0;0;9;5];[0;0;0;0]]%Z) \/
  (Nat.sqrt (length [[1;2;3;4];[0;0;0;0];[0;0;9;5];[0;0;0;0]]%Z)
   * Nat.sqrt (length [[1;2;3;4];[0;0;0;0];[0;0;9;5];[0;0;0;0]]%Z)
   = length [[1;2;3;4];[0;0;0;0];[0;0;9;5];[0;0;0;0]]%Z /\
   exists r, r < length [[1;2;3;4];[0;0;0;0];[0;0;9;5];[0;0;0;0]]%Z /\
     (forall r', r' < r ->
        row_ok (length [[1;2;3;4];[0;0;0;0];[0;0;9;5];[0;0;0;0]]%Z)
               (nth r' [[1;2;3;4];[0;0;0;0];[0;0;9;5];[0;0;0;0]]%Z [])) /\
     ((length (nth r [[1;2;3;4];[0;0;0;0];[0;0;9;5];[0;0;0;0]]%Z [])
       <> length [[1;2;3;4];[0;0;0;0];[0;0;9;5];[0;0;0;0]]%Z /\
       ElementError 4 9 3 3
       = RowSizeError (r + 1)
           (length (nth r [[1;2;3;4];[0;0;0;0];[0;0;9;5];[0;0;0;0]]%Z []))
           (length [[1;2;3;4];[0;0;0;0];[0;0;9;5];[0;0;0;0]]%Z)) \/
      (length (nth r [[1;2;3;4];[0;0;0;0];[0;0;9;5];[0;0;0;0]]%Z [])
       = length [[1;2;3;4];[0;0;0;0];[0;0;9;5];[0;0;0;0]]%Z /\
       exists c, c < length [[1;2;3;4];[0;0;0;0];[0;0;9;5];[0;0;0;0]]%Z /\
         (forall c', c' < c ->
            in_range (length [[1;2;3;4];[0;0;0;0];[0;0;9;5];[0;0;0;0]]%Z)
              (nth c' (nth r [[1;2;3;4];[0;0;0;0];[0;0;9;5];[0;0;0;0]]%Z []) 0%Z)) /\
         ~ in_range (length [[1;2;3;4];[0;0;0;0];[0;0;9;5];[0;0;0;0]]%Z)
             (nth c (nth r [[1;2;3;4];[0;0;0;0];[0;0;9;5];[0;0;0;0]]%Z []) 0%Z) /\
         ElementError 4 9 3 3
         = ElementError (length [[1;2;3;4];[0;0;0;0];[0;0;9;5];[0;0;0;0]]%Z)
             (nth c (nth r [[1;2;3;4];[0;0;0;0];[0;0;9;5];[0;0;0;0]]%Z []) 0%Z)
             (r + 1) (c + 1)))).
Proof.
  apply (check_boardZ_first_error [[1;2;3;4];[0;0;0;0];[0;0;9;5];[0;0;0;0]]%Z).
  vm_compute. reflexivity.
Defined.

(** ** [write_solutions] *)

Lemma write_loop_cons (dsh : string) (display : Z) (b : grid) (gs : list grid)
    (n : Z) (i : option Z) :
  write_loop dsh display (b :: gs) n i
  = if (n =? display + 1)%Z then ([], (Some (n - 1)%Z, true))
    else (dsh :: (nl ++ "Solution " ++ str n ++ ":")%string
              :: map row_line b
                 ++ fst (write_loop dsh display gs (n + 1)%Z (Some n)),
          snd (write_loop dsh display gs (n + 1)%Z (Some n))).
Proof.
  simpl. destruct (n =? display + 1)%Z; [reflexivity|].
  destruct (write_loop dsh display gs (n + 1)%Z (Some n)) as [w fin]. reflexivity.
Qed.

Lemma loop_count_step (display n : Z) (k : nat) :
  n <> (display + 1)%Z ->
  loop_count display n (S k) = S (loop_count display (n + 1) k) /\
  loop_breaks display n (S k) = loop_breaks display (n + 1) k.
Proof.
  intro Hn. unfold loop_count, loop_breaks.
  destruct (n <=? display + 1)%Z eqn:E.
  - apply Z.leb_le in E.
    assert (E' : (n + 1 <=? display + 1)%Z = true) by (apply Z.leb_le; lia).
    rewrite E'.
    assert (Ed : Z.to_nat (display + 1 - n) = S (Z.to_nat (display + 1 - (n + 1))))
      by lia.
    rewrite Ed. split; reflexivity.
  - apply Z.leb_gt in E.
    assert (E' : (n + 1 <=? display + 1)%Z = false) by (apply Z.leb_gt; lia).
    rewrite E'. split; reflexivity.
Qed.

Lemma loop_count_stop (display : Z) (k : nat) :
  loop_count display (display + 1) (S k) = 0 /\
  loop_breaks display (display + 1) (S k) = true.
Proof.
  unfold loop_count, loop_breaks. rewrite Z.leb_refl, Z.sub_diag. split; reflexivity.
Qed.

(** The loop over the yielded grids: it writes the first [loop_count] of
    them and is left by [break] exactly when the grid counted
    [display + 1] is among them. *)
Lemma write_loop_run (dsh : string) (display : Z) :
  forall gs n i,
    write_loop dsh display gs n i
    = (solution_blocks dsh n (firstn (loop_count display n (length gs)) gs),
       (if loop_breaks display n (length gs) then Some display
        else match gs with
             | [] => i
             | _ :: _ => Some (n + Z.of_nat (length gs) - 1)%Z
             end,
        loop_breaks display n (length gs))).
Proof.
  induction gs as [|b gs IH]; intros n i.
  - unfold loop_count, loop_breaks. simpl.
    destruct (n <=? display + 1)%Z; simpl; rewrite ?Nat.min_0_r; reflexivity.
  - rewrite write_loop_cons. destruct (n =? display + 1)%Z eqn:En.
    + apply Z.eqb_eq in En. subst n. simpl length.
      destruct (loop_count_stop display (length gs)) as [-> ->]. simpl.
      do 3 f_equal. lia.
    + apply Z.eqb_neq in En. simpl length.
      destruct (loop_count_step display n (length gs) En) as [-> ->].
      rewrite (IH (n + 1)%Z (Some n)). cbn [fst snd firstn solution_blocks].
      f_equal. f_equal.
      destruct (loop_breaks display (n + 1) (length gs)); [reflexivity|].
      destruct gs; f_equal; simpl length; lia.
Qed.

Lemma write_loop_from_one (dsh : string) (display : Z) (gs : list grid) :
  display <> 0%Z ->
  write_loop dsh display gs 1%Z None
  = (solution_blocks dsh 1 (firstn (shown display (length gs)) gs),
     (if ((1 <=? display)%Z && (Z.to_nat display <? length gs))
      then Some display
      else match gs with
           | [] => None
           | _ :: _ => Some (Z.of_nat (length gs))
           end,
      (1 <=? display)%Z && (Z.to_nat display <? length gs))).
Proof.
  intro Hd. rewrite write_loop_run.
  assert (Hc : loop_count display 1 (length gs) = shown display (length gs)).
  { unfold loop_count, shown.
    replace (display + 1 - 1)%Z with display by lia.
    destruct (1 <=? display + 1)%Z eqn:E0, (1 <=? display)%Z eqn:E1; try reflexivity.
    - apply Z.leb_le in E0. apply Z.leb_gt in E1. lia.
    - apply Z.leb_gt in E0. apply Z.leb_le in E1. lia. }
  assert (Hb : loop_breaks display 1 (length gs)
               = (1 <=? display)%Z && (Z.to_nat display <? length gs)).
  { unfold loop_breaks.
    replace (display + 1 - 1)%Z with display by lia.
    destruct (1 <=? display + 1)%Z eqn:E0, (1 <=? display)%Z eqn:E1; try reflexivity.
    - apply Z.leb_le in E0. apply Z.leb_gt in E1. simpl.
      apply Nat.ltb_ge. lia.
    - apply Z.leb_gt in E0. apply Z.leb_le in E1. lia. }
  rewrite Hc, Hb. destruct gs as [|g gs]; [reflexivity|].
  replace (1 + Z.of_nat (length (g :: gs)) - 1)%Z
    with (Z.of_nat (length (g :: gs))) by lia.
  reflexivity.
Qed.

Lemma shown_remap (display : Z) (k : nat) :
  shown (if (display =? 0)%Z then (-1)%Z else display) k = shown display k.
Proof.
  destruct (display =? 0)%Z eqn:E; [|reflexivity].
  apply Z.eqb_eq in E. subst. reflexivity.
Qed.

(** X17.  When [solve] yields at least one grid and either runs to its end
    or is asked for fewer grids than it yields, [write_solutions] returns
    and closes the file, having written the board, then one block for each
    of the first [display] grids (all of them when [display] is 0 or
    negative), then a closing line whose count is the number of blocks
    written, not the number of solutions of the board.  The generator is
    asked for one grid more than it writes, and an exception that [solve]
    would raise later than that is never met. *)
Theorem write_solutions_writes (realpath : string) (board : grid) (display : Z) :
  fst (solve board) <> [] ->
  (snd (snd (solve board)) = Ok tt \/
   (1 <= display < Z.of_nat (length (fst (solve board))))%Z) ->
  snd (write_solutions realpath board display) = Ok tt /\
  closed (fst (write_solutions realpath board display)) = true /\
  written (fst (write_solutions realpath board display))
  = ("Initial board:"%string :: map row_line board)
    ++ solution_blocks (dashes board) 1
         (firstn (shown display (length (fst (solve board)))) (fst (solve board)))
    ++ [(nl ++ nl
         ++ str (Z.of_nat (shown display (length (fst (solve board)))))
         ++ " solution"
         ++ plural (Z.of_nat (shown display (length (fst (solve board)))))
         ++ " found.")%string].
Proof.
  intros Hne Hend. unfold write_solutions.
  destruct (solve board) as [gs [st r]]. cbn [fst snd] in *.
  set (d1 := if (display =? 0)%Z then (-1)%Z else display).
  assert (Hd1 : d1 <> 0%Z).
  { unfold d1. destruct (display =? 0)%Z eqn:E; [discriminate|].
    apply Z.eqb_neq in E. exact E. }
  rewrite (write_loop_from_one _ d1 gs Hd1).
  assert (Hshown : shown d1 (length gs) = shown display (length gs))
    by apply shown_remap.
  rewrite Hshown.
  assert (Hbroke : (1 <=? d1)%Z && (Z.to_nat d1 <? length gs) = true <->
                   (1 <= display < Z.of_nat (length gs))%Z).
  { unfold d1. rewrite andb_true_iff, Z.leb_le, Nat.ltb_lt.
    destruct (display =? 0)%Z eqn:E.
    - apply Z.eqb_eq in E. lia.
    - lia. }
  destruct ((1 <=? d1)%Z && (Z.to_nat d1 <? length gs)) eqn:Eb.
  - apply proj1 in Hbroke. specialize (Hbroke eq_refl).
    assert (Ek : Z.of_nat (shown display (length gs)) = d1).
    { unfold shown, d1. destruct (display =? 0)%Z eqn:E; [apply Z.eqb_eq in E; lia|].
      destruct (1 <=? display)%Z eqn:E1; [|apply Z.leb_gt in E1; lia]. lia. }
    assert (Hf : falsy (Some d1) = false) by (simpl; apply Z.eqb_neq; exact Hd1).
    rewrite Hf, Ek. cbn [fst snd written closed]. auto.
  - assert (Hnb : ~ (1 <= display < Z.of_nat (length gs))%Z).
    { intro H. apply Hbroke in H. discriminate H. }
    destruct Hend as [-> | H]; [|contradiction].
    destruct gs as [|g gs]; [congruence|].
    assert (Ek : shown display (length (g :: gs)) = length (g :: gs)).
    { unfold shown. destruct (1 <=? display)%Z eqn:E1; [|reflexivity].
      apply Z.leb_le in E1. lia. }
    assert (Hf : falsy (Some (Z.of_nat (length (g :: gs)))) = false)
      by reflexivity.
    rewrite Hf, Ek. cbn [fst snd written closed]. auto.
Qed.

Lemma write_solutions_writes_witness :
  snd (write_solutions "out.txt" [[1;0;0;0];[0;0;0;0];[0;0;0;3];[0;0;0;2]] 2) = Ok tt /\
  closed (fst (write_solutions "out.txt" [[1;0;0;0];[0;0;0;0];[0;0;0;3];[0;0;0;2]] 2))
  = true /\
  written (fst (write_solutions "out.txt" [[1;0;0;0];[0;0;0;0];[0;0;0;3];[0;0;0;2]] 2))
  = ("Initial board:"%string
       :: map row_line [[1;0;0;0];[0;0;0;0];[0;0;0;3];[0;0;0;2]])
    ++ solution_blocks (dashes [[1;0;0;0];[0;0;0;0];[0;0;0;3];[0;0;0;2]]) 1
         (firstn (shown 2 (length (fst (solve [[1;0;0;0];[0;0;0;0];[0;0;0;3];[0;0;0;2]]))))
                 (fst (solve [[1;0;0;0];[0;0;0;0];[0;0;0;3];[0;0;0;2]])))
    ++ [(nl ++ nl
         ++ str (Z.of_nat
              (shown 2 (length (fst (solve [[1;0;0;0];[0;0;0;0];[0;0;0;3];[0;0;0;2]])))))
         ++ " solution"
         ++ plural (Z.of_nat
              (shown 2 (length (fst (solve [[1;0;0;0];[0;0;0;0];[0;0;0;3];[0;0;0;2]])))))
         ++ " found.")%string].
Proof.
  apply write_solutions_writes.
  - vm_compute. discriminate.
  - left. vm_compute. reflexivity.
Defined.

(** X18.  An exception of [solve] that the loop meets goes through
    [write_solutions] as it is, and the file is never closed: it holds the
    board and the blocks of the grids yielded before the exception, and no
    closing line.  The loop meets the exception unless it is left by
    [break] first, which needs [display] to be at least 1 and less than
    the number of grids yielded.  With conflicting clues this is how the
    [Exception('Invalid board.')] of the seeding comes out, after the
    board alone has been written. *)
Theorem write_solutions_raises (realpath : string) (board : grid) (display : Z)
    (e : exn) :
  snd (snd (solve board)) = Raise e ->
  ~ (1 <= display < Z.of_nat (length (fst (solve board))))%Z ->
  snd (write_solutions realpath board display) = Raise e /\
  closed (fst (write_solutions realpath board display)) = false /\
  written (fst (write_solutions realpath board display))
  = ("Initial board:"%string :: map row_line board)
    ++ solution_blocks (dashes board) 1 (fst (solve board)).
Proof.
  intros Hr Hnb. unfold write_solutions.
  destruct (solve board) as [gs [st r]]. cbn [fst snd] in *. subst r.
  set (d1 := if (display =? 0)%Z then (-1)%Z else display).
  assert (Hd1 : d1 <> 0%Z).
  { unfold d1. destruct (display =? 0)%Z eqn:E; [discriminate|].
    apply Z.eqb_neq in E. exact E. }
  rewrite (write_loop_from_one _ d1 gs Hd1).
  assert (Hshown : shown d1 (length gs) = shown display (length gs))
    by apply shown_remap.
  rewrite Hshown.
  assert (Eb : (1 <=? d1)%Z && (Z.to_nat d1 <? length gs) = false).
  { apply not_true_iff_false. intro H. apply Hnb.
    apply andb_true_iff in H. rewrite Z.leb_le, Nat.ltb_lt in H.
    unfold d1 in H. destruct (display =? 0)%Z; lia. }
  rewrite Eb.
  assert (Ek : shown display (length gs) = length gs).
  { unfold shown. destruct (1 <=? display)%Z eqn:E1; [|reflexivity].
    apply Z.leb_le in E1. lia. }
  rewrite Ek, firstn_all. cbn [fst snd written closed]. auto.
Qed.

Lemma write_solutions_raises_witness :
  snd (write_solutions "out.txt" [[1;1;0;0];[0;0;0;0];[0;0;0;3];[0;0;0;2]] 1)
  = Raise InvalidBoard /\
  closed (fst (write_solutions "out.txt" [[1;1;0;0];[0;0;0;0];[0;0;0;3];[0;0;0;2]] 1))
  = false /\
  written (fst (write_solutions "out.txt" [[1;1;0;0];[0;0;0;0];[0;0;0;3];[0;0;0;2]] 1))
  = ("Initial board:"%string
       :: map row_line [[1;1;0;0];[0;0;0;0];[0;0;0;3];[0;0;0;2]])
    ++ solution_blocks (dashes [[1;1;0;0];[0;0;0;0];[0;0;0;3];[0;0;0;2]]) 1
         (fst (solve [[1;1;0;0];[0;0;0;0];[0;0;0;3];[0;0;0;2]])).
Proof.
  apply write_solutions_raises.
  - vm_compute. reflexivity.
  - vm_compute. intros [_ H]. discriminate H.
Defined.

(** X19.  When [solve] runs to its end without yielding a grid, the clues
    being consistent but the board without completion, [write_solutions]
    writes the board and the line [No solutions found.], closes the file,
    and raises [Exception('Invalid board.')], the exception that
    conflicting clues raise as well. *)
Theorem write_solutions_none (realpath : string) (board : grid) (display : Z) :
  fst (solve board) = [] -> snd (snd (solve board)) = Ok tt ->
  write_solutions realpath board display
  = (mkOutput
       (("Initial board:"%string :: map row_line board)
        ++ [(dashes board ++ nl ++ "No solutions found.")%string])
       true
       [("Printing solutions to file: " ++ realpath)%string],
     Raise InvalidBoard).
Proof.
  intros Hgs Hr. unfold write_solutions.
  destruct (solve board) as [gs [st r]]. cbn [fst snd] in *. subst gs r.
  destruct (display =? 0)%Z; reflexivity.
Qed.

Lemma write_solutions_none_witness :
  write_solutions "out.txt" [[1;0;0;0];[0;0;1;0];[0;1;0;0];[0;0;0;2]] 1
  = (mkOutput
       (("Initial board:"%string
           :: map row_line [[1;0;0;0];[0;0;1;0];[0;1;0;0];[0;0;0;2]])
        ++ [(dashes [[1;0;0;0];[0;0;1;0];[0;1;0;0];[0;0;0;2]] ++ nl
             ++ "No solutions found.")%string])
       true
       [("Printing solutions to file: " ++ "out.txt")%string],
     Raise InvalidBoard).
Proof.
  apply write_solutions_none; vm_compute; reflexivity.
Defined.

(** X20.  When [write_solutions] returns, it prints the hint that more
    solutions can be asked for in two cases: when the loop was left by
    [break], that is when [display] is at least 1 and less than the number
    of grids yielded; and when the caller passed [-2] for [display], the
    value that the loop uses as its own mark of a [break], although every
    solution has then been written. *)
Theorem write_solutions_hint (realpath : string) (board : grid) (display : Z) :
  fst (solve board) <> [] ->
  (snd (snd (solve board)) = Ok tt \/
   (1 <= display < Z.of_nat (length (fst (solve board))))%Z) ->
  (In more_hint (printed (fst (write_solutions realpath board display))) <->
   (1 <= display < Z.of_nat (length (fst (solve board))))%Z \/ display = (-2)%Z).
Proof.
  intros Hne Hend. unfold write_solutions.
  destruct (solve board) as [gs [st r]]. cbn [fst snd] in *.
  set (d1 := if (display =? 0)%Z then (-1)%Z else display).
  assert (Hd1 : d1 <> 0%Z).
  { unfold d1. destruct (display =? 0)%Z eqn:E; [discriminate|].
    apply Z.eqb_neq in E. exact E. }
  rewrite (write_loop_from_one _ d1 gs Hd1).
  assert (Hbroke : (1 <=? d1)%Z && (Z.to_nat d1 <? length gs) = true <->
                   (1 <= display < Z.of_nat (length gs))%Z).
  { unfold d1. rewrite andb_true_iff, Z.leb_le, Nat.ltb_lt.
    destruct (display =? 0)%Z eqn:E.
    - apply Z.eqb_eq in E. lia.
    - lia. }
  assert (Hpr : forall x, more_hint <> ("Printing solutions to file: " ++ x)%string)
    by (intro x; discriminate).
  assert (Hdone : forall x, more_hint <> ("Done! " ++ x)%string)
    by (intro x; discriminate).
  destruct ((1 <=? d1)%Z && (Z.to_nat d1 <? length gs)) eqn:Eb.
  - assert (Hf : falsy (Some d1) = false) by (simpl; apply Z.eqb_neq; exact Hd1).
    rewrite Hf. cbn [fst snd printed]. split.
    + intros _. left. apply Hbroke. reflexivity.
    + intros _. right. right. left. reflexivity.
  - assert (Hnb : ~ (1 <= display < Z.of_nat (length gs))%Z).
    { intro H. apply Hbroke in H. discriminate H. }
    destruct Hend as [-> | H]; [|contradiction].
    destruct gs as [|g gs]; [congruence|].
    assert (Hf : falsy (Some (Z.of_nat (length (g :: gs)))) = false)
      by reflexivity.
    rewrite Hf. cbn [fst snd printed].
    assert (Hd2 : (d1 =? -2)%Z = true <-> display = (-2)%Z).
    { unfold d1. rewrite Z.eqb_eq. destruct (display =? 0)%Z eqn:E; [|tauto].
      apply Z.eqb_eq in E. lia. }
    destruct (d1 =? -2)%Z.
    + split; [intros _; right; apply Hd2; reflexivity|].
      intros _. right. right. left. reflexivity.
    + split.
      * intros [H|[H|[]]]; exfalso.
        -- exact (Hpr _ (eq_sym H)).
        -- exact (Hdone _ (eq_sym H)).
      * intros [H|H]; [contradiction|]. apply Hd2 in H. discriminate H.
Qed.

Lemma write_solutions_hint_witness :
  In more_hint
    (printed (fst (write_solutions "out.txt"
                     [[1;0;0;0];[0;0;0;0];[0;0;0;3];[0;0;0;2]] (-2)))) <->
  (1 <= -2 < Z.of_nat
      (length (fst (solve ([[1;0;0;0];[0;0;0;0];[0;0;0;3];[0;0;0;2]])%nat))))%Z
  \/ (-2)%Z = (-2)%Z.
Proof.
  apply write_solutions_hint.
  - vm_compute. discriminate.
  - left. vm_compute. reflexivity.
Defined.

(** ** An input without a board *)

Lemma make_board_loop_comments (py_int : string -> option Z) (lines : list string) :
  (forall l, In l lines -> is_comment l = true) ->
  forall b, make_board_loop py_int lines b = inl b.
Proof.
  induction lines as [|l lines IH]; intros Hall b; simpl; [reflexivity|].
  pose proof (Hall l (or_introl eq_refl)) as Hl.
  destruct l as [|c t]; [discriminate Hl|]. simpl in Hl. rewrite Hl.
  apply IH. intros l' Hl'. apply Hall. right; exact Hl'.
Qed.

(** X21.  An input file that holds nothing but comment lines, or nothing
    at all, is not refused: [make_board] returns the empty board,
    [check_board] accepts it, since 0 is a perfect square, and
    [write_solutions] reports one solution, the empty grid, whatever
    [display] is. *)
Theorem empty_input_one_solution (py_int : string -> option Z)
    (lines : list string) (realpath : string) (display : Z) :
  (forall l, In l lines -> is_comment l = true) ->
  make_board py_int lines = inl [] /\
  check_boardZ [] = None /\
  snd (write_solutions realpath (grid_of []) display) = Ok tt /\
  written (fst (write_solutions realpath (grid_of []) display))
  = ["Initial board:"%string; nl; (nl ++ "Solution 1:")%string;
     (nl ++ nl ++ "1 solution found.")%string].
Proof.
  intro Hall. split; [exact (make_board_loop_comments py_int lines Hall [])|].
  split; [reflexivity|].
  unfold write_solutions.
  change (solve (grid_of [])) with ([@nil (list nat)], (initial_store [], Ok tt)).
  cbv beta iota zeta.
  set (d1 := if (display =? 0)%Z then (-1)%Z else display).
  assert (Hd1 : d1 <> 0%Z).
  { unfold d1. destruct (display =? 0)%Z eqn:E; [discriminate|].
    apply Z.eqb_neq in E. exact E. }
  rewrite (write_loop_from_one _ d1 [[]] Hd1). cbn [length].
  assert (Eb : (1 <=? d1)%Z && (Z.to_nat d1 <? 1) = false).
  { destruct (1 <=? d1)%Z eqn:E1; [|reflexivity]. apply Z.leb_le in E1.
    simpl. apply Nat.ltb_ge. lia. }
  rewrite Eb.
  assert (Ek : shown d1 1 = 1).
  { unfold shown. destruct (1 <=? d1)%Z eqn:E1; [|reflexivity].
    apply Z.leb_le in E1. lia. }
  rewrite Ek. split; reflexivity.
Qed.

Lemma empty_input_one_solution_witness :
  make_board decimal_int ["# no board here"%string; "#"%string] = inl [] /\
  check_boardZ [] = None /\
  snd (write_solutions "out.txt" (grid_of []) 1) = Ok tt /\
  written (fst (write_solutions "out.txt" (grid_of []) 1))
  = ["Initial board:"%string; nl; (nl ++ "Solution 1:")%string;
     (nl ++ nl ++ "1 solution found.")%string].
Proof.
  apply empty_input_one_solution.
  intros l [<-|[<-|[]]]; reflexivity.
Defined.

(** * [solve] on a board whose side is no perfect square *)

Lemma X_add_run (k : constraint) (j : candidate) (st : store) :
  exists st',
    X_add k j st
    = (st', if cmem k (dict_keys (sX st)) then Ok tt else Raise KeyError) /\
    dict_keys (sX st') = dict_keys (sX st) /\ sY st' = sY st.
Proof.
  unfold X_add, bind, X_get.
  destruct (dict_get constraint_eqb (sX st) k) as [s|] eqn:E.
  - assert (Hin : cmem k (dict_keys (sX st)) = true).
    { apply cmem_In. apply (dict_get_keys constraint_eqb_eq). congruence. }
    rewrite Hin. eexists. split; [reflexivity|]. simpl.
    split; [apply dict_keys_set_old; congruence | reflexivity].
  - assert (Hin : cmem k (dict_keys (sX st)) = false).
    { apply not_true_iff_false. intro H. apply cmem_In in H.
      apply (dict_get_keys constraint_eqb_eq) in H. congruence. }
    rewrite Hin. exists st. auto.
Qed.

Lemma X_add_all_run (j : candidate) (ks : list constraint) :
  forall st, exists st',
    forM_ ks (fun i => X_add i j) st
    = (st', if forallb (fun k => cmem k (dict_keys (sX st))) ks
            then Ok tt else Raise KeyError) /\
    dict_keys (sX st') = dict_keys (sX st) /\ sY st' = sY st.
Proof.
  induction ks as [|k ks IH]; intro st; simpl.
  - exists st. auto.
  - unfold bind. destruct (X_add_run k j st) as [st1 [E1 [Hk1 HY1]]]. rewrite E1.
    destruct (cmem k (dict_keys (sX st))); simpl.
    + destruct (IH st1) as [st' [E' [Hk' HY']]]. exists st'.
      rewrite E', Hk1. split; [reflexivity|]. split; congruence.
    + exists st1. auto.
Qed.

Lemma populate_loop_run (entries : dictY) :
  forall st, exists st',
    forM_ entries (fun e => forM_ (snd e) (fun i => X_add i (fst e))) st
    = (st', if forallb (fun e => forallb (fun k => cmem k (dict_keys (sX st))) (snd e))
                       entries
            then Ok tt else Raise KeyError) /\
    dict_keys (sX st') = dict_keys (sX st).
Proof.
  induction entries as [|e entries IH]; intro st; simpl.
  - exists st. auto.
  - unfold bind. destruct (X_add_all_run (fst e) (snd e) st) as [st1 [E1 [Hk1 _]]].
    rewrite E1.
    destruct (forallb (fun k => cmem k (dict_keys (sX st))) (snd e)); simpl.
    + destruct (IH st1) as [st' [E' Hk']]. exists st'.
      rewrite E', Hk1. split; [reflexivity | congruence].
    + exists st1. auto.
Qed.

Lemma corner_block (N : nat) :
  Nat.sqrt N * Nat.sqrt N <> N -> N <= blc (Nat.sqrt N) (N - 1) (N - 1).
Proof.
  intro Hns. pose proof (Nat.sqrt_specif N) as [Hlo Hhi]. unfold blc.
  assert (HB : Nat.sqrt N <> 0).
  { intro H0. rewrite H0 in *. simpl in *. lia. }
  assert (Hq : Nat.sqrt N <= (N - 1) / Nat.sqrt N).
  { apply Nat.div_le_lower_bound; [exact HB | lia]. }
  pose proof (Nat.mul_succ_div_gt (N - 1) (Nat.sqrt N) HB) as Hgt.
  nia.
Qed.

Lemma prepare_not_square (board : grid) :
  Nat.sqrt (length board) * Nat.sqrt (length board) <> length board ->
  exists st', prepare (length board) (initial_store board) = (st', Raise KeyError).
Proof.
  intro Hns. unfold prepare.
  set (N := length board) in *. set (B := Nat.sqrt N) in *.
  unfold bind at 1. rewrite (init_X_run N (initial_store board) eq_refl).
  unfold bind at 1.
  rewrite (init_Y_run N B
             (setX (map (fun k => (k, [])) (all_keys N)) (initial_store board))
             eq_refl).
  unfold bind at 1. unfold populate_X. simpl sY.
  destruct (populate_loop_run (built_Y N B)
              (setY (built_Y N B)
                 (setX (map (fun k => (k, [])) (all_keys N)) (initial_store board))))
    as [st' [E _]].
  rewrite E. simpl sX. unfold dict_keys. rewrite map_map. cbn [fst]. rewrite map_id.
  assert (Hbad : forallb (fun e : candidate * list constraint =>
                   forallb (fun k => cmem k (all_keys N)) (snd e)) (built_Y N B) = false).
  { apply not_true_iff_false. intro H. rewrite forallb_forall in H.
    assert (HN : 0 < N) by (destruct N; [exfalso; apply Hns; reflexivity | lia]).
    assert (Hin : In ((N - 1, N - 1, 1), constraints_of B (N - 1, N - 1, 1))
                     (built_Y N B)).
    { unfold built_Y. apply in_map_iff. exists (N - 1, N - 1, 1). split; [reflexivity|].
      apply In_all_cands. lia. }
    specialize (H _ Hin). simpl in H. rewrite !andb_true_iff in H.
    destruct H as [_ [_ [_ [H _]]]]. apply cmem_In in H.
    apply In_all_keys in H. pose proof (corner_block N Hns) as Hc. fold B in Hc. lia. }
  rewrite Hbad. exists st'. reflexivity.
Qed.

(** X22.  [solve] needs the square side that [check_board] asks for.  On
    a board whose side is not a perfect square the block number
    [B * (row // B) + col // B] of the last cell is not below the side, so
    the loop that fills [X] (lines 135-137) meets a constraint that is no
    key of [X]: [solve] raises [KeyError], outside the [try] that turns the
    [KeyError] of the seeding into [Exception('Invalid board.')], and
    yields nothing. *)
Theorem solve_needs_square (board : grid) :
  Nat.sqrt (length board) * Nat.sqrt (length board) <> length board ->
  fst (solve board) = [] /\ snd (snd (solve board)) = Raise KeyError.
Proof.
  intro Hns. destruct (prepare_not_square board Hns) as [st' E].
  unfold solve. rewrite E. split; reflexivity.
Qed.

Lemma solve_needs_square_witness :
  fst (solve [[0; 0]; [0; 0]]) = [] /\
  snd (snd (solve [[0; 0]; [0; 0]])) = Raise KeyError.
Proof.
  apply solve_needs_square. vm_compute. discriminate.
Defined.

(** * [solve] on a board with an entry above its side *)

Lemma board_get_shape (board : grid) (st : store) (r c : nat) :
  (forall row, In row board -> length row = length board) ->
  sBoard st = board -> r < length board -> c < length board ->
  board_get r c st = (st, Ok (cell board r c)).
Proof.
  intros Hrows HB Hr Hc. unfold board_get, cell. rewrite HB.
  destruct (nth_error board r) as [rw|] eqn:Er;
    [|apply nth_error_None in Er; lia].
  pose proof (Hrows rw (nth_error_In _ _ Er)) as Hlen.
  rewrite (nth_error_nth _ _ [] Er).
  destruct (nth_error rw c) as [v|] eqn:Ec;
    [|apply nth_error_None in Ec; lia].
  rewrite (nth_error_nth _ _ 0 Ec). reflexivity.
Qed.

Lemma seed_as_clues_shape (board : grid) (st : store) :
  (forall row, In row board -> length row = length board) ->
  sBoard st = board ->
  seed (length board) st = forM_ (clues board (length board)) seed_one st.
Proof.
  intros Hrows HB. unfold seed, clues. rewrite forM_flat_map.
  apply (forM_ext_inv (fun st => sBoard st = board)); [auto | | | exact HB].
  - intro row. apply X_only_forM_. intro j. apply X_only_seed_one.
  - intros row st1 Hrow HB1. apply in_seq in Hrow. rewrite forM_flat_map.
    apply (forM_ext_inv (fun st => sBoard st = board)); [auto | | | exact HB1].
    + intro col. apply X_only_forM_. intro j. apply X_only_seed_one.
    + intros col st2 Hcol HB2. apply in_seq in Hcol.
      unfold bind at 1.
      rewrite (board_get_shape board st2 row col Hrows HB2) by lia.
      destruct (cell board row col =? 0); simpl; [reflexivity|].
      rewrite bind_ret_tt. reflexivity.
Qed.

Lemma split_first_bad {A} (p : A -> bool) (l : list A) :
  existsb (fun a => negb (p a)) l = true ->
  exists pre j post,
    l = pre ++ j :: post /\ (forall a, In a pre -> p a = true) /\ p j = false.
Proof.
  induction l as [|a l IH]; simpl; [discriminate|].
  destruct (p a) eqn:E; simpl.
  - intro H. destruct (IH H) as [pre [j [post [-> [Hpre Hj]]]]].
    exists (a :: pre), j, post. split; [reflexivity|]. split; [|exact Hj].
    intros x [<-|Hx]; [exact E | exact (Hpre x Hx)].
  - intros _. exists [], a, l. split; [reflexivity|]. split; [intros x [] | exact E].
Qed.

Lemma seed_one_unknown (N B : nat) (j : candidate) (st : store) :
  sY st = built_Y N B -> set_mem j (all_cands N) = false ->
  seed_one j st = (st, Raise KeyError).
Proof.
  intros HY Hj. unfold seed_one, bind, select, bind, Y_get.
  rewrite HY, dict_get_built_Y, Hj. reflexivity.
Qed.

Lemma seed_meets_unknown (B : nat) (pre post : list candidate) (j : candidate)
    (st : store) :
  seed_inv B (sX st) [] -> sY st = built_Y (B * B) B ->
  (forall a, In a pre -> In a (all_cands (B * B))) ->
  set_mem j (all_cands (B * B)) = false ->
  exists st', forM_ (pre ++ j :: post) seed_one st = (st', Raise KeyError).
Proof.
  intros Hinv HY Hpre Hj. rewrite forM_app. unfold bind.
  pose proof (seed_list B pre [] st Hinv HY Hpre) as Hseed.
  destruct (seedable B [] pre).
  - destruct Hseed as [X' [Hrun _]]. rewrite Hrun. simpl forM_. unfold bind.
    rewrite (seed_one_unknown (B * B) B j (setX X' st) HY Hj).
    eexists. reflexivity.
  - destruct Hseed as [st' Hrun]. rewrite Hrun. eexists. reflexivity.
Qed.

(** X23.  [solve] does not depend on [check_board] to refuse an entry
    above the side.  On a board of square side whose rows have the length
    of the side, an entry greater than the side names a candidate that is
    no key of [Y]: the seeding raises [KeyError] at that clue, if not at
    an earlier one, and [solve] raises [Exception('Invalid board.')]
    before it yields anything. *)
Theorem solve_rejects_large_entry (board : grid) :
  Nat.sqrt (length board) * Nat.sqrt (length board) = length board ->
  (forall row, In row board -> length row = length board) ->
  (exists r c, r < length board /\ c < length board /\
               length board < cell board r c) ->
  fst (solve board) = [] /\ snd (snd (solve board)) = Raise InvalidBoard.
Proof.
  intros Hsq Hrows [r [c [Hr [Hc Hbig]]]].
  remember (Nat.sqrt (length board)) as B eqn:EB.
  destruct (build_run B (initial_store board) eq_refl eq_refl)
    as [X0 [Hbuild [Hkeys Hget]]].
  assert (Hinv0 : seed_inv B X0 []) by (apply seed_inv_built; assumption).
  rewrite Hsq in Hbuild.
  set (stb := setX X0 (setY (built_Y (length board) B) (initial_store board))) in *.
  assert (Hprep : prepare (length board) (initial_store board)
                  = except_KeyError (seed (length board)) InvalidBoard stb).
  { transitivity ((build (length board) B ;;
                   except_KeyError (seed (length board)) InvalidBoard)
                    (initial_store board)).
    - unfold prepare, build, bind. rewrite <- EB.
      destruct (init_X (length board) (initial_store board)) as [s1 [[]|e]];
        [|reflexivity].
      destruct (init_Y (length board) B s1) as [s2 [[]|e]]; [|reflexivity].
      destruct (populate_X s2) as [s3 [[]|e]]; reflexivity.
    - unfold bind. rewrite Hbuild. reflexivity. }
  assert (Hbad : existsb (fun a => negb (set_mem a (all_cands (length board))))
                   (clues board (length board)) = true).
  { apply existsb_exists. exists (r, c, cell board r c). split.
    - apply In_clues. repeat split; try assumption. lia.
    - apply negb_true_iff. apply set_mem_false. intro H.
      apply In_all_cands in H. lia. }
  destruct (split_first_bad _ _ Hbad) as [pre [j [post [Hcl [Hpre Hj]]]]].
  assert (Hseed : exists st', forM_ (clues board (length board)) seed_one stb
                              = (st', Raise KeyError)).
  { rewrite Hcl. apply (seed_meets_unknown B).
    - exact Hinv0.
    - simpl. rewrite Hsq. reflexivity.
    - intros a Ha. rewrite Hsq. apply set_mem_In. exact (Hpre a Ha).
    - rewrite Hsq. exact Hj. }
  destruct Hseed as [st' Hrun].
  unfold solve. rewrite Hprep. unfold except_KeyError.
  rewrite (seed_as_clues_shape board stb Hrows eq_refl), Hrun.
  split; reflexivity.
Qed.

Lemma solve_rejects_large_entry_witness :
  fst (solve [[0;0;0;0];[0;7;0;0];[0;0;0;0];[0;0;0;0]]) = [] /\
  snd (snd (solve [[0;0;0;0];[0;7;0;0];[0;0;0;0];[0;0;0;0]])) = Raise InvalidBoard.
Proof.
  apply solve_rejects_large_entry.
  - reflexivity.
  - intros row [<-|[<-|[<-|[<-|[]]]]]; reflexivity.
  - exists 1, 1. vm_compute. repeat split; repeat constructor.
Defined.
